(** * A model of package trace (trace.go)

    The package records, per goroutine, the call stack seen at the last call
    of [Trace], compares a freshly captured stack with the recorded one and
    prints the frames that are new.  This file embeds the data types and the
    functions of trace.go and proves their properties.

    Conventions of the embedding:
    - a Go pointer [*T] is a [ptr T]: [None] is nil, [Some v] the address of
      a value [v] ([FrameInfo] values are never written after their creation,
      so a pointer is modelled by the value it points to);
    - a run-time panic (nil dereference, index out of range, negative repeat
      count, write to a nil map) is the outcome [Panic]; a function that can
      panic returns a [result];
    - slice lengths and slice indices that the code only ever increases from
      zero are natural numbers; the other [int] values are in [Z];
    - the mutex of [Tracer] makes every call of [Trace] one atomic step: the
      model is the sequential step function. *)

From Equations Require Import Equations.
From Stdlib Require Import Ascii String.
From stdpp Require Import base option list gmap strings pretty.

(** ** Outcomes of fallible code *)

Inductive result (A : Type) : Type :=
| Ok (a : A)
| Panic (why : string).
Arguments Ok {A} a.
Arguments Panic {A} why.

#[global] Instance result_ret : MRet result := fun A a => Ok a.
#[global] Instance result_bind : MBind result :=
  fun A B f m => match m with Ok a => f a | Panic why => Panic why end.

(** A Go pointer: nil or the address of a value. *)
Definition ptr (A : Type) : Type := option A.

Definition deref {A} (p : ptr A) : result A :=
  match p with
  | Some v => Ok v
  | None => Panic "invalid memory address or nil pointer dereference"
  end.

(** [s[i]] on a slice. *)
Definition index {A} (s : list A) (i : nat) : result A :=
  match s !! i with
  | Some x => Ok x
  | None => Panic "index out of range"
  end.

(** ** The Go runtime's stack frame and time stamp

    [runtime.Frame] is a struct of comparable fields; [Func] stands for the
    address held by its [*Func] field.  A [time.Time] is an opaque comparable
    value. *)

Module runtime.
Record Frame : Type := {
  PC : Z;
  Func : Z;
  Function : string;
  File : string;
  Line : Z;
  Entry : Z
}.

(** The zero value, which [Frames.Next] returns when no frame is left. *)
Definition zero : Frame :=
  {| PC := 0; Func := 0; Function := ""; File := ""; Line := 0; Entry := 0 |}.
End runtime.

#[global] Instance runtime_Frame_eq_dec : EqDecision runtime.Frame.
Proof. solve_decision. Defined.

Definition Time : Type := Z.
Bind Scope Z_scope with Time.

(** ** FrameInfo *)

Record FrameInfo : Type := {
  Frame : runtime.Frame;
  TimeRecorded : Time
}.

#[global] Instance FrameInfo_eq_dec : EqDecision FrameInfo.
Proof. solve_decision. Defined.

(** [func (fr *FrameInfo) Copy() *FrameInfo] *)
Definition FrameInfo_Copy (fr : ptr FrameInfo) : ptr FrameInfo :=
  match fr with
  | None => None
  | Some v => Some {| Frame := Frame v; TimeRecorded := TimeRecorded v |}
  end.

(** [func (fr *FrameInfo) Equal(other *FrameInfo) bool], [*fr == *other] *)
Definition FrameInfo_Equal (fr other : ptr FrameInfo) : result bool :=
  a ← deref fr; b ← deref other; mret (bool_decide (a = b)).

(** [func (fr *FrameInfo) Same(other *FrameInfo) bool],
    [fr.Frame == other.Frame] *)
Definition FrameInfo_Same (fr other : ptr FrameInfo) : result bool :=
  a ← deref fr; b ← deref other; mret (bool_decide (Frame a = Frame b)).

(** [func from(frame runtime.Frame, timeStamp time.Time) *FrameInfo] *)
Definition from (frame : runtime.Frame) (timeStamp : Time) : ptr FrameInfo :=
  Some {| Frame := frame; TimeRecorded := timeStamp |}.

(** ** findLastCommonFrameIndex

    The inner loop [for increment = 0; firstIdx+increment < firstLen;
    increment++], entered with the current value of [increment]; it returns
    the values of [matching] and [increment] on leaving the loop. *)
Equations? matchingLoop (first second : list (ptr FrameInfo))
    (firstIdx secondIdx increment : nat) : result (bool * nat)
    by wf (length first - (firstIdx + increment)) lt :=
  matchingLoop first second firstIdx secondIdx increment
    with decide (firstIdx + increment < length first) := {
    | left _
        with (a ← index first (firstIdx + increment);
              b ← index second (secondIdx + increment);
              FrameInfo_Same a b) := {
        | Ok true => matchingLoop first second firstIdx secondIdx (S increment)
        | Ok false => Ok (false, increment)
        | Panic why => Panic why };
    | right _ => Ok (true, increment) }.
Proof. lia. Qed.

(** The outer loop [for firstIdx < firstLen]. *)
Equations? scanLoop (first second : list (ptr FrameInfo))
    (firstIdx secondIdx : nat) : result (nat * nat)
    by wf (length first - firstIdx) lt :=
  scanLoop first second firstIdx secondIdx
    with decide (firstIdx < length first) := {
    | left _ with matchingLoop first second firstIdx secondIdx 0 := {
        | Ok (true, _) => Ok (firstIdx, secondIdx)
        | Ok (false, increment) =>
            scanLoop first second
              (firstIdx + (increment + 1)) (secondIdx + (increment + 1))
        | Panic why => Panic why };
    | right _ => Ok (firstIdx, secondIdx) }.
Proof. lia. Qed.

(** [func findLastCommonFrameIndex(first, second []*FrameInfo)
    (firstIdx, secondIdx int)] *)
Definition findLastCommonFrameIndex (first second : list (ptr FrameInfo))
    : result (nat * nat) :=
  let firstLen := length first in
  let secondLen := length second in
  let '(firstIdx, secondIdx) :=
    if decide (secondLen < firstLen)
    then (firstLen - secondLen, 0)
    else (0, secondLen - firstLen) in
  let '(firstIdx, secondIdx) :=
    if decide (firstIdx = 0 ∧ secondIdx = 0)
    then (firstIdx + 1, secondIdx + 1)
    else (firstIdx, secondIdx) in
  scanLoop first second firstIdx secondIdx.

(** The stacks of trace_test.go: [fromStrings] builds frames that carry only a
    file name. *)
Definition fromStrings (labels : list string) : list (ptr FrameInfo) :=
  (λ name,
     Some {| Frame := {| runtime.PC := 0; runtime.Func := 0;
                         runtime.Function := ""; runtime.File := name;
                         runtime.Line := 0; runtime.Entry := 0 |};
             TimeRecorded := 0 |}) <$> labels.


(** ** Values, loggers and library functions

    An argument of type [interface{}] holds a value of some dynamic type; the
    cases below are the ones the package itself passes, and what a caller may
    pass to [Trace]. *)

Inductive Value : Type :=
| VNil
| VBool (b : bool)
| VInt (n : Z)
| VUintptr (n : Z)
| VRune (r : Z)
| VString (s : string).

(** The functions of Go's standard library that format text.  They are not
    part of the package: the model takes them as given and every theorem
    holds for whatever they compute. *)
Class Library : Type := {
  fmt_Sprintf : string → list Value → string;
  strings_TrimSpace : string → string;
  time_Format : Time → string → string
}.

(** [count] copies of [s], what [strings.Repeat(s, count)] returns. *)
Fixpoint repeat_string (s : string) (count : nat) : string :=
  match count with
  | O => ""
  | S n => (s ++ repeat_string s n)%string
  end.

(** A [Logger] is known to the package by its two methods only.  The model
    keeps the calls a logger has received, oldest first. *)
Inductive LoggerCall : Type :=
| Printf (format : string) (v : list Value)
| Println (v : list Value).

Definition Logger : Type := list LoggerCall.

(** A method call on [tr.Out]; the interface value may be nil. *)
Definition Out_call (out : option Logger) (c : LoggerCall)
    : result (option Logger) :=
  match out with
  | Some calls => Ok (Some (calls ++ [c]))
  | None => Panic "invalid memory address or nil pointer dereference"
  end.

(** ** GoroutineInfo *)

Record GoroutineInfo : Type := {
  ID : Z;
  Frames : list (ptr FrameInfo);
  TopMessage : string;
  History : list string
}.

(** [func (gi *GoroutineInfo) Copy() *GoroutineInfo] *)
Definition GoroutineInfo_Copy (gi : ptr GoroutineInfo) : ptr GoroutineInfo :=
  match gi with
  | None => None
  | Some g =>
      Some {| ID := ID g;
              Frames := FrameInfo_Copy <$> Frames g;
              TopMessage := TopMessage g;
              History := (λ entry, entry) <$> History g |}
  end.

Definition with_TopMessage (g : GoroutineInfo) (m : string) : GoroutineInfo :=
  {| ID := ID g; Frames := Frames g; TopMessage := m; History := History g |}.

Definition with_Frames (g : GoroutineInfo) (fs : list (ptr FrameInfo))
    : GoroutineInfo :=
  {| ID := ID g; Frames := fs; TopMessage := TopMessage g;
     History := History g |}.

Definition with_History (g : GoroutineInfo) (h : list string)
    : GoroutineInfo :=
  {| ID := ID g; Frames := Frames g; TopMessage := TopMessage g;
     History := h |}.

(** ** What one call of Trace reads from its surroundings

    [GoroutineID] is the identity of the calling goroutine, [time_Now] the
    reading of [time.Now], and [runtime_Callers skip n] the frames that
    [runtime.CallersFrames] yields for the program counters that
    [runtime.Callers(skip, pc)] stores in a [pc] of length [n].
    [runtime_maxAlloc] is the size in bytes of the largest slice that the
    runtime makes at the time of the call: it depends on the memory that
    is left. *)
Record Env : Type := {
  GoroutineID : Z;
  time_Now : Time;
  runtime_Callers : Z → Z → list runtime.Frame;
  runtime_maxAlloc : N
}.

(** The largest size of a slice in these surroundings.  Whatever memory is
    left, the runtime refuses a size above its constant [maxAlloc], which
    is [2 ^ 48] on the platforms where [int] has 64 bits. *)
Definition maxAlloc (env : Env) : Z :=
  Z.min (2 ^ 48) (Z.of_N (runtime_maxAlloc env)).

(** [make] of a slice for [n] elements of [size] bytes each.  It panics on a
    negative [n] and on a size beyond [maxAlloc]; the model does not tell
    this panic from the fatal error of a runtime that is out of memory:
    either way the call does not return. *)
Definition makeslice (env : Env) (size n : Z) (why : string) : result unit :=
  if decide (n < 0 ∨ maxAlloc env < size * n)%Z then Panic why else Ok ().

(** [strings.Repeat(s, count)] panics on a negative count, and on a count
    for which the result has no room: the test of the length and the
    growth of the buffer are one allocation of [len(s) * count] bytes in the
    model. *)
Definition strings_Repeat (env : Env) (s : string) (count : Z)
    : result string :=
  if decide (count < 0)%Z then Panic "strings: negative Repeat count"
  else
    _ ← makeslice env 1 (Z.of_nat (String.length s) * count)
          "strings: Repeat output length overflow";
    mret (repeat_string s (Z.to_nat count)).

(** ** Tracer

    [goroutines] maps an ID to the [GoroutineInfo] its pointer designates:
    [setGoroutine] is the only writer of the map and stores non-nil pointers,
    each under one key.  [Out] holds the logger, [ClockFn] the clock as a
    function of the surroundings.  The mutex is left out. *)
Record Tracer : Type := {
  On : bool;
  Out : option Logger;
  Capacity : Z;
  SourceLength : Z;
  LockGoroutine : bool;
  OmitTime : bool;
  ClockFn : option (Env → Time);
  OnGoroutineSwitchPrintCurrentStack : bool;
  OnGoroutineSwitchPrintStackHistory : bool;
  goroutines : option (gmap Z GoroutineInfo);
  goroutineID : Z;
  indents : list string;
  marker : string;
  calloutPrevious : Z;
  calloutNew : Z
}.

Definition with_Out (tr : Tracer) (out : option Logger) : Tracer :=
  {| On := On tr; Out := out; Capacity := Capacity tr;
     SourceLength := SourceLength tr; LockGoroutine := LockGoroutine tr;
     OmitTime := OmitTime tr; ClockFn := ClockFn tr;
     OnGoroutineSwitchPrintCurrentStack :=
       OnGoroutineSwitchPrintCurrentStack tr;
     OnGoroutineSwitchPrintStackHistory :=
       OnGoroutineSwitchPrintStackHistory tr;
     goroutines := goroutines tr; goroutineID := goroutineID tr;
     indents := indents tr; marker := marker tr;
     calloutPrevious := calloutPrevious tr; calloutNew := calloutNew tr |}.

Definition with_ClockFn (tr : Tracer) (f : option (Env → Time)) : Tracer :=
  {| On := On tr; Out := Out tr; Capacity := Capacity tr;
     SourceLength := SourceLength tr; LockGoroutine := LockGoroutine tr;
     OmitTime := OmitTime tr; ClockFn := f;
     OnGoroutineSwitchPrintCurrentStack :=
       OnGoroutineSwitchPrintCurrentStack tr;
     OnGoroutineSwitchPrintStackHistory :=
       OnGoroutineSwitchPrintStackHistory tr;
     goroutines := goroutines tr; goroutineID := goroutineID tr;
     indents := indents tr; marker := marker tr;
     calloutPrevious := calloutPrevious tr; calloutNew := calloutNew tr |}.

Definition with_goroutines (tr : Tracer) (m : option (gmap Z GoroutineInfo))
    : Tracer :=
  {| On := On tr; Out := Out tr; Capacity := Capacity tr;
     SourceLength := SourceLength tr; LockGoroutine := LockGoroutine tr;
     OmitTime := OmitTime tr; ClockFn := ClockFn tr;
     OnGoroutineSwitchPrintCurrentStack :=
       OnGoroutineSwitchPrintCurrentStack tr;
     OnGoroutineSwitchPrintStackHistory :=
       OnGoroutineSwitchPrintStackHistory tr;
     goroutines := m; goroutineID := goroutineID tr;
     indents := indents tr; marker := marker tr;
     calloutPrevious := calloutPrevious tr; calloutNew := calloutNew tr |}.

Definition with_goroutineID (tr : Tracer) (id : Z) : Tracer :=
  {| On := On tr; Out := Out tr; Capacity := Capacity tr;
     SourceLength := SourceLength tr; LockGoroutine := LockGoroutine tr;
     OmitTime := OmitTime tr; ClockFn := ClockFn tr;
     OnGoroutineSwitchPrintCurrentStack :=
       OnGoroutineSwitchPrintCurrentStack tr;
     OnGoroutineSwitchPrintStackHistory :=
       OnGoroutineSwitchPrintStackHistory tr;
     goroutines := goroutines tr; goroutineID := id;
     indents := indents tr; marker := marker tr;
     calloutPrevious := calloutPrevious tr; calloutNew := calloutNew tr |}.

Definition with_indents (tr : Tracer) (l : list string) : Tracer :=
  {| On := On tr; Out := Out tr; Capacity := Capacity tr;
     SourceLength := SourceLength tr; LockGoroutine := LockGoroutine tr;
     OmitTime := OmitTime tr; ClockFn := ClockFn tr;
     OnGoroutineSwitchPrintCurrentStack :=
       OnGoroutineSwitchPrintCurrentStack tr;
     OnGoroutineSwitchPrintStackHistory :=
       OnGoroutineSwitchPrintStackHistory tr;
     goroutines := goroutines tr; goroutineID := goroutineID tr;
     indents := l; marker := marker tr;
     calloutPrevious := calloutPrevious tr; calloutNew := calloutNew tr |}.

Definition with_marker (tr : Tracer) (m : string) : Tracer :=
  {| On := On tr; Out := Out tr; Capacity := Capacity tr;
     SourceLength := SourceLength tr; LockGoroutine := LockGoroutine tr;
     OmitTime := OmitTime tr; ClockFn := ClockFn tr;
     OnGoroutineSwitchPrintCurrentStack :=
       OnGoroutineSwitchPrintCurrentStack tr;
     OnGoroutineSwitchPrintStackHistory :=
       OnGoroutineSwitchPrintStackHistory tr;
     goroutines := goroutines tr; goroutineID := goroutineID tr;
     indents := indents tr; marker := m;
     calloutPrevious := calloutPrevious tr; calloutNew := calloutNew tr |}.

Definition with_callouts (tr : Tracer) (previous new : Z) : Tracer :=
  {| On := On tr; Out := Out tr; Capacity := Capacity tr;
     SourceLength := SourceLength tr; LockGoroutine := LockGoroutine tr;
     OmitTime := OmitTime tr; ClockFn := ClockFn tr;
     OnGoroutineSwitchPrintCurrentStack :=
       OnGoroutineSwitchPrintCurrentStack tr;
     OnGoroutineSwitchPrintStackHistory :=
       OnGoroutineSwitchPrintStackHistory tr;
     goroutines := goroutines tr; goroutineID := goroutineID tr;
     indents := indents tr; marker := marker tr;
     calloutPrevious := previous; calloutNew := new |}.

(** [func (tr *Tracer) Goroutines() map[int]*GoroutineInfo]: a deep copy of
    the map, nil for a nil tracer. *)
Definition Goroutines (tr : ptr Tracer) : option (gmap Z (ptr GoroutineInfo)) :=
  match tr with
  | None => None
  | Some t =>
      Some ((λ val, GoroutineInfo_Copy (Some val))
              <$> default ∅ (goroutines t))
  end.

(** The runes [' '] and ['+']. *)
Definition rune_space : Z := 32.
Definition rune_plus : Z := 43.

(** [func (tr *Tracer) proceed() bool], with the tracer as it leaves it. *)
Definition proceed (tr : ptr Tracer) : bool * ptr Tracer :=
  match tr with
  | None => (false, None)
  | Some t =>
      if negb (On t) || bool_decide (Out t = None)
         || bool_decide (Capacity t ≤ 0)%Z
      then (false, Some t)
      else
        let t :=
          if goroutines t is None
          then with_callouts (with_goroutines t (Some ∅)) rune_space rune_plus
          else t in
        let t :=
          if ClockFn t is None then with_ClockFn t (Some time_Now) else t in
        (true, Some t)
  end.

(** Go's [int] is 64 bits wide: the sum of two [int]s wraps around. *)
Definition int (z : Z) : Z := ((z + 2 ^ 63) `mod` 2 ^ 64 - 2 ^ 63)%Z.

(** [s[i]] for an [int] index. *)
Definition index_Z {A} (s : list A) (i : Z) : result A :=
  if decide (i < 0)%Z then Panic "index out of range"
  else index s (Z.to_nat i).

(** [s[:high]] and [s[low:]].  Go allows a [high] up to the capacity of [s];
    the model panics as soon as [high] exceeds the length. *)
Definition slice_to {A} (s : list A) (high : nat) : result (list A) :=
  if decide (high ≤ length s) then Ok (take high s)
  else Panic "slice bounds out of range".

Definition slice_from {A} (s : list A) (low : nat) : result (list A) :=
  if decide (low ≤ length s) then Ok (drop low s)
  else Panic "slice bounds out of range".

(** [s[low:]] on a string, for [low] within the string. *)
Definition string_from (s : string) (low : nat) : string :=
  String.substring low (String.length s - low) s.

(** [func runtimeFrames(skip, capacity int) *runtime.Frames];
    [make([]uintptr, capacity)] makes a slice of [capacity] words of 8
    bytes. *)
Definition runtimeFrames (env : Env) (skip capacity : Z)
    : result (list runtime.Frame) :=
  _ ← makeslice env 8 capacity "makeslice: len out of range";
  mret (runtime_Callers env (int (2 + skip)) capacity).

(** The loop of [getFrameInfos]: [frames.Next()] returns the next frame and
    whether more frames follow; on an iterator with no frame left it returns
    the zero frame and [false].  The loop appends before it tests [more]. *)
Fixpoint getFrameInfos_loop (frames : list runtime.Frame) (now : Time)
    (allFrameInfos : list (ptr FrameInfo)) : list (ptr FrameInfo) :=
  match frames with
  | [] => allFrameInfos ++ [from runtime.zero now]
  | [newFrameInfo] => allFrameInfos ++ [from newFrameInfo now]
  | newFrameInfo :: more =>
      getFrameInfos_loop more now (allFrameInfos ++ [from newFrameInfo now])
  end.

(** [func getFrameInfos(skip, capacity int, now time.Time) []*FrameInfo] *)
Definition getFrameInfos (env : Env) (skip capacity : Z) (now : Time)
    : result (list (ptr FrameInfo)) :=
  frames ← runtimeFrames env (int (skip + 1)) capacity;
  _ ← makeslice env 8 capacity "makeslice: cap out of range";
  mret (getFrameInfos_loop frames now []).

(** The loop of [indentation]: [for level >= len(tr.indents)]. *)
Equations? indentation_loop (indents : list string) (level : Z) : list string
    by wf (Z.to_nat (level + 1 - Z.of_nat (length indents))) lt :=
  indentation_loop indents level
    with decide (Z.of_nat (length indents) ≤ level)%Z := {
    | left _ =>
        indentation_loop
          (indents ++ [repeat_string "  " (length indents)]) level
    | right _ => indents }.
Proof. rewrite length_app. simpl. lia. Qed.

(** [func (tr *Tracer) indentation(level int) string] *)
Definition indentation (tr : Tracer) (level : Z) : result (string * Tracer) :=
  let tr := with_indents tr (indentation_loop (indents tr) level) in
  s ← index_Z (indents tr) level;
  mret (s, tr).

(** The loop of [printHistory]. *)
Fixpoint printHistory_loop (out : option Logger) (history : list string)
    : result (option Logger) :=
  match history with
  | [] => Ok out
  | line :: rest =>
      out ← Out_call out (Println [VString line]);
      printHistory_loop out rest
  end.

(** [func (tr *Tracer) printHistory(goroutine *GoroutineInfo)] *)
Definition printHistory (tr : Tracer) (goroutine : GoroutineInfo)
    : result Tracer :=
  out ← printHistory_loop (Out tr) (History goroutine);
  mret (with_Out tr out).

(** The lines of [setGoroutine] after the test of the goroutine's identity:
    the state of the goroutine is looked up, and created when absent. *)
Definition setGoroutine_lookup (tr : Tracer) (goroutineID' : Z)
    (changed : bool) : result (bool * bool * ptr GoroutineInfo * Tracer) :=
  let tr := with_goroutineID tr goroutineID' in
  match goroutines tr ≫= (.!! goroutineID tr) with
  | Some goroutine => Ok (true, changed, Some goroutine, tr)
  | None =>
      let goroutine :=
        {| ID := goroutineID'; Frames := []; TopMessage := "";
           History := [] |} in
      match goroutines tr with
      | None => Panic "assignment to entry in nil map"
      | Some m =>
          Ok (true, changed, Some goroutine,
              with_goroutines tr (Some (<[goroutineID' := goroutine]> m)))
      end
  end.

(** [func (tr *Tracer) setGoroutine() (proceed, changed bool,
    goroutine *GoroutineInfo)], with the tracer as it leaves it. *)
Definition setGoroutine (tr : Tracer) (env : Env)
    : result (bool * bool * ptr GoroutineInfo * Tracer) :=
  let goroutineID' := GoroutineID env in
  if decide (goroutineID' ≠ goroutineID tr) then
    if LockGoroutine tr then Ok (false, true, None, tr)
    else
      tr ← (if decide (Z.of_nat (String.length (marker tr)) ≠ SourceLength tr)
            then m ← strings_Repeat env "-" (SourceLength tr);
                 mret (with_marker tr m)
            else mret tr);
      out ← Out_call (Out tr)
              (Printf "%s goroutine switched: %3d -> %-3d %s"
                 [VString (marker tr); VInt (goroutineID tr);
                  VInt goroutineID'; VString (marker tr)]);
      setGoroutine_lookup (with_Out tr out) goroutineID' true
  else setGoroutine_lookup tr goroutineID' false.

(** The [format] and the [values] that [messageFrom] hands to [fmt.Sprintf]
    when [num > 0]: [args[0]] is the format when its dynamic type is
    [string]; otherwise the format is made up from the number of
    arguments, which are then all values. *)
Definition messageFrom_format (args : list Value)
    : option (string * list Value) :=
  let num := length args in
  match args with
  | [] => None
  | VString format :: rest =>
      Some (format, if decide (1 < num) then rest else [])
  | _ :: _ => Some (repeat_string "%v " num, args)
  end.

Section Operations.
Context `{Library}.

(** [func messageFrom(args ...interface{}) string] *)
Definition messageFrom (args : list Value) : string :=
  match messageFrom_format args with
  | Some (format, values) => fmt_Sprintf format values
  | None => ""
  end.

(** One round of the loop of [printFrameIndicesLowerThan], for the frame
    at [idx]. *)
Definition printFrame (tr : Tracer) (goroutine : GoroutineInfo)
    (idx markFrom : Z) : result (Tracer * GoroutineInfo) :=
  frame ← index_Z (Frames goroutine) idx ≫= deref;
  let location :=
    if decide (0 < SourceLength tr)%Z then
      let location :=
        fmt_Sprintf "%200s:%-4d  p%d g%-3d%%c"
          [VString (runtime.File (Frame frame));
           VInt (runtime.Line (Frame frame));
           VUintptr (runtime.PC (Frame frame));
           VInt (ID goroutine)] in
      if decide (SourceLength tr < Z.of_nat (String.length location))%Z
      then string_from location
             (Z.to_nat (Z.of_nat (String.length location) - SourceLength tr))
      else location
    else "" in
  let timestamp :=
    if OmitTime tr then ""
    else time_Format (TimeRecorded frame) "2006-01-02 15:04:05.00000000 " in
  let message := if decide (idx = 0)%Z then TopMessage goroutine else "" in
  let level := (Z.of_nat (length (Frames goroutine)) - idx - 1)%Z in
  '(indent, tr) ← indentation tr level;
  let line :=
    strings_TrimSpace
      (fmt_Sprintf "%s%s%s %s() %s"
         [VString timestamp; VString location; VString indent;
          VString (runtime.Function (Frame frame)); VString message]) in
  let goroutine :=
    with_History goroutine
      (History goroutine ++ [fmt_Sprintf line [VRune (calloutPrevious tr)]]) in
  let callout :=
    if decide (idx < markFrom)%Z then calloutNew tr
    else calloutPrevious tr in
  out ← Out_call (Out tr) (Printf line [VRune callout]);
  mret (with_Out tr out, goroutine).

(** The loop [for ; idx >= 0; idx--]. *)
Equations? printLoop (tr : Tracer) (goroutine : GoroutineInfo)
    (idx markFrom : Z) : result (Tracer * GoroutineInfo)
    by wf (Z.to_nat (idx + 1)) lt :=
  printLoop tr goroutine idx markFrom with decide (0 ≤ idx)%Z := {
    | left _ with printFrame tr goroutine idx markFrom := {
        | Ok (tr', goroutine') => printLoop tr' goroutine' (idx - 1) markFrom
        | Panic why => Panic why };
    | right _ => Ok (tr, goroutine) }.
Proof. lia. Qed.

(** [func (tr *Tracer) printFrameIndicesLowerThan(goroutine *GoroutineInfo,
    idx, markFrom int)].  When [idx >= numFrames] the code writes a
    diagnostic to standard output, which the model does not record: the
    first round of the loop then panics on [goroutine.Frames[idx]]. *)
Definition printFrameIndicesLowerThan (tr : Tracer)
    (goroutine : GoroutineInfo) (idx markFrom : Z)
    : result (Tracer * GoroutineInfo) :=
  let numFrames := Z.of_nat (length (Frames goroutine)) in
  let idx := if decide (idx < 0)%Z then numFrames else idx in
  let markFrom := if decide (markFrom < 0)%Z then numFrames else markFrom in
  let idx := (idx - 1)%Z in
  printLoop tr goroutine idx markFrom.

(** [func (tr *Tracer) Trace(skip int, args ...interface{})].  [goroutine]
    points into [tr.goroutines]: what the code writes through it is stored
    back under the key it was found at. *)
Definition Trace (tr : ptr Tracer) (skip : Z) (args : list Value)
    (env : Env) : result (ptr Tracer) :=
  let '(ok, tr) := proceed tr in
  if negb ok then Ok tr else
  tr ← deref tr;
  '(proceed, changedGoroutine, goroutine, tr) ← setGoroutine tr env;
  if negb proceed then Ok (Some tr) else
  ClockFn ← deref (ClockFn tr);
  let now := ClockFn env in
  allFrameInfos ← getFrameInfos env (int (skip + 1)) (Capacity tr) now;
  goroutine ← deref goroutine;
  let goroutine := with_TopMessage goroutine (messageFrom args) in
  '(lastCommonFrameStoredIdx, lastCommonFrameNewIdx) ←
    findLastCommonFrameIndex (Frames goroutine) allFrameInfos;
  new ← slice_to allFrameInfos lastCommonFrameNewIdx;
  stored ← slice_from (Frames goroutine) lastCommonFrameStoredIdx;
  let goroutine := with_Frames goroutine (new ++ stored) in
  let printFrom := Z.of_nat lastCommonFrameNewIdx in
  '(tr, printFrom) ←
    (if changedGoroutine : bool then
       if OnGoroutineSwitchPrintStackHistory tr then
         tr ← printHistory tr goroutine; Ok (tr, printFrom)
       else if OnGoroutineSwitchPrintCurrentStack tr then Ok (tr, (-1)%Z)
       else Ok (tr, printFrom)
     else Ok (tr, printFrom));
  '(tr, goroutine) ←
    printFrameIndicesLowerThan tr goroutine printFrom
      (Z.of_nat lastCommonFrameNewIdx);
  mret (Some (with_goroutines tr
                (<[goroutineID tr := goroutine]> <$> goroutines tr))).
End Operations.

(** [var Global *Tracer] as [init] sets it; the logger has received no call. *)
Definition Global : Tracer :=
  {| On := false; Out := Some []; Capacity := 100; SourceLength := 40;
     LockGoroutine := false; OmitTime := false; ClockFn := None;
     OnGoroutineSwitchPrintCurrentStack := false;
     OnGoroutineSwitchPrintStackHistory := true;
     goroutines := None; goroutineID := 0; indents := []; marker := "";
     calloutPrevious := 0; calloutNew := 0 |}.

(** ** The functions of the package

    [func Trace(args ...interface{})] and [func On(on bool)] work on the
    package variable [Global], a [*Tracer]: they take it as an argument and
    return it as they leave it. *)

Definition with_On (tr : Tracer) (on : bool) : Tracer :=
  {| On := on; Out := Out tr; Capacity := Capacity tr;
     SourceLength := SourceLength tr; LockGoroutine := LockGoroutine tr;
     OmitTime := OmitTime tr; ClockFn := ClockFn tr;
     OnGoroutineSwitchPrintCurrentStack :=
       OnGoroutineSwitchPrintCurrentStack tr;
     OnGoroutineSwitchPrintStackHistory :=
       OnGoroutineSwitchPrintStackHistory tr;
     goroutines := goroutines tr; goroutineID := goroutineID tr;
     indents := indents tr; marker := marker tr;
     calloutPrevious := calloutPrevious tr; calloutNew := calloutNew tr |}.

Module trace.
(** [Global.Trace(1, args...)] *)
Definition Trace `{Library} (Global : ptr Tracer) (args : list Value)
    (env : Env) : result (ptr Tracer) :=
  Trace Global 1 args env.

(** [Global.On = on] *)
Definition On (Global : ptr Tracer) (on : bool) : result (ptr Tracer) :=
  tr ← deref Global;
  mret (Some (with_On tr on)).
End trace.

(** [s[:high]] on a string. *)
Definition string_to (s : string) (high : Z) : result string :=
  if decide (0 ≤ high ≤ Z.of_nat (String.length s))%Z
  then Ok (String.substring 0 (Z.to_nat high) s)
  else Panic "slice bounds out of range".

(** [func TruncateError(err error, max int) string].  An [error] is nil or a
    value whose method [Error] returns a message: the model holds the
    message. *)
Definition TruncateError (err : ptr string) (max : Z) : result string :=
  msg ← deref err;
  if decide (max < Z.of_nat (String.length msg))%Z
  then string_to msg max
  else Ok msg.

(** ** An instance of the library, to run the model

    A small formatter with the verbs and flags the package uses: [%v], [%s],
    [%d], [%c] and [%%], an optional [-] flag and a width.  It reports a
    missing operand, a verb that does not fit its operand and operands left
    over the way [fmt] does.  [strings.TrimSpace] trims the ASCII white space,
    and a time stamp is printed as its number followed by a space.  The
    instance only serves to evaluate the model on concrete calls. *)
Module Demo.
Definition type_name (v : Value) : string :=
  match v with
  | VNil => "<nil>"
  | VBool _ => "bool"
  | VInt _ => "int"
  | VUintptr _ => "uintptr"
  | VRune _ => "int32"
  | VString _ => "string"
  end.

Definition show (v : Value) : string :=
  match v with
  | VNil => "<nil>"
  | VBool b => if b then "true" else "false"
  | VInt n | VUintptr n | VRune n => pretty n
  | VString s => s
  end.

Definition bad_verb (c : ascii) (v : Value) : string :=
  ("%!" ++ String c "(" ++ type_name v ++ "=" ++ show v ++ ")")%string.

Definition verb (c : ascii) (v : Value) : string :=
  match c, v with
  | "v"%char, _ => show v
  | "s"%char, VString s => s
  | "d"%char, (VInt n | VUintptr n | VRune n) => pretty n
  | "c"%char, (VInt n | VRune n) => String (ascii_of_N (Z.to_N n)) ""
  | _, _ => bad_verb c v
  end.

Definition pad (minus : bool) (width : nat) (s : string) : string :=
  let fill := repeat_string " " (width - String.length s) in
  (if minus then s ++ fill else fill ++ s)%string.

Definition digit (c : ascii) : option nat :=
  let n := nat_of_ascii c in
  if decide (48 ≤ n ≤ 57) then Some (n - 48) else None.

Fixpoint extra_operands (args : list Value) : string :=
  match args with
  | [] => ""
  | [v] => (type_name v ++ "=" ++ show v)%string
  | v :: rest =>
      (type_name v ++ "=" ++ show v ++ ", " ++ extra_operands rest)%string
  end.

(** [spec] is [None] in plain text, and holds the flag and the width read so
    far after a [%]. *)
Fixpoint Sprintf_from (format : string) (spec : option (bool * nat))
    (args : list Value) : string :=
  match format, spec with
  | EmptyString, Some _ => "%!(NOVERB)"
  | EmptyString, None =>
      match args with
      | [] => ""
      | _ => ("%!(EXTRA " ++ extra_operands args ++ ")")%string
      end
  | String c rest, None =>
      if decide (c = "%"%char) then Sprintf_from rest (Some (false, 0)) args
      else String c (Sprintf_from rest None args)
  | String c rest, Some (minus, width) =>
      if decide (c = "-"%char) then Sprintf_from rest (Some (true, width)) args
      else if digit c is Some d
      then Sprintf_from rest (Some (minus, 10 * width + d)) args
      else if decide (c = "%"%char)
      then String c (Sprintf_from rest None args)
      else
        match args with
        | [] => ("%!" ++ String c "(MISSING)" ++ Sprintf_from rest None [])%string
        | v :: args =>
            (pad minus width (verb c v) ++ Sprintf_from rest None args)%string
        end
  end.

Definition is_space (c : ascii) : bool :=
  bool_decide (nat_of_ascii c ∈ [9; 10; 11; 12; 13; 32]).

Fixpoint trim_left (s : list ascii) : list ascii :=
  match s with
  | [] => []
  | c :: rest => if is_space c then trim_left rest else s
  end.

Definition TrimSpace (s : string) : string :=
  string_of_list_ascii
    (rev (trim_left (rev (trim_left (list_ascii_of_string s))))).

#[global] Instance library : Library :=
  {| fmt_Sprintf := λ format args, Sprintf_from format None args;
     strings_TrimSpace := TrimSpace;
     time_Format := λ t layout, (pretty t ++ " ")%string |}.

(** A goroutine whose stack is [stack], innermost call first, on a runtime
    that makes slices of up to [2 ^ 30] bytes. *)
Definition env (id : Z) (now : Time) (stack : list runtime.Frame) : Env :=
  {| GoroutineID := id; time_Now := now;
     runtime_Callers := λ skip n, take (Z.to_nat n) (drop (Z.to_nat (skip - 4)) stack);
     runtime_maxAlloc := 1073741824 |}.

Definition frame (function file : string) (line : Z) : runtime.Frame :=
  {| runtime.PC := line; runtime.Func := 0; runtime.Function := function;
     runtime.File := file; runtime.Line := line; runtime.Entry := 0 |}.

(** [Global] switched on, with 16 columns for the location and without
    time stamps; and the same tracer with [LockGoroutine] set. *)
Definition start : Tracer :=
  {| On := true; Out := Out Global; Capacity := Capacity Global;
     SourceLength := 16;
     LockGoroutine := LockGoroutine Global; OmitTime := true;
     ClockFn := ClockFn Global;
     OnGoroutineSwitchPrintCurrentStack :=
       OnGoroutineSwitchPrintCurrentStack Global;
     OnGoroutineSwitchPrintStackHistory :=
       OnGoroutineSwitchPrintStackHistory Global;
     goroutines := goroutines Global; goroutineID := goroutineID Global;
     indents := indents Global; marker := marker Global;
     calloutPrevious := calloutPrevious Global;
     calloutNew := calloutNew Global |}.

Definition locked : Tracer :=
  {| On := true; Out := Out Global; Capacity := Capacity Global;
     SourceLength := 16;
     LockGoroutine := true; OmitTime := true;
     ClockFn := ClockFn Global;
     OnGoroutineSwitchPrintCurrentStack :=
       OnGoroutineSwitchPrintCurrentStack Global;
     OnGoroutineSwitchPrintStackHistory :=
       OnGoroutineSwitchPrintStackHistory Global;
     goroutines := goroutines Global; goroutineID := goroutineID Global;
     indents := indents Global; marker := marker Global;
     calloutPrevious := calloutPrevious Global;
     calloutNew := calloutNew Global |}.

(** The stacks of a program whose [main] calls [c], which calls [a]; each
    function calls [Trace] with [skip = 0]. *)
Definition in_main : list runtime.Frame := [frame "main.main" "ex.go" 60].
Definition in_c : list runtime.Frame :=
  [frame "main.c" "ex.go" 50; frame "main.main" "ex.go" 61].
Definition in_a : list runtime.Frame :=
  [frame "main.a" "ex.go" 24; frame "main.c" "ex.go" 52;
   frame "main.main" "ex.go" 61].

(** A sequence of calls of [Trace], each with its arguments and its
    surroundings. *)
Fixpoint run (tr : ptr Tracer) (calls : list (list Value * Env))
    : result (ptr Tracer) :=
  match calls with
  | [] => Ok tr
  | (args, e) :: rest => tr ← Trace tr 0 args e; run tr rest
  end.

(** The tracer after goroutine 1 traced from [main] and from [c], and
    goroutine 2 from [main]. *)
Definition after_three_calls : Tracer :=
  match run (Some start)
          [([VString "Start"], env 1 100 in_main);
           ([VString "Carol before [%s]"; VString "one"], env 1 101 in_c);
           ([VString "Start"], env 2 102 in_main)] with
  | Ok (Some tr) => tr
  | _ => start
  end.
(** [tr] with another display width and other choices of what to print
    when the goroutine changes. *)
Definition configured (tr : Tracer) (width : Z) (current history : bool)
    : Tracer :=
  {| On := On tr; Out := Out tr; Capacity := Capacity tr;
     SourceLength := width;
     LockGoroutine := LockGoroutine tr; OmitTime := OmitTime tr;
     ClockFn := ClockFn tr;
     OnGoroutineSwitchPrintCurrentStack := current;
     OnGoroutineSwitchPrintStackHistory := history;
     goroutines := goroutines tr; goroutineID := goroutineID tr;
     indents := indents tr; marker := marker tr;
     calloutPrevious := calloutPrevious tr; calloutNew := calloutNew tr |}.
End Demo.

(** ** Predicates of the statements *)

(** [a.Same(b)] returns true: both frames are present and at the same
    location. *)
Definition same_location (a b : ptr FrameInfo) : Prop :=
  FrameInfo_Same a b = Ok true.

(** Every pointer of the stack designates a frame. *)
Definition frames_present (s : list (ptr FrameInfo)) : Prop :=
  Forall is_Some s.

(** The state the tracer holds for the goroutine [id], if any. *)
Definition tracked (tr : Tracer) (id : Z) : option GoroutineInfo :=
  goroutines tr ≫= (.!! id).

(** Every frame pointer the tracer has stored designates a frame. *)
Definition stored_frames_present (tr : Tracer) : Prop :=
  ∀ id goroutine, tracked tr id = Some goroutine →
    frames_present (Frames goroutine).

(** Every tracked state carries the identity it is tracked under. *)
Definition ids_consistent (tr : Tracer) : Prop :=
  ∀ id goroutine, tracked tr id = Some goroutine → ID goroutine = id.

(** The cache of indentations holds, at every level it covers, two spaces
    per level. *)
Definition indents_cached (indents : list string) : Prop :=
  ∀ level s, indents !! level = Some s → s = repeat_string "  " level.

(** The settings of a tracer that its user chooses, the clock apart. *)
Definition settings (tr : Tracer) : bool * Z * Z * bool * bool * bool * bool :=
  (On tr, Capacity tr, SourceLength tr, LockGoroutine tr, OmitTime tr,
   OnGoroutineSwitchPrintCurrentStack tr,
   OnGoroutineSwitchPrintStackHistory tr).

(** The callouts of the frames [idx], [idx - 1], ..., 0 in the order the
    printing loop visits them: new below [markFrom], known from there on. *)
Definition callouts (tr : Tracer) (markFrom : Z) (count : nat) : list Z :=
  (λ idx : nat, if decide (Z.of_nat idx < markFrom)%Z then calloutNew tr
                else calloutPrevious tr) <$> reverse (seq 0 count).

(** The placeholders [%v] joined by single spaces. *)
Definition space_joined (k : nat) : string :=
  String.concat " " (replicate k "%v"%string).

(** * Properties *)

(** ** The cases of trace_test.go *)

Example test_equal_stacks :
  findLastCommonFrameIndex (fromStrings ["Carol"; "Bob"; "Alice"])
                           (fromStrings ["Carol"; "Bob"; "Alice"]) = Ok (1, 1).
Proof. reflexivity. Qed.

Example test_equal_after_top_2 :
  findLastCommonFrameIndex (fromStrings ["Eric"; "Carol"; "Bob"; "Alice"])
                           (fromStrings ["Felicia"; "Dan"; "Bob"; "Alice"])
  = Ok (2, 2).
Proof. reflexivity. Qed.

Example test_first_subset_of_second :
  findLastCommonFrameIndex (fromStrings ["Bob"; "Alice"])
                           (fromStrings ["Felicia"; "Dan"; "Bob"; "Alice"])
  = Ok (0, 2).
Proof. reflexivity. Qed.

Example test_second_subset_of_first_repeats :
  findLastCommonFrameIndex
    (fromStrings ["Bob"; "Alice"; "Eric"; "Carol"; "Bob"; "Alice"])
    (fromStrings ["Bob"; "Alice"]) = Ok (4, 0).
Proof. reflexivity. Qed.

Example test_second_empty :
  findLastCommonFrameIndex (fromStrings ["Eric"; "Carol"; "Bob"; "Alice"]) []
  = Ok (4, 0).
Proof. reflexivity. Qed.

Example test_first_empty :
  findLastCommonFrameIndex [] (fromStrings ["Eric"; "Carol"; "Bob"; "Alice"])
  = Ok (0, 4).
Proof. reflexivity. Qed.

(** ** Outcomes *)

Lemma bind_Ok {A B} (m : result A) (f : A → result B) (b : B) :
  m ≫= f = Ok b ↔ ∃ a, m = Ok a ∧ f a = Ok b.
Proof.
  destruct m as [a|why]; simpl; split.
  - intros Hf. exists a. split; [reflexivity | exact Hf].
  - intros (a' & Ha & Hf). congruence.
  - discriminate.
  - intros (a' & Ha & _). discriminate.
Qed.

Lemma index_Ok {A} (s : list A) (i : nat) (x : A) :
  index s i = Ok x ↔ s !! i = Some x.
Proof.
  unfold index. destruct (s !! i); split; intros Hx; congruence.
Qed.

Lemma index_lt {A} (s : list A) (i : nat) :
  i < length s → ∃ x, index s i = Ok x ∧ s !! i = Some x.
Proof.
  intros Hi. destruct (lookup_lt_is_Some_2 s i Hi) as [x Hx].
  exists x. split; [by apply index_Ok | done].
Qed.

(** ** FrameInfo *)

Lemma FrameInfo_Same_defined (a b : ptr FrameInfo) :
  is_Some a → is_Some b → ∃ r, FrameInfo_Same a b = Ok r.
Proof. intros [x ->] [y ->]. simpl. eauto. Qed.

Lemma same_location_present (a b : ptr FrameInfo) :
  same_location a b → is_Some a ∧ is_Some b.
Proof.
  unfold same_location. destruct a, b; simpl; try discriminate. eauto.
Qed.

(** ** The loops of findLastCommonFrameIndex *)

Lemma matchingLoop_step first second firstIdx secondIdx increment :
  matchingLoop first second firstIdx secondIdx increment =
  if decide (firstIdx + increment < length first) then
    match a ← index first (firstIdx + increment);
          b ← index second (secondIdx + increment);
          FrameInfo_Same a b with
    | Ok true => matchingLoop first second firstIdx secondIdx (S increment)
    | Ok false => Ok (false, increment)
    | Panic why => Panic why
    end
  else Ok (true, increment).
Proof.
  rewrite matchingLoop_equation_1.
  destruct (decide _) as [Hlt|Hge]; simpl; [|reflexivity].
  destruct (_ ≫= _) as [[]|]; reflexivity.
Qed.

Lemma scanLoop_step first second firstIdx secondIdx :
  scanLoop first second firstIdx secondIdx =
  if decide (firstIdx < length first) then
    match matchingLoop first second firstIdx secondIdx 0 with
    | Ok (true, _) => Ok (firstIdx, secondIdx)
    | Ok (false, increment) =>
        scanLoop first second
          (firstIdx + (increment + 1)) (secondIdx + (increment + 1))
    | Panic why => Panic why
    end
  else Ok (firstIdx, secondIdx).
Proof.
  rewrite scanLoop_equation_1.
  destruct (decide _) as [Hlt|Hge]; simpl; [|reflexivity].
  destruct (matchingLoop _ _ _ _ _) as [[[] ?]|]; reflexivity.
Qed.

(** The inner loop, entered within the stacks: it either runs to the end of
    [first], and then the two suffixes are at the same locations from
    [increment] on, or it stops at the first difference. *)
Lemma matchingLoop_post first second firstIdx secondIdx :
  frames_present first → frames_present second →
  firstIdx + length second = secondIdx + length first →
  ∀ n increment, n = length first - (firstIdx + increment) →
    firstIdx + increment ≤ length first →
    (∃ last, matchingLoop first second firstIdx secondIdx increment
               = Ok (true, last)
             ∧ Forall2 same_location (drop (firstIdx + increment) first)
                                     (drop (secondIdx + increment) second))
    ∨ (∃ stop, matchingLoop first second firstIdx secondIdx increment
                 = Ok (false, stop)
               ∧ increment ≤ stop ∧ firstIdx + stop < length first).
Proof.
  intros Hfirst Hsecond Hlen n.
  induction n as [|n IH]; intros increment Hn Hle;
    rewrite matchingLoop_step; destruct (decide _) as [Hlt|Hge]; try lia.
  - left. exists increment. split; [reflexivity|].
    rewrite !drop_ge by lia. constructor.
  - destruct (index_lt first (firstIdx + increment)) as (a & -> & Ha); [lia|].
    destruct (index_lt second (secondIdx + increment)) as (b & -> & Hb); [lia|].
    simpl.
    assert (is_Some a) as Hsa
      by (eapply Forall_lookup_1; [exact Hfirst | exact Ha]).
    assert (is_Some b) as Hsb
      by (eapply Forall_lookup_1; [exact Hsecond | exact Hb]).
    destruct (FrameInfo_Same_defined a b Hsa Hsb) as [[] Hsame]; rewrite Hsame.
    + assert (n = length first - (firstIdx + S increment)) as Hn' by lia.
      assert (firstIdx + S increment ≤ length first) as Hle' by lia.
      destruct (IH (S increment) Hn' Hle')
        as [(last & Hrun & Hall)|(stop & Hrun & ? & ?)].
      * left. exists last. split; [exact Hrun|].
        rewrite (drop_S first a (firstIdx + increment)) by exact Ha.
        rewrite (drop_S second b (secondIdx + increment)) by exact Hb.
        constructor; [exact Hsame|].
        replace (S (firstIdx + increment)) with (firstIdx + S increment) by lia.
        replace (S (secondIdx + increment)) with (secondIdx + S increment)
          by lia.
        exact Hall.
      * right. exists stop. split; [exact Hrun | lia].
    + right. exists increment. split; [reflexivity | lia].
Qed.

(** The outer loop, entered at tail-aligned indices: it returns tail-aligned
    indices, not below the ones it was entered at, from which the two stacks
    are at the same locations. *)
Lemma scanLoop_post first second :
  frames_present first → frames_present second →
  ∀ n firstIdx secondIdx, n = length first - firstIdx →
    firstIdx + length second = secondIdx + length first →
    firstIdx ≤ length first →
    ∃ oi ni, scanLoop first second firstIdx secondIdx = Ok (oi, ni)
             ∧ firstIdx ≤ oi ≤ length first
             ∧ oi + secondIdx = ni + firstIdx
             ∧ Forall2 same_location (drop oi first) (drop ni second).
Proof.
  intros Hfirst Hsecond n.
  induction n as [n IH] using lt_wf_ind.
  intros firstIdx secondIdx Hn Hlen Hle.
  rewrite scanLoop_step. destruct (decide _) as [Hlt|Hge].
  - assert (firstIdx + 0 ≤ length first) as Hle0 by lia.
    destruct (matchingLoop_post first second firstIdx secondIdx Hfirst Hsecond
                Hlen _ 0 eq_refl Hle0)
      as [(last & -> & Hall)|(stop & -> & _ & Hstop)].
    + exists firstIdx, secondIdx. rewrite !Nat.add_0_r in Hall.
      split_and!; [reflexivity | lia | lia | lia | exact Hall].
    + assert (length first - (firstIdx + (stop + 1)) < n) as Hless by lia.
      assert (firstIdx + (stop + 1) + length second
              = secondIdx + (stop + 1) + length first) as Hlen' by lia.
      assert (firstIdx + (stop + 1) ≤ length first) as Hle' by lia.
      destruct (IH _ Hless _ _ eq_refl Hlen' Hle')
        as (oi & ni & Hrun & Hrange & Halign & Hall).
      exists oi, ni. split_and!; [exact Hrun | lia | lia | lia | exact Hall].
  - exists firstIdx, secondIdx. split_and!; [reflexivity | lia | lia | lia |].
    rewrite !drop_ge by lia. constructor.
Qed.

(** What [findLastCommonFrameIndex] returns for two stacks of present frames
    that are not both empty: indices within the stacks, tail-aligned, from
    which the stacks are at the same locations, and not both zero. *)
Lemma findLastCommonFrameIndex_post first second :
  frames_present first → frames_present second →
  first ≠ [] ∨ second ≠ [] →
  ∃ oi ni, findLastCommonFrameIndex first second = Ok (oi, ni)
           ∧ oi ≤ length first ∧ ni ≤ length second
           ∧ oi + length second = ni + length first
           ∧ Forall2 same_location (drop oi first) (drop ni second)
           ∧ (oi, ni) ≠ (0, 0).
Proof.
  intros Hfirst Hsecond Hne. unfold findLastCommonFrameIndex.
  assert (0 < length first ∨ 0 < length second) as Hpos.
  { destruct Hne as [Hne|Hne]; [left|right];
      (destruct first, second; simpl; try lia; congruence). }
  assert (∀ firstIdx secondIdx,
            firstIdx + length second = secondIdx + length first →
            firstIdx ≤ length first → (firstIdx, secondIdx) ≠ (0, 0) →
            ∃ oi ni, scanLoop first second firstIdx secondIdx = Ok (oi, ni)
              ∧ oi ≤ length first ∧ ni ≤ length second
              ∧ oi + length second = ni + length first
              ∧ Forall2 same_location (drop oi first) (drop ni second)
              ∧ (oi, ni) ≠ (0, 0)) as Hscan.
  { intros firstIdx secondIdx Hlen Hle Hnz.
    destruct (scanLoop_post first second Hfirst Hsecond _ _ _ eq_refl Hlen Hle)
      as (oi & ni & -> & Hrange & Halign & Hall).
    exists oi, ni. split_and!; [reflexivity | lia | lia | lia | exact Hall |].
    intros [= -> ->]. apply Hnz. f_equal; lia. }
  destruct (decide (length second < length first)) as [Hlt|Hge].
  - destruct (decide _) as [[Hz _]|_]; [lia|].
    apply Hscan; [lia | lia |]. intros Heq. inversion Heq. lia.
  - destruct (decide _) as [[_ Hz]|Hnz].
    + apply Hscan; [lia | lia |]. intros Heq. inversion Heq.
    + apply Hscan; [lia | lia |]. intros Heq. inversion Heq.
      apply Hnz. split; lia.
Qed.

(** When the two suffixes are at the same locations from [increment] on, the
    inner loop runs to the end of [first] and leaves [matching] true. *)
Lemma matchingLoop_same first second firstIdx secondIdx :
  ∀ n increment, n = length first - (firstIdx + increment) →
    Forall2 same_location (drop (firstIdx + increment) first)
                          (drop (secondIdx + increment) second) →
    ∃ last, matchingLoop first second firstIdx secondIdx increment
            = Ok (true, last).
Proof.
  intros n. induction n as [|n IH]; intros increment Hn Hall;
    rewrite matchingLoop_step; destruct (decide _) as [Hlt|Hge];
    try lia; try (eexists; reflexivity).
  destruct (index_lt first (firstIdx + increment) Hlt) as (a & Hia & Ha).
  rewrite (drop_S first a _ Ha) in Hall.
  inversion Hall as [|a' b tl tl' Hab Htl Heq1 Heq2]; subst a' tl.
  assert (second !! (secondIdx + increment) = Some b) as Hb.
  { rewrite <- (Nat.add_0_r (secondIdx + increment)).
    rewrite <- lookup_drop, <- Heq2. reflexivity. }
  rewrite (drop_S second b _ Hb) in Heq2. injection Heq2 as ->.
  rewrite Hia. apply index_Ok in Hb. rewrite Hb. simpl.
  unfold same_location in Hab. rewrite Hab.
  apply IH; [lia|].
  replace (firstIdx + S increment) with (S (firstIdx + increment)) by lia.
  replace (secondIdx + S increment) with (S (secondIdx + increment)) by lia.
  exact Htl.
Qed.

(** C1. For every pair of non-empty stacks of frames [older] and [newer],
    innermost frame at index 0, [findLastCommonFrameIndex] returns indices
    [(oi, ni)] within the stacks such that the suffixes [older[oi:]] and
    [newer[ni:]] have equal length and are at the same location ([Same]) at
    every position, and [(oi, ni)] is not [(0, 0)]. *)
Theorem findLastCommonFrameIndex_nonempty (older newer : list (ptr FrameInfo)) :
  older ≠ [] → newer ≠ [] →
  frames_present older → frames_present newer →
  ∃ oi ni, findLastCommonFrameIndex older newer = Ok (oi, ni)
           ∧ oi ≤ length older ∧ ni ≤ length newer
           ∧ length (drop oi older) = length (drop ni newer)
           ∧ Forall2 same_location (drop oi older) (drop ni newer)
           ∧ (oi, ni) ≠ (0, 0).
Proof.
  intros Ho _ Hpo Hpn.
  destruct (findLastCommonFrameIndex_post older newer Hpo Hpn (or_introl Ho))
    as (oi & ni & Hrun & Hoi & Hni & Halign & Hall & Hnz).
  exists oi, ni. split_and!; try done.
  rewrite !length_drop. lia.
Qed.

Lemma findLastCommonFrameIndex_nonempty_witness :
  let older := fromStrings ["Eric"; "Carol"; "Bob"; "Alice"] in
  let newer := fromStrings ["Felicia"; "Dan"; "Bob"; "Alice"] in
  findLastCommonFrameIndex older newer = Ok (2, 2)
  ∧ ∃ oi ni, findLastCommonFrameIndex older newer = Ok (oi, ni)
             ∧ oi ≤ length older ∧ ni ≤ length newer
             ∧ length (drop oi older) = length (drop ni newer)
             ∧ Forall2 same_location (drop oi older) (drop ni newer)
             ∧ (oi, ni) ≠ (0, 0).
Proof.
  split; [reflexivity|].
  apply (findLastCommonFrameIndex_nonempty
           (fromStrings ["Eric"; "Carol"; "Bob"; "Alice"])
           (fromStrings ["Felicia"; "Dan"; "Bob"; "Alice"]));
    [discriminate | discriminate | |];
    unfold frames_present; simpl; repeat constructor; eauto.
Defined.

(** C2, as the code has it.  For every pair of stacks of which exactly one is
    empty, [findLastCommonFrameIndex] returns 0 as the index of the empty
    stack and the full length of the other stack as its index. *)
Theorem findLastCommonFrameIndex_one_empty (s : list (ptr FrameInfo)) :
  s ≠ [] →
  findLastCommonFrameIndex [] s = Ok (0, length s)
  ∧ findLastCommonFrameIndex s [] = Ok (length s, 0).
Proof.
  intros Hs. assert (0 < length s) as Hpos by (destruct s; simpl; [done|lia]).
  unfold findLastCommonFrameIndex. simpl. split.
  - destruct (decide (length s < 0)) as [?|_]; [lia|].
    destruct (decide (0 = 0 ∧ length s - 0 = 0)) as [[_ ?]|_]; [lia|].
    rewrite scanLoop_step. simpl.
    destruct (decide (0 < 0)) as [?|_]; [lia|]. do 2 f_equal. lia.
  - destruct (decide (0 < length s)) as [_|?]; [|lia].
    destruct (decide (length s - 0 = 0 ∧ 0 = 0)) as [[? _]|_]; [lia|].
    rewrite scanLoop_step.
    destruct (decide (length s - 0 < length s)) as [?|_]; [lia|].
    do 2 f_equal. lia.
Qed.

Lemma findLastCommonFrameIndex_one_empty_witness :
  let s := fromStrings ["Eric"; "Carol"; "Bob"; "Alice"] in
  findLastCommonFrameIndex [] s = Ok (0, 4)
  ∧ findLastCommonFrameIndex s [] = Ok (4, 0).
Proof.
  apply (findLastCommonFrameIndex_one_empty
           (fromStrings ["Eric"; "Carol"; "Bob"; "Alice"])).
  discriminate.
Defined.

(** C2 fails when both stacks are empty: the indices are then [(1, 1)], past
    the end of either stack, and not [(0, 0)]. *)
Lemma findLastCommonFrameIndex_both_empty :
  findLastCommonFrameIndex [] [] = Ok (1, 1)
  ∧ findLastCommonFrameIndex [] [] ≠ Ok (0, 0).
Proof. split; [reflexivity | discriminate]. Qed.

(** C3. For every pair of stacks of equal length at least 1 that are at the
    same location ([Same]) at every position, [findLastCommonFrameIndex]
    returns exactly [(1, 1)]. *)
Theorem findLastCommonFrameIndex_equal_stacks
    (older newer : list (ptr FrameInfo)) :
  1 ≤ length older →
  Forall2 same_location older newer →
  findLastCommonFrameIndex older newer = Ok (1, 1).
Proof.
  intros Hpos Hall. pose proof (Forall2_length _ _ _ Hall) as Hlen.
  unfold findLastCommonFrameIndex.
  destruct (decide (length newer < length older)) as [?|_]; [lia|].
  replace (length newer - length older) with 0 by lia.
  destruct (decide _) as [_|Hnz]; [|exfalso; apply Hnz; split; lia].
  simpl. rewrite scanLoop_step. destruct (decide _) as [Hlt|_]; [|reflexivity].
  destruct (matchingLoop_same older newer 1 1 _ 0 eq_refl) as [last ->];
    [|reflexivity].
  simpl. destruct Hall as [|a b older newer _ Hall]; [constructor|].
  simpl. rewrite !drop_0. exact Hall.
Qed.

Lemma findLastCommonFrameIndex_equal_stacks_witness :
  findLastCommonFrameIndex (fromStrings ["Carol"; "Bob"; "Alice"])
                           (fromStrings ["Carol"; "Bob"; "Alice"])
  = Ok (1, 1).
Proof.
  apply findLastCommonFrameIndex_equal_stacks; [simpl; lia|].
  simpl. repeat constructor.
Defined.

(** C10. [Equal] and [Same] dereference both frames: with a nil receiver or a
    nil argument either of them panics, and with both frames present they
    return the comparison.  [Copy] is safe on nil: it maps nil to nil, and a
    frame to a frame with the same fields. *)
Theorem FrameInfo_Equal_Same_need_both_frames (fr other : ptr FrameInfo) :
  ((fr = None ∨ other = None) ↔ ∃ why, FrameInfo_Equal fr other = Panic why)
  ∧ ((fr = None ∨ other = None) ↔ ∃ why, FrameInfo_Same fr other = Panic why)
  ∧ (∀ a b, FrameInfo_Equal (Some a) (Some b) = Ok (bool_decide (a = b)))
  ∧ (∀ a b, FrameInfo_Same (Some a) (Some b)
            = Ok (bool_decide (Frame a = Frame b)))
  ∧ FrameInfo_Copy None = None
  ∧ (∀ a, FrameInfo_Copy (Some a) = Some a).
Proof.
  split_and!.
  - destruct fr, other; simpl; split;
      try (intros [?|?]; discriminate); try (intros [? ?]; discriminate);
      eauto.
  - destruct fr, other; simpl; split;
      try (intros [?|?]; discriminate); try (intros [? ?]; discriminate);
      eauto.
  - reflexivity.
  - reflexivity.
  - reflexivity.
  - intros [? ?]. reflexivity.
Qed.

(** ** Capturing the stack *)

(** The loop of [getFrameInfos] appends at least one frame, and only present
    frames stamped [now]. *)
Lemma getFrameInfos_loop_post frames now :
  ∀ allFrameInfos,
    ∃ captured, getFrameInfos_loop frames now allFrameInfos
                = allFrameInfos ++ captured
                ∧ captured ≠ []
                ∧ Forall (λ fr, ∃ frame, fr = from frame now) captured.
Proof.
  induction frames as [|frame [|next frames] IH]; intros allFrameInfos.
  - exists [from runtime.zero now]. split_and!; [done | done |].
    repeat constructor. eauto.
  - exists [from frame now]. split_and!; [done | done |].
    repeat constructor. eauto.
  - destruct (IH (allFrameInfos ++ [from frame now]))
      as (captured & Hrun & _ & Hall).
    exists (from frame now :: captured). split_and!.
    + change (getFrameInfos_loop (frame :: next :: frames) now allFrameInfos)
        with (getFrameInfos_loop (next :: frames) now
                (allFrameInfos ++ [from frame now])).
      rewrite Hrun, <- app_assoc. reflexivity.
    + discriminate.
    + constructor; eauto.
Qed.

(** [make] returns exactly for a length that is not negative and a size
    within [maxAlloc]. *)
Lemma makeslice_Ok env size n why :
  (0 ≤ n)%Z → (size * n ≤ maxAlloc env)%Z →
  makeslice env size n why = Ok ().
Proof.
  intros Hn Hfits. unfold makeslice.
  destruct (decide _) as [[?|?]|_]; [lia | lia | reflexivity].
Qed.

Lemma makeslice_inv env size n why u :
  makeslice env size n why = Ok u →
  (0 ≤ n)%Z ∧ (size * n ≤ maxAlloc env)%Z.
Proof.
  unfold makeslice. destruct (decide _) as [?|Hnot]; [discriminate|].
  intros _. lia.
Qed.

Lemma makeslice_Panic env size n why :
  (n < 0)%Z ∨ (maxAlloc env < size * n)%Z →
  makeslice env size n why = Panic why.
Proof.
  intros Hout. unfold makeslice. destruct (decide _) as [_|?]; done.
Qed.

Lemma strings_Repeat_Ok env s count :
  (0 ≤ count)%Z →
  (Z.of_nat (String.length s) * count ≤ maxAlloc env)%Z →
  strings_Repeat env s count = Ok (repeat_string s (Z.to_nat count)).
Proof.
  intros Hcount Hfits. unfold strings_Repeat.
  destruct (decide _) as [?|_]; [lia|].
  rewrite makeslice_Ok by lia. reflexivity.
Qed.

Lemma getFrameInfos_post env skip capacity now :
  (0 < capacity)%Z → (8 * capacity ≤ maxAlloc env)%Z →
  ∃ captured, getFrameInfos env skip capacity now = Ok captured
              ∧ captured ≠ []
              ∧ Forall (λ fr, ∃ frame, fr = from frame now) captured.
Proof.
  intros Hcap Hfits. unfold getFrameInfos, runtimeFrames.
  rewrite !makeslice_Ok by lia. simpl.
  destruct (getFrameInfos_loop_post
              (runtime_Callers env (int (2 + int (skip + 1))) capacity) now [])
    as (captured & -> & Hne & Hall).
  exists captured. split_and!; done.
Qed.

Lemma from_present (s : list (ptr FrameInfo)) now :
  Forall (λ fr, ∃ frame, fr = from frame now) s → frames_present s.
Proof.
  unfold frames_present. intros Hall. eapply Forall_impl; [exact Hall|].
  intros fr [frame ->]. unfold from. eauto.
Qed.

(** ** The indentation cache *)

Lemma indentation_loop_step indents level :
  indentation_loop indents level =
  if decide (Z.of_nat (length indents) ≤ level)%Z
  then indentation_loop (indents ++ [repeat_string "  " (length indents)]) level
  else indents.
Proof.
  rewrite indentation_loop_equation_1.
  destruct (decide _); reflexivity.
Qed.

Lemma indentation_loop_length level :
  ∀ n indents, n = Z.to_nat (level + 1 - Z.of_nat (length indents)) →
    (level < Z.of_nat (length (indentation_loop indents level)))%Z.
Proof.
  intros n. induction n as [|n IH]; intros indents Hn;
    rewrite indentation_loop_step; destruct (decide _) as [Hle|Hgt]; try lia.
  apply IH. rewrite length_app. simpl. lia.
Qed.

Lemma indentation_Ok tr level :
  (0 ≤ level)%Z →
  ∃ s, indentation tr level
       = Ok (s, with_indents tr (indentation_loop (indents tr) level)).
Proof.
  intros Hlevel. unfold indentation, index_Z. simpl.
  destruct (decide (level < 0)%Z) as [?|_]; [lia|].
  pose proof (indentation_loop_length level _ (indents tr) eq_refl) as Hlen.
  destruct (index_lt (indentation_loop (indents tr) level) (Z.to_nat level))
    as (s & -> & _); [lia|].
  exists s. reflexivity.
Qed.

(** ** Printing *)

Lemma printHistory_loop_post history :
  ∀ calls, printHistory_loop (Some calls) history
           = Ok (Some (calls ++ ((λ line, Println [VString line]) <$> history))).
Proof.
  induction history as [|line history IH]; intros calls; simpl.
  - rewrite app_nil_r. reflexivity.
  - rewrite IH, <- app_assoc. reflexivity.
Qed.

Section Properties.
Context `{Library}.

(** One round of the printing loop, on a present frame within the stack and
    with a logger: a line goes to the logger and to the history, and only
    the logger and the indentation cache of the tracer change. *)
Lemma printFrame_post tr goroutine idx markFrom calls :
  (0 ≤ idx < Z.of_nat (length (Frames goroutine)))%Z →
  frames_present (Frames goroutine) →
  Out tr = Some calls →
  ∃ indents line,
    printFrame tr goroutine idx markFrom
    = Ok (with_Out (with_indents tr indents)
            (Some (calls ++
               [Printf line
                  [VRune (if decide (idx < markFrom)%Z then calloutNew tr
                          else calloutPrevious tr)]])),
          with_History goroutine
            (History goroutine
               ++ [fmt_Sprintf line [VRune (calloutPrevious tr)]])).
Proof.
  intros Hidx Hpresent Hout. unfold printFrame, index_Z.
  destruct (decide (idx < 0)%Z) as [?|_]; [lia|].
  destruct (index_lt (Frames goroutine) (Z.to_nat idx))
    as (fr & -> & Hfr); [lia|].
  destruct (Forall_lookup_1 _ _ _ _ Hpresent Hfr) as [frame ->]. simpl.
  destruct (indentation_Ok tr
              (Z.of_nat (length (Frames goroutine)) - idx - 1)) as [s ->];
    [lia|].
  simpl. rewrite Hout. simpl. eexists _, _. reflexivity.
Qed.

Lemma printLoop_step tr goroutine idx markFrom :
  printLoop tr goroutine idx markFrom =
  if decide (0 ≤ idx)%Z then
    match printFrame tr goroutine idx markFrom with
    | Ok (tr', goroutine') => printLoop tr' goroutine' (idx - 1) markFrom
    | Panic why => Panic why
    end
  else Ok (tr, goroutine).
Proof.
  rewrite printLoop_equation_1.
  destruct (decide _) as [Hle|Hgt]; simpl; [|reflexivity].
  destruct (printFrame _ _ _ _) as [[tr' goroutine']|]; reflexivity.
Qed.

(** The printing loop from [idx] down to 0: one line per frame, each sent
    to the logger with its callout and appended to the history with the
    callout of known frames; the frames of the goroutine are not changed. *)
Lemma printLoop_post markFrom :
  ∀ n tr goroutine idx calls,
    n = Z.to_nat (idx + 1) →
    (idx < Z.of_nat (length (Frames goroutine)))%Z →
    frames_present (Frames goroutine) →
    Out tr = Some calls →
    ∃ indents (lines : list (string * Z)),
      printLoop tr goroutine idx markFrom
      = Ok (with_Out (with_indents tr indents)
              (Some (calls ++ ((λ p, Printf p.1 [VRune p.2]) <$> lines))),
            with_History goroutine
              (History goroutine
                 ++ ((λ p, fmt_Sprintf p.1 [VRune (calloutPrevious tr)])
                       <$> lines)))
      ∧ length lines = n
      ∧ ((idx < markFrom)%Z → Forall (λ p, p.2 = calloutNew tr) lines).
Proof.
  intros n. induction n as [|n IH]; intros tr goroutine idx calls Hn Hidx
    Hpresent Hout; rewrite printLoop_step;
    destruct (decide _) as [Hle|Hgt]; try lia.
  - exists (indents tr), []. simpl. rewrite !app_nil_r.
    split_and!; [|reflexivity|constructor].
    destruct tr, goroutine. simpl in *. rewrite Hout. reflexivity.
  - destruct (printFrame_post tr goroutine idx markFrom calls)
      as (indents1 & line & ->); [lia | exact Hpresent | exact Hout |].
    assert (n = Z.to_nat (idx - 1 + 1)) as Hn' by lia.
    assert (idx - 1 < Z.of_nat (length (Frames goroutine)))%Z as Hidx'
      by lia.
    match goal with
    | |- context [printLoop ?tr' ?goroutine' (idx - 1)%Z markFrom] =>
        destruct (IH tr' goroutine' (idx - 1)%Z _ Hn' Hidx' Hpresent eq_refl)
          as (indents2 & lines & -> & Hlen & Hnew)
    end.
    exists indents2,
      ((line, if decide (idx < markFrom)%Z then calloutNew tr
              else calloutPrevious tr) :: lines).
    split_and!.
    + simpl. rewrite <- !app_assoc. reflexivity.
    + simpl. lia.
    + intros Hlt. constructor.
      * simpl. destruct (decide _) as [_|?]; [reflexivity | lia].
      * apply Hnew. lia.
Qed.

(** [printFrameIndicesLowerThan] on a goroutine whose frames are present,
    for an [idx] within the stack (or negative, for the whole stack). *)
Lemma printFrameIndicesLowerThan_post tr goroutine idx markFrom calls :
  (idx ≤ Z.of_nat (length (Frames goroutine)))%Z →
  frames_present (Frames goroutine) →
  Out tr = Some calls →
  ∃ indents (lines : list (string * Z)),
    printFrameIndicesLowerThan tr goroutine idx markFrom
    = Ok (with_Out (with_indents tr indents)
            (Some (calls ++ ((λ p, Printf p.1 [VRune p.2]) <$> lines))),
          with_History goroutine
            (History goroutine
               ++ ((λ p, fmt_Sprintf p.1 [VRune (calloutPrevious tr)])
                     <$> lines)))
    ∧ length lines = (if decide (idx < 0)%Z then length (Frames goroutine)
                      else Z.to_nat idx)
    ∧ ((0 ≤ idx ≤ markFrom)%Z → Forall (λ p, p.2 = calloutNew tr) lines).
Proof.
  intros Hidx Hpresent Hout. unfold printFrameIndicesLowerThan.
  set (numFrames := Z.of_nat (length (Frames goroutine))) in *.
  set (idx' := ((if decide (idx < 0)%Z then numFrames else idx) - 1)%Z).
  set (markFrom' := if decide (markFrom < 0)%Z then numFrames else markFrom).
  assert (idx' < numFrames)%Z as Hidx'
    by (unfold idx'; destruct (decide (idx < 0)%Z); lia).
  destruct (printLoop_post markFrom' _ tr goroutine idx' calls eq_refl
              Hidx' Hpresent Hout) as (indents & lines & Hrun & Hlen & Hnew).
  exists indents, lines. split_and!; [exact Hrun | |].
  - rewrite Hlen. unfold idx', numFrames.
    destruct (decide (idx < 0)%Z); lia.
  - intros [Hlo Hhi]. apply Hnew. unfold idx', markFrom'.
    destruct (decide (idx < 0)%Z); [lia|].
    destruct (decide (markFrom < 0)%Z); lia.
Qed.

(** ** The guards and the resolution of the goroutine *)

Lemma proceed_Some tr ok tr' :
  proceed (Some tr) = (ok, tr') → is_Some tr'.
Proof.
  unfold proceed. destruct (_ || _); intros [= <- <-]; eauto.
Qed.

Lemma proceed_false tr tr' :
  proceed (Some tr) = (false, tr') → tr' = Some tr.
Proof.
  unfold proceed. destruct (_ || _); intros [= <-]; reflexivity.
Qed.

(** Past the guards the tracer is on, has a logger, a positive capacity, a
    map and a clock; the guards change nothing else but the callouts. *)
Lemma proceed_true tr tr1 :
  proceed (Some tr) = (true, Some tr1) →
  ∃ previous new clock calls,
    tr1 = with_ClockFn
            (with_callouts
               (with_goroutines tr (Some (default ∅ (goroutines tr))))
               previous new)
            (Some clock)
    ∧ Out tr = Some calls ∧ (0 < Capacity tr)%Z ∧ On tr = true.
Proof.
  unfold proceed.
  destruct (On tr) eqn:HOn; simpl; [|discriminate].
  destruct (Out tr) as [calls|] eqn:HOut; simpl; [|discriminate].
  destruct (bool_decide (Capacity tr ≤ 0)%Z) eqn:HCap; simpl; [discriminate|].
  apply bool_decide_eq_false in HCap.
  intros [= Htr1].
  exists (calloutPrevious tr1), (calloutNew tr1),
    (default time_Now (ClockFn tr)), calls.
  subst tr1.
  destruct tr as [on out cap sl lock omit [clock|] cur hist [m|] id ind mk
                  prev new]; simpl in *; subst;
    (split_and!; [reflexivity | reflexivity | lia | done]).
Qed.

Lemma setGoroutine_lookup_post tr goroutineID' changed r :
  setGoroutine_lookup tr goroutineID' changed = Ok r →
  ∃ m m2 goroutine,
    goroutines tr = Some m
    ∧ r = (true, changed, Some goroutine,
           with_goroutines (with_goroutineID tr goroutineID') (Some m2))
    ∧ m2 !! goroutineID' = Some goroutine
    ∧ (m !! goroutineID' = Some goroutine ∧ m2 = m
       ∨ m !! goroutineID' = None
         ∧ m2 = <[goroutineID' := goroutine]> m
         ∧ goroutine = {| ID := goroutineID'; Frames := [];
                          TopMessage := ""; History := [] |}).
Proof.
  unfold setGoroutine_lookup. simpl.
  destruct (goroutines tr) as [m|] eqn:Hm; simpl; [|discriminate].
  destruct (m !! goroutineID') as [goroutine|] eqn:Hlookup; intros [= <-].
  - exists m, m, goroutine. split_and!; [reflexivity | | exact Hlookup | by left].
    destruct tr. simpl in *. subst. reflexivity.
  - eexists m, _, _. split_and!; [reflexivity | reflexivity | |].
    + apply lookup_insert_eq.
    + right. split_and!; [exact Hlookup | reflexivity | reflexivity].
Qed.

(** The resolution of the goroutine, when it lets the call proceed: the
    tracer gets the identity of the caller, the state of the caller is in
    the map, and a marker goes to the logger when the identity changed. *)
Lemma setGoroutine_post tr env changed goroutine tr2 :
  setGoroutine tr env = Ok (true, changed, Some goroutine, tr2) →
  ∃ mk out m m2,
    goroutines tr = Some m
    ∧ tr2 = with_goroutines
              (with_goroutineID (with_Out (with_marker tr mk) out)
                 (GoroutineID env))
              (Some m2)
    ∧ m2 !! GoroutineID env = Some goroutine
    ∧ (m !! GoroutineID env = Some goroutine ∧ m2 = m
       ∨ m !! GoroutineID env = None
         ∧ m2 = <[GoroutineID env := goroutine]> m
         ∧ goroutine = {| ID := GoroutineID env; Frames := [];
                          TopMessage := ""; History := [] |})
    ∧ (changed = false ∧ GoroutineID env = goroutineID tr ∧ out = Out tr
       ∨ changed = true ∧ GoroutineID env ≠ goroutineID tr
         ∧ LockGoroutine tr = false
         ∧ ∃ calls, Out tr = Some calls
             ∧ out = Some (calls ++
                 [Printf "%s goroutine switched: %3d -> %-3d %s"
                    [VString mk; VInt (goroutineID tr);
                     VInt (GoroutineID env); VString mk]])).
Proof.
  unfold setGoroutine.
  destruct (decide (GoroutineID env ≠ goroutineID tr)) as [Hne|Heq].
  - destruct (LockGoroutine tr) eqn:Hlock; [discriminate|].
    intros Hrun. apply bind_Ok in Hrun as (tr' & Hmarker & Hrun).
    apply bind_Ok in Hrun as (out & Hout & Hrun).
    apply setGoroutine_lookup_post in Hrun
      as (m & m2 & g & Hm & [= -> -> ->] & Hg & Hcases).
    assert (∃ mk, tr' = with_marker tr mk) as [mk ->].
    { destruct (decide _) as [?|?].
      - apply bind_Ok in Hmarker as (mk & _ & [= <-]). eauto.
      - injection Hmarker as <-. exists (marker tr). by destruct tr. }
    simpl in Hout, Hm. destruct (Out tr) as [calls|] eqn:HOut;
      [|discriminate]. injection Hout as <-.
    exists mk, (Some (calls ++
                 [Printf "%s goroutine switched: %3d -> %-3d %s"
                    [VString mk; VInt (goroutineID tr);
                     VInt (GoroutineID env); VString mk]])), m, m2.
    split_and!; [exact Hm | reflexivity | exact Hg | exact Hcases |].
    right. split_and!; [reflexivity | exact Hne | reflexivity |].
    exists calls. split; reflexivity.
  - intros Hrun. apply setGoroutine_lookup_post in Hrun
      as (m & m2 & g & Hm & [= -> -> ->] & Hg & Hcases).
    exists (marker tr), (Out tr), m, m2.
    split_and!; [exact Hm | | exact Hg | exact Hcases |].
    + destruct tr. reflexivity.
    + left. split_and!; [reflexivity | | reflexivity].
      destruct (decide (GoroutineID env = goroutineID tr)) as [?|Hne];
        [done|]. exfalso. apply Heq. exact Hne.
Qed.

Lemma with_Out_same tr out : Out tr = out → with_Out tr out = tr.
Proof. intros <-. by destruct tr. Qed.

(** ** A call of Trace past the guards and the resolution

    The whole effect of such a call, from the tracer [tr2] and the state
    [goroutine] that [setGoroutine] returns: the stack is captured and
    diffed, the history is printed on a switch when so configured, a line
    is printed for every frame below the print limit, and the state of the
    goroutine is stored with its new frames, message and history. *)
Lemma Trace_runs tr tr1 tr2 changed goroutine skip args env :
  proceed (Some tr) = (true, Some tr1) →
  setGoroutine tr1 env = Ok (true, changed, Some goroutine, tr2) →
  frames_present (Frames goroutine) →
  (8 * Capacity tr ≤ maxAlloc env)%Z →
  ∃ clock captured storedIdx newIdx calls m indents
    (lines : list (string * Z)),
    ClockFn tr2 = Some clock
    ∧ getFrameInfos env (int (skip + 1)) (Capacity tr2) (clock env)
      = Ok captured
    ∧ captured ≠ []
    ∧ Forall (λ fr, ∃ frame, fr = from frame (clock env)) captured
    ∧ findLastCommonFrameIndex (Frames goroutine) captured
      = Ok (storedIdx, newIdx)
    ∧ Out tr2 = Some calls
    ∧ goroutines tr2 = Some m
    ∧ goroutineID tr2 = GoroutineID env
    ∧ Trace (Some tr) skip args env
      = Ok (Some
          (with_goroutines
             (with_Out (with_indents tr2 indents)
                (Some (calls
                   ++ ((λ line, Println [VString line])
                         <$> (if changed
                                 && OnGoroutineSwitchPrintStackHistory tr2
                              then History goroutine else []))
                   ++ ((λ p, Printf p.1 [VRune p.2]) <$> lines))))
             (Some (<[GoroutineID env :=
                      {| ID := ID goroutine;
                         Frames := take newIdx captured
                                   ++ drop storedIdx (Frames goroutine);
                         TopMessage := messageFrom args;
                         History :=
                           History goroutine
                           ++ ((λ p, fmt_Sprintf p.1
                                       [VRune (calloutPrevious tr2)])
                                 <$> lines) |}]> m))))
    ∧ length lines
      = (if changed && negb (OnGoroutineSwitchPrintStackHistory tr2)
            && OnGoroutineSwitchPrintCurrentStack tr2
         then length (take newIdx captured
                      ++ drop storedIdx (Frames goroutine))
         else newIdx)
    ∧ (changed && negb (OnGoroutineSwitchPrintStackHistory tr2)
         && OnGoroutineSwitchPrintCurrentStack tr2 = false →
       Forall (λ p, p.2 = calloutNew tr2) lines).
Proof.
  intros Hproceed Hset Hpresent Hfits.
  destruct (proceed_true _ _ Hproceed)
    as (previous & new & clock & calls0 & Htr1 & Hout0 & Hcap & _).
  destruct (setGoroutine_post _ _ _ _ _ Hset)
    as (mk & out & m & m2 & Hm & Htr2 & Hg & _ & Hchanged).
  assert (∃ calls, out = Some calls) as [calls ->].
  { destruct Hchanged as [(_ & _ & ->)|(_ & _ & _ & calls & _ & ->)];
      [|eauto]. subst tr1. simpl. eauto. }
  assert (ClockFn tr2 = Some clock) as Hclock by (subst; reflexivity).
  assert (Capacity tr2 = Capacity tr) as Hcap2 by (subst; reflexivity).
  destruct (getFrameInfos_post env (int (skip + 1)) (Capacity tr2)
              (clock env)) as (captured & Hcaptured & Hne & Hfrom);
    [lia | lia |].
  destruct (findLastCommonFrameIndex_post (Frames goroutine) captured
              Hpresent (from_present _ _ Hfrom) (or_intror Hne))
    as (storedIdx & newIdx & Hdiff & Hstored & Hnew & Halign & _ & _).
  set (frames := take newIdx captured ++ drop storedIdx (Frames goroutine)).
  assert (frames_present frames) as Hframes.
  { unfold frames, frames_present. apply Forall_app. split.
    - apply Forall_take. exact (from_present _ _ Hfrom).
    - apply Forall_drop. exact Hpresent. }
  set (printFrom :=
         if changed && negb (OnGoroutineSwitchPrintStackHistory tr2)
            && OnGoroutineSwitchPrintCurrentStack tr2
         then (-1)%Z else Z.of_nat newIdx).
  set (history := if changed && OnGoroutineSwitchPrintStackHistory tr2
                  then History goroutine else []).
  set (goroutine1 :=
         with_Frames (with_TopMessage goroutine (messageFrom args)) frames).
  assert (length frames = length captured) as Hlen.
  { unfold frames. rewrite length_app, length_take, length_drop. lia. }
  assert (printFrom ≤ Z.of_nat (length (Frames goroutine1)))%Z as Hfrom'.
  { unfold printFrom, goroutine1. simpl.
    destruct (_ && _ && _); lia. }
  destruct (printFrameIndicesLowerThan_post
              (with_Out tr2
                 (Some (calls ++ ((λ line, Println [VString line])
                                    <$> history))))
              goroutine1 printFrom (Z.of_nat newIdx) _ Hfrom' Hframes
              eq_refl)
    as (indents & lines & Hprint & Hlines & Hnewlines).
  exists clock, captured, storedIdx, newIdx, calls, m2, indents, lines.
  split_and!; try done; try (subst tr2; reflexivity).
  - unfold Trace. rewrite Hproceed. simpl. rewrite Hset. simpl.
    rewrite Hclock. simpl. rewrite Hcaptured. simpl. rewrite Hdiff. simpl.
    unfold slice_to, slice_from.
    destruct (decide (newIdx ≤ length captured)) as [_|?]; [|lia].
    destruct (decide (storedIdx ≤ length (Frames goroutine))) as [_|?];
      [|lia].
    simpl. fold frames. fold goroutine1.
    assert ((if changed
             then if OnGoroutineSwitchPrintStackHistory tr2
                  then tr ← printHistory tr2 goroutine1;
                       Ok (tr, Z.of_nat newIdx)
                  else if OnGoroutineSwitchPrintCurrentStack tr2
                       then Ok (tr2, (-1)%Z)
                       else Ok (tr2, Z.of_nat newIdx)
             else Ok (tr2, Z.of_nat newIdx))
            = Ok (with_Out tr2
                    (Some (calls ++ ((λ line, Println [VString line])
                                       <$> history))),
                  printFrom)) as ->.
    { unfold printFrom, history, printHistory.
      assert (Out tr2 = Some calls) as Hout2 by (subst tr2; reflexivity).
      assert (with_Out tr2 (Some (calls ++ [])) = tr2) as Hsame.
      { rewrite app_nil_r. apply with_Out_same. exact Hout2. }
      destruct changed, (OnGoroutineSwitchPrintStackHistory tr2),
        (OnGoroutineSwitchPrintCurrentStack tr2); simpl;
        rewrite ?Hsame; try reflexivity;
        rewrite Hout2, printHistory_loop_post; reflexivity. }
    simpl. rewrite Hprint. simpl. subst tr2. simpl.
    rewrite <- !app_assoc. reflexivity.
  - rewrite Hlines. unfold printFrom.
    destruct (_ && _ && _); simpl; [reflexivity|].
    destruct (decide _) as [?|_]; lia.
  - intros Hflag. apply Hnewlines. unfold printFrom. rewrite Hflag. lia.
Qed.

(** ** What a call of Trace can change, whenever it returns

    The lemmas below assume nothing of the tracer: they read the outcome
    off a call that returned. *)

Lemma with_indents_Out_same tr :
  tr = with_Out (with_indents tr (indents tr)) (Out tr).
Proof. by destruct tr. Qed.

Lemma printFrame_inv tr goroutine idx markFrom tr' goroutine' :
  printFrame tr goroutine idx markFrom = Ok (tr', goroutine') →
  ∃ indents out line,
    tr' = with_Out (with_indents tr indents) out
    ∧ goroutine' = with_History goroutine (History goroutine ++ [line]).
Proof.
  unfold printFrame. intros Hrun.
  apply bind_Ok in Hrun as (frame & _ & Hrun). cbv zeta in Hrun.
  apply bind_Ok in Hrun as ([indent tr1] & Hindent & Hrun).
  apply bind_Ok in Hrun as (out & _ & [= <- <-]).
  unfold indentation in Hindent. cbv zeta in Hindent.
  apply bind_Ok in Hindent as (s & _ & [= _ <-]).
  eexists _, _, _. split; reflexivity.
Qed.

Lemma printLoop_inv markFrom :
  ∀ n tr goroutine idx tr' goroutine',
    n = Z.to_nat (idx + 1) →
    printLoop tr goroutine idx markFrom = Ok (tr', goroutine') →
    ∃ indents out extra,
      tr' = with_Out (with_indents tr indents) out
      ∧ goroutine' = with_History goroutine (History goroutine ++ extra).
Proof.
  intros n. induction n as [|n IH]; intros tr goroutine idx tr' goroutine'
    Hn; rewrite printLoop_step; destruct (decide _) as [Hle|Hgt]; try lia.
  - intros [= <- <-]. exists (indents tr), (Out tr), [].
    split; [apply with_indents_Out_same|].
    rewrite app_nil_r. by destruct goroutine.
  - destruct (printFrame tr goroutine idx markFrom)
      as [[tr1 goroutine1]|] eqn:Hframe; [|discriminate].
    apply printFrame_inv in Hframe as (indents1 & out1 & line & -> & ->).
    intros Hrun. apply IH in Hrun as (indents2 & out2 & extra & -> & ->);
      [|lia].
    exists indents2, out2, (line :: extra). split; [reflexivity|].
    simpl. rewrite <- app_assoc. reflexivity.
Qed.

Lemma printHistory_inv tr goroutine tr' :
  printHistory tr goroutine = Ok tr' → ∃ out, tr' = with_Out tr out.
Proof.
  unfold printHistory. intros Hrun.
  apply bind_Ok in Hrun as (out & _ & [= <-]). eauto.
Qed.

Lemma setGoroutine_cases tr env proceeds changed goroutine tr2 :
  setGoroutine tr env = Ok (proceeds, changed, goroutine, tr2) →
  (proceeds = false ∧ goroutine = None ∧ tr2 = tr
   ∧ LockGoroutine tr = true ∧ GoroutineID env ≠ goroutineID tr)
  ∨ (proceeds = true ∧ is_Some goroutine).
Proof.
  unfold setGoroutine.
  destruct (decide (GoroutineID env ≠ goroutineID tr)) as [Hne|Heq].
  - destruct (LockGoroutine tr) eqn:Hlock.
    + intros [= <- <- <- <-]. left. done.
    + intros Hrun. apply bind_Ok in Hrun as (tr' & _ & Hrun).
      apply bind_Ok in Hrun as (out & _ & Hrun).
      apply setGoroutine_lookup_post in Hrun
        as (m & m2 & g & _ & [= -> -> -> ->] & _). right. eauto.
  - intros Hrun. apply setGoroutine_lookup_post in Hrun
      as (m & m2 & g & _ & [= -> -> -> ->] & _). right. eauto.
Qed.

(** Past the guards and the resolution, a call that returns leaves the
    tracer [tr2] of the resolution with another logger and indentation
    cache, and stores the state of the goroutine with new frames, the new
    message and a history that extends the one it had. *)
Lemma Trace_inv tr tr1 tr2 changed goroutine skip args env tr' :
  proceed (Some tr) = (true, Some tr1) →
  setGoroutine tr1 env = Ok (true, changed, Some goroutine, tr2) →
  Trace (Some tr) skip args env = Ok tr' →
  ∃ indents out frames extra,
    tr' = Some
            (with_goroutines (with_Out (with_indents tr2 indents) out)
               (<[GoroutineID env :=
                    {| ID := ID goroutine; Frames := frames;
                       TopMessage := messageFrom args;
                       History := History goroutine ++ extra |}]>
                  <$> goroutines tr2)).
Proof.
  intros Hproceed Hset. unfold Trace. rewrite Hproceed. simpl.
  rewrite Hset. simpl. intros Hrun.
  destruct (setGoroutine_post _ _ _ _ _ Hset)
    as (mk & out2 & m & m2 & _ & Htr2 & _).
  apply bind_Ok in Hrun as (clock & _ & Hrun). cbv zeta in Hrun.
  apply bind_Ok in Hrun as (captured & _ & Hrun). simpl in Hrun.
  apply bind_Ok in Hrun as ([storedIdx newIdx] & _ & Hrun).
  apply bind_Ok in Hrun as (new & _ & Hrun).
  apply bind_Ok in Hrun as (stored & _ & Hrun). cbv zeta in Hrun.
  apply bind_Ok in Hrun as ([tr3 printFrom] & Hswitch & Hrun).
  apply bind_Ok in Hrun as ([tr4 goroutine4] & Hprint & [= <-]).
  assert (∃ out3, tr3 = with_Out tr2 out3) as [out3 ->].
  { destruct changed; [|injection Hswitch as <- _;
                         exists (Out tr2); by destruct tr2].
    destruct (OnGoroutineSwitchPrintStackHistory tr2).
    - apply bind_Ok in Hswitch as (tr3' & Hhist & [= <- _]).
      by apply printHistory_inv in Hhist.
    - destruct (OnGoroutineSwitchPrintCurrentStack tr2);
        injection Hswitch as <- _; exists (Out tr2); by destruct tr2. }
  unfold printFrameIndicesLowerThan in Hprint. cbv zeta in Hprint.
  eapply printLoop_inv in Hprint as (indents & out & extra & -> & ->);
    [|reflexivity].
  exists indents, out, (new ++ stored), extra. subst tr2. reflexivity.
Qed.

(** A call that returns past the guards and the resolution has been given
    its slices by the runtime. *)
Lemma Trace_fits tr tr1 tr2 changed goroutine skip args env tr' :
  proceed (Some tr) = (true, Some tr1) →
  setGoroutine tr1 env = Ok (true, changed, Some goroutine, tr2) →
  Trace (Some tr) skip args env = Ok tr' →
  (8 * Capacity tr ≤ maxAlloc env)%Z.
Proof.
  intros Hproceed Hset. unfold Trace. rewrite Hproceed. simpl.
  rewrite Hset. simpl. intros Hrun.
  destruct (setGoroutine_post _ _ _ _ _ Hset)
    as (mk & out2 & m & m2 & _ & Htr2 & _).
  destruct (proceed_true _ _ Hproceed) as (? & ? & ? & ? & Htr1 & _).
  apply bind_Ok in Hrun as (clock & _ & Hrun). cbv zeta in Hrun.
  apply bind_Ok in Hrun as (captured & Hcaptured & _).
  unfold getFrameInfos, runtimeFrames in Hcaptured.
  apply bind_Ok in Hcaptured as (frames & Hframes & _).
  apply bind_Ok in Hframes as (u & Hmake & _).
  apply makeslice_inv in Hmake as [_ Hfits].
  subst tr2 tr1. exact Hfits.
Qed.

(** ** When a call of Trace returns *)

Lemma proceed_cases tr :
  (∃ tr1, proceed (Some tr) = (true, Some tr1))
  ∨ proceed (Some tr) = (false, Some tr).
Proof.
  destruct (proceed (Some tr)) as [[] tr'] eqn:Hproceed.
  - destruct (proceed_Some _ _ _ Hproceed) as [tr1 ->]. left. eauto.
  - right. by rewrite (proceed_false _ _ Hproceed).
Qed.

Lemma setGoroutine_runs tr env :
  is_Some (goroutines tr) → is_Some (Out tr) →
  (0 ≤ SourceLength tr ≤ maxAlloc env)%Z →
  ∃ r, setGoroutine tr env = Ok r.
Proof.
  intros [m Hm] [calls Hout] Hwidth.
  assert (∀ tr' changed, goroutines tr' = Some m →
            ∃ r, setGoroutine_lookup tr' (GoroutineID env) changed = Ok r)
    as Hlookup.
  { intros tr' changed Hm'. unfold setGoroutine_lookup. simpl.
    rewrite Hm'. simpl. destruct (m !! GoroutineID env); eauto. }
  unfold setGoroutine.
  destruct (decide (GoroutineID env ≠ goroutineID tr)) as [Hne|Heq];
    [|by apply Hlookup].
  destruct (LockGoroutine tr); [eauto|].
  destruct (decide _) as [?|?];
    [rewrite strings_Repeat_Ok by (simpl String.length; lia)|];
    simpl; rewrite Hout; simpl; by apply Hlookup.
Qed.

(** The state that the resolution returns is the tracked one, or a fresh
    one without frames: its frames are present when the stored ones are. *)
Lemma resolved_frames_present tr tr1 tr2 changed goroutine env :
  stored_frames_present tr →
  proceed (Some tr) = (true, Some tr1) →
  setGoroutine tr1 env = Ok (true, changed, Some goroutine, tr2) →
  frames_present (Frames goroutine).
Proof.
  intros Hstored Hproceed Hset.
  destruct (proceed_true _ _ Hproceed) as (? & ? & ? & ? & -> & _).
  destruct (setGoroutine_post _ _ _ _ _ Hset)
    as (_ & _ & m & _ & Hm & _ & _ & [[Hg _]|(_ & _ & ->)] & _);
    [|constructor].
  simpl in Hm. injection Hm as <-.
  apply (Hstored (GoroutineID env)). unfold tracked.
  destruct (goroutines tr) as [m|]; simpl in *; [exact Hg|].
  rewrite lookup_empty in Hg. discriminate.
Qed.

(** From a tracer whose stored frames are present and whose display width
    is not negative, every call of [Trace] returns when the runtime makes a
    marker as wide as the display and a slice for [Capacity] frames. *)
Lemma Trace_returns tr skip args env :
  stored_frames_present tr →
  (0 ≤ SourceLength tr ≤ maxAlloc env)%Z →
  (8 * Capacity tr ≤ maxAlloc env)%Z →
  ∃ tr', Trace (Some tr) skip args env = Ok (Some tr').
Proof.
  intros Hstored Hwidth Hfits.
  destruct (proceed_cases tr) as [[tr1 Hproceed]|Hproceed].
  - destruct (proceed_true _ _ Hproceed)
      as (previous & new & clock & calls & Htr1 & H0).
    assert (is_Some (goroutines tr1)) as Hmap by (subst tr1; simpl; eauto).
    assert (is_Some (Out tr1)) as Hout.
    { subst tr1. simpl. destruct H0 as (Hout & _). rewrite Hout. eauto. }
    assert (0 ≤ SourceLength tr1 ≤ maxAlloc env)%Z as Hwidth1
      by (subst tr1; exact Hwidth).
    destruct (setGoroutine_runs tr1 env Hmap Hout Hwidth1)
      as ([[[proceeds changed] goroutine] tr2] & Hset).
    destruct (setGoroutine_cases _ _ _ _ _ _ Hset)
      as [(-> & -> & -> & _)|(-> & [g ->])].
    + exists tr1. unfold Trace. rewrite Hproceed. simpl. rewrite Hset.
      reflexivity.
    + pose proof (resolved_frames_present _ _ _ _ _ _ Hstored Hproceed Hset)
        as Hpresent.
      destruct (Trace_runs _ _ _ _ _ skip args _ Hproceed Hset Hpresent
                  Hfits)
        as (? & ? & ? & ? & ? & ? & ? & ? & _ & _ & _ & _ & _ & _ & _ & _
            & Hrun & _).
      eauto.
  - exists tr. unfold Trace. rewrite Hproceed. reflexivity.
Qed.

(** C7. A call made while [LockGoroutine] is set, from a goroutine other
    than the one last seen, is refused: it returns, the logger has received
    nothing, the map of goroutine states holds the same states under the
    same identities, and the identity last seen is the same. *)
Theorem Trace_locked_out tr skip args env :
  LockGoroutine tr = true →
  GoroutineID env ≠ goroutineID tr →
  ∃ tr', Trace (Some tr) skip args env = Ok (Some tr')
         ∧ Out tr' = Out tr
         ∧ (∀ id, tracked tr' id = tracked tr id)
         ∧ Goroutines (Some tr') = Goroutines (Some tr)
         ∧ goroutineID tr' = goroutineID tr.
Proof.
  intros Hlock Hne.
  destruct (proceed_cases tr) as [[tr1 Hproceed]|Hproceed].
  - exists tr1. unfold Trace. rewrite Hproceed. simpl.
    destruct (proceed_true _ _ Hproceed)
      as (previous & new & clock & calls & -> & _).
    unfold setGoroutine. simpl.
    destruct (decide (GoroutineID env ≠ goroutineID tr)) as [_|?]; [|done].
    rewrite Hlock. simpl.
    split_and!; try reflexivity.
    intros id. unfold tracked. simpl.
    destruct (goroutines tr); simpl; [reflexivity | apply lookup_empty].
  - exists tr. unfold Trace. rewrite Hproceed. simpl. done.
Qed.

(** Whenever a call of [Trace] returns, every state tracked before the call
    is tracked after it, and its history has only been appended to. *)
Lemma Trace_history_prefix tr skip args env tr' :
  Trace (Some tr) skip args env = Ok tr' →
  ∃ after, tr' = Some after
    ∧ ∀ id goroutine, tracked tr id = Some goroutine →
        ∃ goroutine', tracked after id = Some goroutine'
                      ∧ History goroutine `prefix_of` History goroutine'.
Proof.
  intros Hrun.
  destruct (proceed_cases tr) as [[tr1 Hproceed]|Hproceed].
  - pose proof Hrun as Hrun'. unfold Trace in Hrun'.
    rewrite Hproceed in Hrun'. simpl in Hrun'.
    apply bind_Ok in Hrun'
      as ([[[proceeds changed] goroutine] tr2] & Hset & Hrest).
    destruct (proceed_true _ _ Hproceed)
      as (previous & new & clock & calls & Htr1 & _).
    destruct (setGoroutine_cases _ _ _ _ _ _ Hset)
      as [(-> & -> & -> & _)|(-> & [g ->])].
    + injection Hrest as <-. exists tr1. split; [reflexivity|].
      intros id goroutine Htracked. exists goroutine.
      split; [|reflexivity].
      subst tr1. unfold tracked in *. simpl.
      destruct (goroutines tr); [exact Htracked | discriminate].
    + destruct (Trace_inv _ _ _ _ _ _ _ _ _ Hproceed Hset Hrun)
        as (indents & out & frames & extra & ->).
      eexists. split; [reflexivity|].
      destruct (setGoroutine_post _ _ _ _ _ Hset)
        as (mk & out2 & m & m2 & Hm & -> & Hg & Hcases & _).
      intros id goroutine Htracked.
      assert (m !! id = Some goroutine) as Hid.
      { subst tr1. simpl in Hm. injection Hm as <-. unfold tracked in *.
        destruct (goroutines tr); [exact Htracked | discriminate]. }
      unfold tracked. simpl.
      destruct (decide (id = GoroutineID env)) as [->|Hother].
      * rewrite lookup_insert_eq. eexists. split; [reflexivity|]. simpl.
        destruct Hcases as [[Hg' _]|[Hg' _]]; [|congruence].
        assert (g = goroutine) as -> by congruence.
        apply prefix_app_r. reflexivity.
      * rewrite lookup_insert_ne by done. exists goroutine.
        split; [|reflexivity].
        destruct Hcases as [[_ ->]|(_ & -> & _)]; [exact Hid|].
        rewrite lookup_insert_ne by done. exact Hid.
  - unfold Trace in Hrun. rewrite Hproceed in Hrun. simpl in Hrun.
    injection Hrun as <-. exists tr. split; [reflexivity|].
    intros id goroutine Htracked. exists goroutine. split; [done|reflexivity].
Qed.

(** C8. The history of a tracked goroutine only grows.  For every call of
    [Trace]: the call returns when the stored frames are present, the
    display width is not negative, and the runtime makes a marker as wide
    as the display and a slice for [Capacity] frames; and whenever it
    returns, every state tracked before the call is tracked after it, with
    a history of which the history before the call is a prefix. *)
Theorem history_append_only tr skip args env :
  (stored_frames_present tr →
   (0 ≤ SourceLength tr ≤ maxAlloc env)%Z →
   (8 * Capacity tr ≤ maxAlloc env)%Z →
   ∃ tr', Trace (Some tr) skip args env = Ok (Some tr'))
  ∧ (∀ tr', Trace (Some tr) skip args env = Ok tr' →
       ∃ after, tr' = Some after
         ∧ ∀ id goroutine, tracked tr id = Some goroutine →
             ∃ goroutine', tracked after id = Some goroutine'
                           ∧ History goroutine `prefix_of` History goroutine').
Proof.
  split; [apply Trace_returns | apply Trace_history_prefix].
Qed.

(** C4. On every call that proceeds past the guards and the resolution of
    the goroutine, and for which the runtime makes the slices of [Capacity]
    words that the capture asks for, the stored stack of the goroutine is
    replaced by the
    first [newIdx] captured frames followed by the stored frames from
    [storedIdx] on, where [(storedIdx, newIdx)] is the result of
    [findLastCommonFrameIndex] on the stored and the captured frames; the
    frames kept from the stored stack are the very frames stored before,
    time stamps included. *)
Theorem Trace_replaces_frames tr tr1 tr2 changed goroutine skip args env :
  proceed (Some tr) = (true, Some tr1) →
  setGoroutine tr1 env = Ok (true, changed, Some goroutine, tr2) →
  frames_present (Frames goroutine) →
  (8 * Capacity tr ≤ maxAlloc env)%Z →
  ∃ clock captured storedIdx newIdx tr' goroutine',
    ClockFn tr2 = Some clock
    ∧ getFrameInfos env (int (skip + 1)) (Capacity tr2) (clock env)
      = Ok captured
    ∧ findLastCommonFrameIndex (Frames goroutine) captured
      = Ok (storedIdx, newIdx)
    ∧ storedIdx ≤ length (Frames goroutine) ∧ newIdx ≤ length captured
    ∧ Trace (Some tr) skip args env = Ok (Some tr')
    ∧ tracked tr' (GoroutineID env) = Some goroutine'
    ∧ Frames goroutine'
      = take newIdx captured ++ drop storedIdx (Frames goroutine)
    ∧ (∀ i fr, storedIdx ≤ i → Frames goroutine !! i = Some fr →
         Frames goroutine' !! (newIdx + (i - storedIdx)) = Some fr).
Proof.
  intros Hproceed Hset Hpresent Hfits.
  destruct (Trace_runs _ _ _ _ _ skip args _ Hproceed Hset Hpresent
              Hfits)
    as (clock & captured & storedIdx & newIdx & calls & m & indents & lines
        & Hclock & Hcaptured & Hne & Hfrom & Hdiff & _ & _ & _ & Hrun & _).
  destruct (findLastCommonFrameIndex_post (Frames goroutine) captured
              Hpresent (from_present _ _ Hfrom) (or_intror Hne))
    as (oi & ni & Hdiff' & Hstored & Hnew & _).
  rewrite Hdiff in Hdiff'. injection Hdiff' as <- <-.
  eexists clock, captured, storedIdx, newIdx, _, _.
  split_and!; [exact Hclock | exact Hcaptured | exact Hdiff | exact Hstored
              | exact Hnew | exact Hrun | | |].
  - unfold tracked. simpl. apply lookup_insert_eq.
  - reflexivity.
  - intros i fr Hi Hfr. simpl.
    rewrite lookup_app_r by (rewrite length_take; lia).
    rewrite length_take, lookup_drop.
    replace (storedIdx + (newIdx + (i - storedIdx) - newIdx `min` length captured))
      with i by lia.
    exact Hfr.
Qed.

Lemma same_location_refl (fr : ptr FrameInfo) :
  is_Some fr → same_location fr fr.
Proof.
  intros [v ->]. unfold same_location, FrameInfo_Same. simpl.
  f_equal. by apply bool_decide_eq_true_2.
Qed.

(** C9. After every call that proceeds past the guards and the resolution
    of the goroutine, and for which the runtime makes the slices of
    [Capacity] words that the capture asks for, the captured stack is not
    empty, and the stored stack
    of the calling goroutine has the length of the captured stack and is at
    the same location ([Same]) as the captured stack at every position. *)
Theorem Trace_keeps_shape tr tr1 tr2 changed goroutine skip args env :
  proceed (Some tr) = (true, Some tr1) →
  setGoroutine tr1 env = Ok (true, changed, Some goroutine, tr2) →
  frames_present (Frames goroutine) →
  (8 * Capacity tr ≤ maxAlloc env)%Z →
  ∃ clock captured tr' goroutine',
    ClockFn tr2 = Some clock
    ∧ getFrameInfos env (int (skip + 1)) (Capacity tr2) (clock env)
      = Ok captured
    ∧ captured ≠ []
    ∧ Trace (Some tr) skip args env = Ok (Some tr')
    ∧ tracked tr' (GoroutineID env) = Some goroutine'
    ∧ length (Frames goroutine') = length captured
    ∧ Forall2 same_location (Frames goroutine') captured.
Proof.
  intros Hproceed Hset Hpresent Hfits.
  destruct (Trace_runs _ _ _ _ _ skip args _ Hproceed Hset Hpresent
              Hfits)
    as (clock & captured & storedIdx & newIdx & calls & m & indents & lines
        & Hclock & Hcaptured & Hne & Hfrom & Hdiff & _ & _ & _ & Hrun & _).
  pose proof (from_present _ _ Hfrom) as Hcap.
  destruct (findLastCommonFrameIndex_post (Frames goroutine) captured
              Hpresent Hcap (or_intror Hne))
    as (oi & ni & Hdiff' & Hstored & Hnew & Halign & Hsame & _).
  rewrite Hdiff in Hdiff'. injection Hdiff' as <- <-.
  assert (Forall2 same_location
            (take newIdx captured ++ drop storedIdx (Frames goroutine))
            captured) as Hshape.
  { assert (Forall2 same_location
              (take newIdx captured ++ drop storedIdx (Frames goroutine))
              (take newIdx captured ++ drop newIdx captured)) as Hboth.
    { apply Forall2_app; [|exact Hsame].
      apply Forall_Forall2_diag. apply Forall_take.
      eapply Forall_impl; [exact Hcap|]. apply same_location_refl. }
    by rewrite take_drop in Hboth. }
  eexists clock, captured, _, _.
  split_and!; [exact Hclock | exact Hcaptured | exact Hne | exact Hrun | | |].
  - unfold tracked. simpl. apply lookup_insert_eq.
  - simpl. exact (Forall2_length _ _ _ Hshape).
  - simpl. exact Hshape.
Qed.

Lemma fmap_callout {A} (f : string → Z → A) callout
    (lines : list (string * Z)) :
  Forall (λ p, p.2 = callout) lines →
  (λ p, f p.1 p.2) <$> lines = (λ line, f line callout) <$> lines.*1.
Proof.
  induction 1 as [|[line c] lines Hc _ IH]; [reflexivity|].
  rewrite !fmap_cons. simpl in Hc. subst c. simpl. f_equal. exact IH.
Qed.

(** C5, as the code has it.  On every call on which the goroutine changed
    and [OnGoroutineSwitchPrintStackHistory] is set, and for which the
    runtime makes the slices of [Capacity] words that the capture asks for,
    the logger receives,
    after the marker of the switch, the entries of the history of the
    goroutine as it was before the call, and then one line for each newly
    discovered frame (the frames of index below [newIdx]), marked as new;
    these lines, marked as known, are appended to the history. *)
Theorem Trace_switch_prints_history_then_new_frames
    tr tr1 tr2 goroutine skip args env :
  proceed (Some tr) = (true, Some tr1) →
  setGoroutine tr1 env = Ok (true, true, Some goroutine, tr2) →
  OnGoroutineSwitchPrintStackHistory tr = true →
  frames_present (Frames goroutine) →
  (8 * Capacity tr ≤ maxAlloc env)%Z →
  ∃ calls mk clock captured storedIdx newIdx (lines : list string) tr'
    goroutine',
    Out tr = Some calls
    ∧ ClockFn tr2 = Some clock
    ∧ getFrameInfos env (int (skip + 1)) (Capacity tr2) (clock env)
      = Ok captured
    ∧ findLastCommonFrameIndex (Frames goroutine) captured
      = Ok (storedIdx, newIdx)
    ∧ Trace (Some tr) skip args env = Ok (Some tr')
    ∧ Out tr'
      = Some (calls
              ++ [Printf "%s goroutine switched: %3d -> %-3d %s"
                    [VString mk; VInt (goroutineID tr);
                     VInt (GoroutineID env); VString mk]]
              ++ ((λ line, Println [VString line]) <$> History goroutine)
              ++ ((λ line, Printf line [VRune (calloutNew tr')]) <$> lines))
    ∧ length lines = newIdx
    ∧ tracked tr' (GoroutineID env) = Some goroutine'
    ∧ History goroutine'
      = History goroutine
        ++ ((λ line, fmt_Sprintf line [VRune (calloutPrevious tr')])
              <$> lines).
Proof.
  intros Hproceed Hset Hflag Hpresent Hfits.
  destruct (Trace_runs _ _ _ _ _ skip args _ Hproceed Hset Hpresent
              Hfits)
    as (clock & captured & storedIdx & newIdx & calls2 & m & indents & lines
        & Hclock & Hcaptured & _ & _ & Hdiff & Hout2 & _ & _ & Hrun & Hlen
        & Hnew).
  destruct (proceed_true _ _ Hproceed)
    as (previous & new & clock' & calls & Htr1 & Hout & _).
  destruct (setGoroutine_post _ _ _ _ _ Hset)
    as (mk & out & m1 & m2 & _ & Htr2 & _ & _
        & [(? & _)|(_ & _ & _ & calls1 & Hout1 & ->)]); [discriminate|].
  assert (OnGoroutineSwitchPrintStackHistory tr2 = true) as Hflag2
    by (subst tr2 tr1; exact Hflag).
  assert (calls1 = calls) as ->.
  { subst tr1. simpl in Hout1. congruence. }
  assert (calls2
          = calls ++ [Printf "%s goroutine switched: %3d -> %-3d %s"
                        [VString mk; VInt (goroutineID tr);
                         VInt (GoroutineID env); VString mk]]) as ->.
  { subst tr2 tr1. simpl in Hout2. congruence. }
  rewrite Hflag2 in Hrun, Hlen, Hnew. simpl in Hrun, Hlen, Hnew.
  specialize (Hnew eq_refl).
  eexists calls, mk, clock, captured, storedIdx, newIdx, lines.*1, _, _.
  split_and!; [exact Hout | exact Hclock | exact Hcaptured | exact Hdiff
              | exact Hrun | | | |].
  - simpl. rewrite <- !app_assoc. do 4 f_equal.
    apply (fmap_callout (λ line c, Printf line [VRune c])).
    subst tr2. exact Hnew.
  - rewrite length_fmap. exact Hlen.
  - unfold tracked. simpl. apply lookup_insert_eq.
  - simpl. f_equal. rewrite <- list_fmap_compose. reflexivity.
Qed.

(** ** messageFrom *)

(** The format that [messageFrom] makes up for [k] values is the [k]
    space-joined placeholders followed by one more space. *)
Lemma repeat_string_space_joined k :
  repeat_string "%v " (S k) = (space_joined (S k) ++ " ")%string.
Proof.
  induction k as [|k IH]; [reflexivity|].
  change (repeat_string "%v " (S (S k)))
    with ("%v " ++ repeat_string "%v " (S k))%string.
  rewrite IH. reflexivity.
Qed.

(** C6, as the code has it.  An empty argument list gives the empty
    message.  When the first argument is a string, it is the format and the
    remaining arguments are its values.  Otherwise all [k] arguments are
    the values of a format made of [k] placeholders [%v], each followed by
    a space: the space-joined placeholders and one more space at the
    end. *)
Theorem messageFrom_spec (args : list Value) :
  match args with
  | [] => messageFrom args = ""
  | VString format :: values => messageFrom args = fmt_Sprintf format values
  | _ :: _ =>
      messageFrom args
      = fmt_Sprintf (space_joined (length args) ++ " ")%string args
  end.
Proof.
  destruct args as [|arg0 values]; [reflexivity|].
  unfold messageFrom, messageFrom_format.
  destruct arg0;
    try (simpl length; rewrite <- repeat_string_space_joined; reflexivity).
  destruct values as [|value values]; [reflexivity|]. simpl length.
  destruct (decide (1 < S (S (length values)))) as [_|?]; [reflexivity | lia].
Qed.

(** ** The stored frames are always present

    A tracer that has not traced yet stores no frame, and [Trace] only
    stores frames it has captured or kept: the hypothesis of the theorems
    above on the stored frames holds in every state a tracer can reach. *)
Lemma fresh_frames_present tr :
  goroutines tr = None → stored_frames_present tr.
Proof.
  intros Hfresh id goroutine. unfold tracked. rewrite Hfresh. discriminate.
Qed.

Lemma Trace_preserves_frames_present tr skip args env tr' :
  stored_frames_present tr →
  Trace (Some tr) skip args env = Ok (Some tr') →
  stored_frames_present tr'.
Proof.
  intros Hstored Hrun.
  assert (∀ tr1, (∃ previous new clock,
            tr1 = with_ClockFn
                    (with_callouts
                       (with_goroutines tr
                          (Some (default ∅ (goroutines tr))))
                       previous new)
                    (Some clock)) → stored_frames_present tr1) as Hguards.
  { intros tr1 (previous & new & clock & ->) id goroutine.
    unfold tracked. simpl. intros Hid. apply (Hstored id). unfold tracked.
    destruct (goroutines tr); simpl in *; [exact Hid|].
    rewrite lookup_empty in Hid. discriminate. }
  destruct (proceed_cases tr) as [[tr1 Hproceed]|Hproceed].
  - destruct (proceed_true _ _ Hproceed)
      as (previous & new & clock & calls & Htr1 & _).
    pose proof Hrun as Hrun'. unfold Trace in Hrun'.
    rewrite Hproceed in Hrun'. simpl in Hrun'.
    apply bind_Ok in Hrun'
      as ([[[proceeds changed] goroutine] tr2] & Hset & Hrest).
    destruct (setGoroutine_cases _ _ _ _ _ _ Hset)
      as [(-> & -> & -> & _)|(-> & [g ->])].
    + injection Hrest as <-. apply Hguards. eauto.
    + pose proof (resolved_frames_present _ _ _ _ _ _ Hstored Hproceed Hset)
        as Hpresent.
      pose proof (Trace_fits _ _ _ _ _ _ _ _ _ Hproceed Hset Hrun) as Hfits.
      destruct (Trace_runs _ _ _ _ _ skip args _ Hproceed Hset Hpresent
                  Hfits)
        as (clock' & captured & storedIdx & newIdx & calls' & m' & indents
            & lines & _ & _ & _ & Hfrom & _ & _ & Hm' & _ & Hrun'' & _).
      rewrite Hrun in Hrun''. injection Hrun'' as ->.
      destruct (setGoroutine_post _ _ _ _ _ Hset)
        as (mk & out & m & m2 & Hm & Htr2 & _ & Hcases & _).
      assert (m' = m2) as -> by (subst tr2; simpl in Hm'; congruence).
      intros id goroutine. unfold tracked. simpl.
      destruct (decide (id = GoroutineID env)) as [->|Hother].
      * rewrite lookup_insert_eq. intros [= <-]. simpl.
        apply Forall_app. split.
        -- apply Forall_take. exact (from_present _ _ Hfrom).
        -- apply Forall_drop. exact Hpresent.
      * rewrite lookup_insert_ne by done. intros Hid.
        apply (Hguards tr1 ltac:(eauto) id). unfold tracked. rewrite Hm.
        simpl. destruct Hcases as [[_ ->]|(_ & -> & _)]; [exact Hid|].
        rewrite lookup_insert_ne in Hid by done. exact Hid.
  - unfold Trace in Hrun. rewrite Hproceed in Hrun. simpl in Hrun.
    injection Hrun as <-. exact Hstored.
Qed.
End Properties.

(** ** Concrete calls *)

Lemma Demo_run_frames_present calls :
  ∀ tr tr', stored_frames_present tr →
    Demo.run (Some tr) calls = Ok (Some tr') → stored_frames_present tr'.
Proof.
  induction calls as [|[args env] calls IH]; intros tr tr' Hstored Hrun.
  - injection Hrun as <-. exact Hstored.
  - simpl in Hrun. apply bind_Ok in Hrun as (next & Hstep & Hrun).
    destruct (Trace_history_prefix _ _ _ _ _ Hstep) as (after & -> & _).
    apply (IH after tr'); [|exact Hrun].
    exact (Trace_preserves_frames_present _ _ _ _ _ Hstored Hstep).
Qed.

Lemma Demo_after_three_calls_present :
  stored_frames_present Demo.after_three_calls.
Proof.
  assert (stored_frames_present Demo.start) as Hstart
    by (by apply fresh_frames_present).
  unfold Demo.after_three_calls.
  destruct (Demo.run _ _) as [[tr|]|] eqn:Hrun; try exact Hstart.
  exact (Demo_run_frames_present _ _ _ Hstart Hrun).
Qed.

(** The guards and the resolution of the goroutine, evaluated on a concrete
    tracer [tr] in the surroundings [env]: the tactic puts their outcomes and
    the presence of the frames of the resolved goroutine in the context, and
    instantiates with them the four leading existentials of the goal. *)
Ltac resolve_call tr env :=
  let guards := eval vm_compute in (proceed (Some tr)) in
  lazymatch guards with
  | (true, Some ?tr1) =>
      let resolution := eval vm_compute in (setGoroutine tr1 env) in
      lazymatch resolution with
      | Ok (true, ?changed, Some ?goroutine, ?tr2) =>
          assert (proceed (Some tr) = (true, Some tr1)) as Hproceed
            by (vm_compute; reflexivity);
          assert (setGoroutine tr1 env
                  = Ok (true, changed, Some goroutine, tr2)) as Hset
            by (vm_compute; reflexivity);
          assert (frames_present (Frames goroutine)) as Hpresent
            by (unfold frames_present; simpl; repeat constructor; eauto);
          assert (8 * Capacity tr ≤ maxAlloc env)%Z as Hfits
            by (vm_compute; discriminate);
          exists tr1, tr2, changed, goroutine
      end
  end.

Lemma Trace_replaces_frames_witness :
  let tr := Demo.after_three_calls in
  let env := Demo.env 1 103 Demo.in_a in
  ∃ tr1 tr2 changed goroutine,
    proceed (Some tr) = (true, Some tr1)
    ∧ setGoroutine tr1 env = Ok (true, changed, Some goroutine, tr2)
    ∧ frames_present (Frames goroutine)
    ∧ (8 * Capacity tr ≤ maxAlloc env)%Z
    ∧ ∃ clock captured storedIdx newIdx tr' goroutine',
        ClockFn tr2 = Some clock
        ∧ getFrameInfos env (int (0 + 1)) (Capacity tr2) (clock env)
          = Ok captured
        ∧ findLastCommonFrameIndex (Frames goroutine) captured
          = Ok (storedIdx, newIdx)
        ∧ storedIdx ≤ length (Frames goroutine) ∧ newIdx ≤ length captured
        ∧ Trace (Some tr) 0 [VInt 4; VInt 5] env = Ok (Some tr')
        ∧ tracked tr' (GoroutineID env) = Some goroutine'
        ∧ Frames goroutine'
          = take newIdx captured ++ drop storedIdx (Frames goroutine)
        ∧ (∀ i fr, storedIdx ≤ i → Frames goroutine !! i = Some fr →
             Frames goroutine' !! (newIdx + (i - storedIdx)) = Some fr).
Proof.
  intros tr env. resolve_call tr env.
  split_and!; [exact Hproceed | exact Hset | exact Hpresent | exact Hfits |].
  exact (Trace_replaces_frames _ _ _ _ _ 0 [VInt 4; VInt 5] _
           Hproceed Hset Hpresent Hfits).
Defined.

Lemma Trace_keeps_shape_witness :
  let tr := Demo.after_three_calls in
  let env := Demo.env 1 103 Demo.in_a in
  ∃ tr1 tr2 changed goroutine,
    proceed (Some tr) = (true, Some tr1)
    ∧ setGoroutine tr1 env = Ok (true, changed, Some goroutine, tr2)
    ∧ frames_present (Frames goroutine)
    ∧ (8 * Capacity tr ≤ maxAlloc env)%Z
    ∧ ∃ clock captured tr' goroutine',
        ClockFn tr2 = Some clock
        ∧ getFrameInfos env (int (0 + 1)) (Capacity tr2) (clock env)
          = Ok captured
        ∧ captured ≠ []
        ∧ Trace (Some tr) 0 [VInt 4; VInt 5] env = Ok (Some tr')
        ∧ tracked tr' (GoroutineID env) = Some goroutine'
        ∧ length (Frames goroutine') = length captured
        ∧ Forall2 same_location (Frames goroutine') captured.
Proof.
  intros tr env. resolve_call tr env.
  split_and!; [exact Hproceed | exact Hset | exact Hpresent | exact Hfits |].
  exact (Trace_keeps_shape _ _ _ _ _ 0 [VInt 4; VInt 5] _
           Hproceed Hset Hpresent Hfits).
Defined.

Lemma Trace_switch_prints_history_then_new_frames_witness :
  let tr := Demo.after_three_calls in
  let env := Demo.env 1 103 Demo.in_a in
  ∃ tr1 tr2 changed goroutine,
    proceed (Some tr) = (true, Some tr1)
    ∧ setGoroutine tr1 env = Ok (true, changed, Some goroutine, tr2)
    ∧ changed = true
    ∧ OnGoroutineSwitchPrintStackHistory tr = true
    ∧ frames_present (Frames goroutine)
    ∧ (8 * Capacity tr ≤ maxAlloc env)%Z
    ∧ ∃ calls mk clock captured storedIdx newIdx (lines : list string) tr'
        goroutine',
        Out tr = Some calls
        ∧ ClockFn tr2 = Some clock
        ∧ getFrameInfos env (int (0 + 1)) (Capacity tr2) (clock env)
          = Ok captured
        ∧ findLastCommonFrameIndex (Frames goroutine) captured
          = Ok (storedIdx, newIdx)
        ∧ Trace (Some tr) 0 [VInt 4; VInt 5] env = Ok (Some tr')
        ∧ Out tr'
          = Some (calls
                  ++ [Printf "%s goroutine switched: %3d -> %-3d %s"
                        [VString mk; VInt (goroutineID tr);
                         VInt (GoroutineID env); VString mk]]
                  ++ ((λ line, Println [VString line]) <$> History goroutine)
                  ++ ((λ line, Printf line [VRune (calloutNew tr')])
                        <$> lines))
        ∧ length lines = newIdx
        ∧ tracked tr' (GoroutineID env) = Some goroutine'
        ∧ History goroutine'
          = History goroutine
            ++ ((λ line, fmt_Sprintf line [VRune (calloutPrevious tr')])
                  <$> lines).
Proof.
  intros tr env. resolve_call tr env.
  assert (OnGoroutineSwitchPrintStackHistory tr = true) as Hflag
    by (vm_compute; reflexivity).
  split_and!; [exact Hproceed | exact Hset | reflexivity | exact Hflag
              | exact Hpresent | exact Hfits |].
  exact (Trace_switch_prints_history_then_new_frames _ _ _ _ 0
           [VInt 4; VInt 5] _ Hproceed Hset Hflag Hpresent Hfits).
Defined.

(** C5 fails on a switch back to goroutine 1, whose history holds three
    entries: after the marker the logger receives the three entries and
    then two lines for the two new frames.  What it receives is neither the
    history as it was before the call nor the history as it is after. *)
Lemma Trace_switch_output_is_not_the_history :
  let tr := Demo.after_three_calls in
  let env := Demo.env 1 103 Demo.in_a in
  let printed := fmap (M := list) (λ line, Println [VString line]) in
  OnGoroutineSwitchPrintStackHistory tr = true
  ∧ GoroutineID env ≠ goroutineID tr
  ∧ ∃ tr' calls before after,
      Out tr = Some calls
      ∧ tracked tr 1 = Some before
      ∧ Trace (Some tr) 0 [VInt 4; VInt 5] env = Ok (Some tr')
      ∧ tracked tr' 1 = Some after
      ∧ ∃ emitted,
          Out tr'
          = Some (calls
                  ++ [Printf "%s goroutine switched: %3d -> %-3d %s"
                        [VString "----------------"; VInt 2; VInt 1;
                         VString "----------------"]]
                  ++ emitted)
          ∧ emitted
            = [Println [VString "60    p60 g1    main.main() Start"];
               Println [VString "61    p61 g1    main.main()"];
               Println
                 [VString "50    p50 g1      main.c() Carol before [one]"];
               Printf "52    p52 g1  %c   main.c()" [VRune 43];
               Printf "24    p24 g1  %c     main.a() 4 5" [VRune 43]]
          ∧ emitted ≠ printed (History before)
          ∧ emitted ≠ printed (History after).
Proof.
  intros tr env printed.
  split; [vm_compute; reflexivity|]. split; [vm_compute; discriminate|].
  let outcome := eval vm_compute in (Trace (Some tr) 0 [VInt 4; VInt 5] env) in
  lazymatch outcome with
  | Ok (Some ?tr') =>
      let calls := eval vm_compute in (Out tr) in
      let before := eval vm_compute in (tracked tr 1) in
      let after := eval vm_compute in (tracked tr' 1) in
      lazymatch constr:((calls, before, after)) with
      | (Some ?calls, Some ?before, Some ?after) =>
          exists tr', calls, before, after
      end
  end.
  split_and!; try (vm_compute; reflexivity).
  eexists. split_and!; [vm_compute; reflexivity | reflexivity | |];
    vm_compute; discriminate.
Qed.

(** C6 fails on two integers: the format that [messageFrom] makes up is not
    the two space-joined placeholders, it has one more space at the end, and
    so has the message. *)
Lemma messageFrom_ends_with_a_space :
  messageFrom_format [VInt 1; VInt 2] = Some ("%v %v ", [VInt 1; VInt 2])
  ∧ space_joined 2 = "%v %v"
  ∧ messageFrom [VInt 1; VInt 2] = "1 2 "
  ∧ fmt_Sprintf (space_joined 2) [VInt 1; VInt 2] = "1 2"
  ∧ messageFrom [VInt 1; VInt 2]
    ≠ fmt_Sprintf (space_joined 2) [VInt 1; VInt 2].
Proof.
  split_and!; [reflexivity | reflexivity | reflexivity | reflexivity
              | discriminate].
Qed.

Lemma Trace_locked_out_witness :
  let tr := Demo.locked in
  let env := Demo.env 1 100 Demo.in_main in
  LockGoroutine tr = true
  ∧ GoroutineID env ≠ goroutineID tr
  ∧ ∃ tr', Trace (Some tr) 0 [VString "Start"] env = Ok (Some tr')
           ∧ Out tr' = Out tr
           ∧ (∀ id, tracked tr' id = tracked tr id)
           ∧ Goroutines (Some tr') = Goroutines (Some tr)
           ∧ goroutineID tr' = goroutineID tr.
Proof.
  intros tr env.
  assert (LockGoroutine tr = true) as Hlock by reflexivity.
  assert (GoroutineID env ≠ goroutineID tr) as Hother by discriminate.
  split_and!; [exact Hlock | exact Hother |].
  exact (Trace_locked_out tr 0 [VString "Start"] env Hlock Hother).
Defined.

Lemma history_append_only_witness :
  let tr := Demo.after_three_calls in
  let env := Demo.env 1 103 Demo.in_a in
  ∃ after before goroutine',
    Trace (Some tr) 0 [VInt 4; VInt 5] env = Ok (Some after)
    ∧ tracked tr 1 = Some before
    ∧ tracked after 1 = Some goroutine'
    ∧ History before `prefix_of` History goroutine'.
Proof.
  intros tr env.
  destruct (history_append_only tr 0 [VInt 4; VInt 5] env)
    as [Hreturns Hprefix].
  destruct (Hreturns Demo_after_three_calls_present
              ltac:(vm_compute; split; discriminate)
              ltac:(vm_compute; discriminate))
    as [after Hrun].
  destruct (Hprefix _ Hrun) as (after' & Hafter & Hall).
  injection Hafter as <-.
  let before := eval vm_compute in (tracked tr 1) in
  lazymatch before with
  | Some ?before =>
      destruct (Hall 1%Z before ltac:(vm_compute; reflexivity))
        as (goroutine' & Htracked & Hgrows);
      exists after, before, goroutine'
  end.
  split_and!; [exact Hrun | vm_compute; reflexivity | exact Htracked
              | exact Hgrows].
Defined.

(** * Further properties of the package *)

(** ** TruncateError *)

Lemma substring_take (s : string) :
  ∀ n, list_ascii_of_string (String.substring 0 n s)
       = take n (list_ascii_of_string s).
Proof.
  induction s as [|c s IH]; intros [|n]; simpl; try reflexivity.
  f_equal. apply IH.
Qed.

Lemma string_length_bytes (s : string) :
  String.length s = length (list_ascii_of_string s).
Proof. induction s as [|c s IH]; simpl; [reflexivity | by rewrite IH]. Qed.

(** X1. For a message and a bound that is not negative, [TruncateError]
    returns the first [max] bytes of the message, the whole message when it
    has no more than [max] bytes; the result has at most [max] bytes, and
    truncating it again changes nothing. *)
Theorem TruncateError_first_bytes (msg : string) (max : Z) :
  (0 ≤ max)%Z →
  ∃ r, TruncateError (Some msg) max = Ok r
       ∧ list_ascii_of_string r
         = take (Z.to_nat max) (list_ascii_of_string msg)
       ∧ (Z.of_nat (String.length r) ≤ max)%Z
       ∧ ((Z.of_nat (String.length msg) ≤ max)%Z → r = msg)
       ∧ TruncateError (Some r) max = Ok r.
Proof.
  intros Hmax. unfold TruncateError. simpl.
  destruct (decide (max < Z.of_nat (String.length msg))%Z) as [Hlong|Hshort].
  - unfold string_to. destruct (decide _) as [_|?]; [|lia].
    exists (String.substring 0 (Z.to_nat max) msg).
    assert (String.length (String.substring 0 (Z.to_nat max) msg)
            = Z.to_nat max) as Hlen.
    { rewrite string_length_bytes, substring_take, length_take,
        <- string_length_bytes. lia. }
    split_and!; [reflexivity | apply substring_take | lia | lia |].
    destruct (decide (max < _)%Z) as [?|_]; [lia | reflexivity].
  - exists msg. split_and!; [reflexivity | | lia | done |].
    + rewrite take_ge; [reflexivity|]. rewrite <- string_length_bytes. lia.
    + destruct (decide (max < _)%Z) as [?|_]; [lia | reflexivity].
Qed.

Lemma TruncateError_first_bytes_witness :
  TruncateError (Some "cannot get goroutine id"%string) 10
  = Ok "cannot get"%string
  ∧ ∃ r, TruncateError (Some "cannot get goroutine id"%string) 10 = Ok r
         ∧ list_ascii_of_string r
           = take (Z.to_nat 10)
               (list_ascii_of_string "cannot get goroutine id")
         ∧ (Z.of_nat (String.length r) ≤ 10)%Z
         ∧ ((Z.of_nat (String.length "cannot get goroutine id") ≤ 10)%Z →
            r = "cannot get goroutine id"%string)
         ∧ TruncateError (Some r) 10 = Ok r.
Proof.
  split; [reflexivity|].
  apply (TruncateError_first_bytes "cannot get goroutine id" 10). lia.
Defined.

(** X2. [TruncateError] panics exactly on a nil error and on a negative
    bound: a negative [max] is below every length, and [msg[:max]] is then
    out of range. *)
Theorem TruncateError_panics (err : ptr string) (max : Z) :
  (∃ why, TruncateError err max = Panic why) ↔ err = None ∨ (max < 0)%Z.
Proof.
  unfold TruncateError, string_to. destruct err as [msg|]; simpl.
  - destruct (decide (max < Z.of_nat (String.length msg))%Z) as [Hlong|Hshort].
    + destruct (decide _) as [Hin|Hout]; split.
      * intros [why ?]. discriminate.
      * intros [?|?]; [discriminate | lia].
      * intros _. right. lia.
      * eauto.
    + split; [intros [why ?]; discriminate|]. intros [?|?]; [discriminate | lia].
  - split; eauto.
Qed.

(** ** getFrameInfos *)

Lemma getFrameInfos_loop_frames frames now :
  ∀ allFrameInfos,
    getFrameInfos_loop frames now allFrameInfos
    = allFrameInfos
      ++ ((λ frame, from frame now)
            <$> (if frames is [] then [runtime.zero] else frames)).
Proof.
  induction frames as [|frame [|next frames] IH]; intros allFrameInfos;
    [reflexivity | reflexivity |].
  change (getFrameInfos_loop (frame :: next :: frames) now allFrameInfos)
    with (getFrameInfos_loop (next :: frames) now
            (allFrameInfos ++ [from frame now])).
  rewrite IH, <- app_assoc. reflexivity.
Qed.

(** X3. [getFrameInfos] returns exactly when the capacity is not negative
    and the runtime makes a slice of [capacity] words.  It then returns the
    frames of the runtime's walk, in their order, each stamped with [now];
    when the walk yields no frame it returns one frame, the zero frame.  The
    result is never empty.  On a negative capacity, and on one for which
    the runtime makes no slice, it panics. *)
Theorem getFrameInfos_frames env skip capacity now :
  let frames := runtime_Callers env (int (2 + int (skip + 1))) capacity in
  if decide (0 ≤ capacity ∧ 8 * capacity ≤ maxAlloc env)%Z
  then ∃ captured,
      getFrameInfos env skip capacity now = Ok captured
      ∧ captured = (λ frame, from frame now)
                     <$> (if frames is [] then [runtime.zero] else frames)
      ∧ length captured = Nat.max 1 (length frames)
  else ∃ why, getFrameInfos env skip capacity now = Panic why.
Proof.
  intros frames. unfold getFrameInfos, runtimeFrames.
  destruct (decide _) as [[Hcap Hfits]|Hout].
  - rewrite !makeslice_Ok by lia. simpl.
    eexists. split_and!; [reflexivity | apply getFrameInfos_loop_frames |].
    rewrite getFrameInfos_loop_frames. fold frames. simpl.
    rewrite length_fmap. destruct frames; simpl; lia.
  - rewrite !makeslice_Panic by lia. simpl. eauto.
Qed.

(** ** indentation *)

Lemma indents_cached_app indents :
  indents_cached indents →
  indents_cached (indents ++ [repeat_string "  " (length indents)]).
Proof.
  intros Hcached level s Hs.
  destruct (decide (level < length indents)) as [Hlt|Hge].
  - rewrite lookup_app_l in Hs by exact Hlt. by apply Hcached.
  - rewrite lookup_app_r in Hs by lia.
    destruct (level - length indents) as [|k] eqn:Hk; [|by destruct k].
    injection Hs as <-. f_equal. lia.
Qed.

(** The loop of [indentation] only appends to the cache, up to the level
    asked for, and keeps it a cache of indentations. *)
Lemma indentation_loop_post level :
  ∀ n indents, n = Z.to_nat (level + 1 - Z.of_nat (length indents)) →
    indents_cached indents →
    indents_cached (indentation_loop indents level)
    ∧ indents `prefix_of` indentation_loop indents level
    ∧ length (indentation_loop indents level)
      = Nat.max (length indents) (Z.to_nat (level + 1)).
Proof.
  intros n. induction n as [|n IH]; intros indents Hn Hcached;
    rewrite indentation_loop_step; destruct (decide _) as [Hle|Hgt]; try lia.
  - split_and!; [exact Hcached | reflexivity | lia].
  - destruct (IH (indents ++ [repeat_string "  " (length indents)]))
      as (Hcached' & Hprefix & Hlen).
    + rewrite length_app. simpl. lia.
    + by apply indents_cached_app.
    + split_and!; [exact Hcached' | |].
      * etransitivity; [|exact Hprefix]. by apply prefix_app_r.
      * rewrite Hlen, length_app. simpl. lia.
Qed.

(** X4. On a cache of indentations, [indentation] returns two spaces per
    level for every level that is not negative; it changes nothing of the
    tracer but the cache, which it extends, when needed, to the level asked
    for and which remains a cache of indentations. *)
Theorem indentation_two_spaces_per_level tr level :
  (0 ≤ level)%Z →
  indents_cached (indents tr) →
  ∃ cache,
    indentation tr level
    = Ok (repeat_string "  " (Z.to_nat level), with_indents tr cache)
    ∧ indents_cached cache
    ∧ indents tr `prefix_of` cache
    ∧ length cache = Nat.max (length (indents tr)) (Z.to_nat (level + 1)).
Proof.
  intros Hlevel Hcached.
  destruct (indentation_loop_post level _ (indents tr) eq_refl Hcached)
    as (Hcached' & Hprefix & Hlen).
  exists (indentation_loop (indents tr) level).
  split_and!; [| exact Hcached' | exact Hprefix | exact Hlen].
  unfold indentation, index_Z. simpl.
  destruct (decide (level < 0)%Z) as [?|_]; [lia|].
  destruct (index_lt (indentation_loop (indents tr) level) (Z.to_nat level))
    as (s & -> & Hs); [lia|].
  simpl. by rewrite (Hcached' _ _ Hs).
Qed.

Lemma indentation_two_spaces_per_level_witness :
  ∃ cache,
    indentation Demo.start 2
    = Ok ("    "%string, with_indents Demo.start cache)
    ∧ indents_cached cache
    ∧ indents Demo.start `prefix_of` cache
    ∧ length cache = Nat.max (length (indents Demo.start)) (Z.to_nat (2 + 1)).
Proof.
  apply (indentation_two_spaces_per_level Demo.start 2); [lia|].
  intros level s Hs. discriminate.
Defined.

(** ** findLastCommonFrameIndex, further *)

Lemma same_location_diag (s : list (ptr FrameInfo)) :
  frames_present s → Forall2 same_location s s.
Proof.
  intros Hpresent. apply Forall_Forall2_diag.
  eapply Forall_impl; [exact Hpresent|]. apply same_location_refl.
Qed.

(** X5. When one stack is the other with frames added on top, for instance
    after calls or returns between two traces, the indices are 0 for the
    shorter stack and the number of added frames for the longer one. *)
Theorem findLastCommonFrameIndex_extension
    (older extra : list (ptr FrameInfo)) :
  frames_present older → extra ≠ [] →
  findLastCommonFrameIndex older (extra ++ older) = Ok (0, length extra)
  ∧ findLastCommonFrameIndex (extra ++ older) older = Ok (length extra, 0).
Proof.
  intros Hpresent Hextra.
  assert (0 < length extra) as Hpos by (destruct extra; simpl; [done|lia]).
  pose proof (same_location_diag older Hpresent) as Hsame.
  unfold findLastCommonFrameIndex. rewrite !length_app. split.
  - destruct (decide (length extra + length older < length older)) as [?|_];
      [lia|].
    replace (length extra + length older - length older) with (length extra)
      by lia.
    destruct (decide (0 = 0 ∧ length extra = 0)) as [[_ ?]|_]; [lia|].
    rewrite scanLoop_step. destruct (decide _) as [Hlt|_]; [|reflexivity].
    destruct (matchingLoop_same older (extra ++ older) 0 (length extra) _ 0
                eq_refl) as [last ->]; [|reflexivity].
    simpl. rewrite Nat.add_0_r, drop_app_length. exact Hsame.
  - destruct (decide (length older < length extra + length older)) as [_|?];
      [|lia].
    replace (length extra + length older - length older) with (length extra)
      by lia.
    destruct (decide (length extra = 0 ∧ 0 = 0)) as [[? _]|_]; [lia|].
    rewrite scanLoop_step. rewrite length_app.
    destruct (decide _) as [Hlt|_]; [|reflexivity].
    destruct (matchingLoop_same (extra ++ older) older (length extra) 0 _ 0
                eq_refl) as [last ->]; [|reflexivity].
    simpl. rewrite Nat.add_0_r, drop_app_length. exact Hsame.
Qed.

Lemma findLastCommonFrameIndex_extension_witness :
  let older := fromStrings ["Bob"; "Alice"] in
  let extra := fromStrings ["Bob"; "Alice"; "Eric"; "Carol"] in
  findLastCommonFrameIndex older (extra ++ older) = Ok (0, 4)
  ∧ findLastCommonFrameIndex (extra ++ older) older = Ok (4, 0).
Proof.
  apply (findLastCommonFrameIndex_extension
           (fromStrings ["Bob"; "Alice"])
           (fromStrings ["Bob"; "Alice"; "Eric"; "Carol"]));
    [|discriminate].
  unfold frames_present. simpl. repeat constructor; eauto.
Defined.

(** When the inner loop stops on a difference, the frames it stopped at are
    not at the same location. *)
Lemma matchingLoop_stop first second firstIdx secondIdx :
  ∀ n increment stop, n = length first - (firstIdx + increment) →
    matchingLoop first second firstIdx secondIdx increment = Ok (false, stop) →
    increment ≤ stop
    ∧ ∃ a b, first !! (firstIdx + stop) = Some a
             ∧ second !! (secondIdx + stop) = Some b
             ∧ FrameInfo_Same a b = Ok false.
Proof.
  intros n. induction n as [|n IH]; intros increment stop Hn;
    rewrite matchingLoop_step; destruct (decide _) as [Hlt|Hge];
    try lia; try discriminate.
  destruct (_ ≫= _) as [[]|] eqn:Hsame; [| |discriminate].
  - intros Hrun. apply IH in Hrun as [Hle Hstop]; [|lia].
    split; [lia | exact Hstop].
  - intros [= <-]. split; [lia|].
    apply bind_Ok in Hsame as (a & Ha & Hsame).
    apply bind_Ok in Hsame as (b & Hb & Hsame).
    exists a, b. split_and!; [by apply index_Ok | by apply index_Ok | done].
Qed.

Lemma difference_breaks_suffix first second p q k j a b :
  first !! p = Some a → second !! q = Some b →
  FrameInfo_Same a b = Ok false →
  k ≤ p → j ≤ q → p - k = q - j →
  ¬ Forall2 same_location (drop k first) (drop j second).
Proof.
  intros Ha Hb Hdiff Hk Hj Hoffset Hall.
  assert (same_location a b) as Hsame.
  { eapply (Forall2_lookup_lr _ _ _ (p - k) a b Hall).
    - rewrite lookup_drop. replace (k + (p - k)) with p by lia. exact Ha.
    - rewrite lookup_drop. replace (j + (p - k)) with q by lia. exact Hb. }
  unfold same_location in Hsame. congruence.
Qed.

(** The outer loop returns the first pair of indices, from the ones it was
    entered at, from which the stacks are at the same locations. *)
Lemma scanLoop_first first second :
  ∀ n firstIdx secondIdx oi ni, n = length first - firstIdx →
    scanLoop first second firstIdx secondIdx = Ok (oi, ni) →
    firstIdx ≤ oi
    ∧ ∀ k, firstIdx ≤ k < oi →
        ¬ Forall2 same_location (drop k first)
                                (drop (secondIdx + (k - firstIdx)) second).
Proof.
  intros n. induction n as [n IH] using lt_wf_ind.
  intros firstIdx secondIdx oi ni Hn.
  rewrite scanLoop_step. destruct (decide _) as [Hlt|Hge].
  - destruct (matchingLoop first second firstIdx secondIdx 0)
      as [[[] stop]|] eqn:Hmatch; [| |discriminate].
    + intros [= <- <-]. split; [lia|]. intros k ?. lia.
    + intros Hrun.
      destruct (matchingLoop_stop _ _ _ _ _ 0 stop eq_refl Hmatch)
        as (_ & a & b & Ha & Hb & Hdiff).
      pose proof (lookup_lt_Some _ _ _ Ha) as Hstop.
      apply IH with (m := length first - (firstIdx + (stop + 1))) in Hrun
        as [Hle Hfirst]; [|lia|reflexivity].
      split; [lia|]. intros k Hk.
      destruct (decide (k ≤ firstIdx + stop)) as [Hlow|Hhigh].
      * eapply (difference_breaks_suffix _ _ _ _ _ _ _ _ Ha Hb Hdiff); lia.
      * replace (secondIdx + (k - firstIdx))
          with (secondIdx + (stop + 1) + (k - (firstIdx + (stop + 1))))
          by lia.
        apply Hfirst. lia.
  - intros [= <- <-]. split; [lia|]. intros k ?. lia.
Qed.

(** X6. The indices that [findLastCommonFrameIndex] returns are the lowest
    ones that fit: the stacks are at the same locations from them on, and
    from no lower pair of tail-aligned indices, [(0, 0)] apart, are they at
    the same locations throughout. *)
Theorem findLastCommonFrameIndex_lowest (first second : list (ptr FrameInfo)) :
  frames_present first → frames_present second →
  first ≠ [] ∨ second ≠ [] →
  ∃ oi ni, findLastCommonFrameIndex first second = Ok (oi, ni)
           ∧ Forall2 same_location (drop oi first) (drop ni second)
           ∧ ∀ k j, k + length second = j + length first →
                    (k, j) ≠ (0, 0) → k < oi →
                    ¬ Forall2 same_location (drop k first) (drop j second).
Proof.
  intros Hfirst Hsecond Hne.
  destruct (findLastCommonFrameIndex_post first second Hfirst Hsecond Hne)
    as (oi & ni & Hrun & _ & _ & _ & Hall & _).
  exists oi, ni. split_and!; [exact Hrun | exact Hall |].
  intros k j Haligned Hnz Hk. unfold findLastCommonFrameIndex in Hrun.
  destruct (decide (length second < length first)) as [Hlt|Hge].
  - destruct (decide _) as [[? _]|_]; [lia|].
    apply scanLoop_first with (n := length first - (length first - length second))
      in Hrun as [_ Hlowest]; [|reflexivity].
    replace j with (0 + (k - (length first - length second))) by lia.
    apply Hlowest. lia.
  - destruct (decide _) as [[_ Hz]|Hnot].
    + apply scanLoop_first with (n := length first - (0 + 1))
        in Hrun as [_ Hlowest]; [|reflexivity].
      assert (k = j) as <- by lia.
      assert (k ≠ 0) by (intros ->; by apply Hnz).
      replace k with (length second - length first + 1 + (k - (0 + 1)))
        at 2 by lia.
      apply Hlowest. lia.
    + apply scanLoop_first with (n := length first - 0)
        in Hrun as [_ Hlowest]; [|reflexivity].
      replace j with (length second - length first + (k - 0)) by lia.
      apply Hlowest. lia.
Qed.

Lemma findLastCommonFrameIndex_lowest_witness :
  let first := fromStrings ["Eric"; "Carol"; "Bob"; "Alice"] in
  let second := fromStrings ["Felicia"; "Dan"; "Bob"; "Alice"] in
  ∃ oi ni, findLastCommonFrameIndex first second = Ok (oi, ni)
           ∧ Forall2 same_location (drop oi first) (drop ni second)
           ∧ ∀ k j, k + length second = j + length first →
                    (k, j) ≠ (0, 0) → k < oi →
                    ¬ Forall2 same_location (drop k first) (drop j second).
Proof.
  apply (findLastCommonFrameIndex_lowest
           (fromStrings ["Eric"; "Carol"; "Bob"; "Alice"])
           (fromStrings ["Felicia"; "Dan"; "Bob"; "Alice"]));
    [| |left; discriminate];
    unfold frames_present; simpl; repeat constructor; eauto.
Defined.

(** ** Goroutines *)

Lemma FrameInfo_Copy_same (fr : ptr FrameInfo) : FrameInfo_Copy fr = fr.
Proof. destruct fr as [[frame recorded]|]; reflexivity. Qed.

Lemma GoroutineInfo_Copy_same (goroutine : GoroutineInfo) :
  GoroutineInfo_Copy (Some goroutine) = Some goroutine.
Proof.
  destruct goroutine as [ident frames message history]. simpl. do 2 f_equal.
  - induction frames as [|fr frames IH]; [reflexivity|].
    rewrite fmap_cons, FrameInfo_Copy_same. f_equal. exact IH.
  - apply list_fmap_id.
Qed.

(** X7. The map that [Goroutines] returns holds, under every identity the
    tracer tracks, a copy with the frames, the message and the history of
    the tracked state, and nothing under any other identity; for a tracer
    that has not traced yet it is empty and not nil, and for a nil tracer it
    is nil. *)
Theorem Goroutines_snapshot (tr : ptr Tracer) :
  match tr with
  | None => Goroutines tr = None
  | Some t =>
      ∃ snapshot, Goroutines tr = Some snapshot
                  ∧ (∀ id, snapshot !! id = Some <$> tracked t id)
                  ∧ (goroutines t = None → snapshot = ∅)
  end.
Proof.
  destruct tr as [t|]; [|reflexivity].
  eexists. split_and!; [reflexivity | |].
  - intros id. rewrite lookup_fmap. unfold tracked.
    destruct (goroutines t) as [m|]; simpl.
    + destruct (m !! id) as [goroutine|]; simpl; [|reflexivity].
      f_equal. apply GoroutineInfo_Copy_same.
    + by rewrite lookup_empty.
  - intros ->. simpl. apply fmap_empty.
Qed.

(** ** setGoroutine *)

Lemma length_repeat_dash n : String.length (repeat_string "-" n) = n.
Proof. induction n as [|n IH]; simpl; [reflexivity | f_equal; exact IH]. Qed.

(** X8. When the caller is not the goroutine last seen and the tracer is not
    locked, [setGoroutine], on a tracer with a map, a logger and a display
    width that is not negative and for which the runtime makes a string
    that wide, lets the call proceed and reports a change;
    it sends one marker to the logger, with the identities of the goroutine
    last seen and of the caller between two rules as wide as the display
    width; it records the caller as the goroutine last seen; and it returns
    the state tracked for the caller, or tracks a new state without frames,
    message and history, leaving the states of the other goroutines and the
    settings as they are. *)
Theorem setGoroutine_switch tr env m calls :
  goroutines tr = Some m → Out tr = Some calls →
  LockGoroutine tr = false →
  GoroutineID env ≠ goroutineID tr →
  (0 ≤ SourceLength tr ≤ maxAlloc env)%Z →
  ∃ goroutine tr',
    setGoroutine tr env = Ok (true, true, Some goroutine, tr')
    ∧ goroutine = default {| ID := GoroutineID env; Frames := [];
                             TopMessage := ""; History := [] |}
                    (m !! GoroutineID env)
    ∧ goroutineID tr' = GoroutineID env
    ∧ Z.of_nat (String.length (marker tr')) = SourceLength tr
    ∧ Out tr'
      = Some (calls ++ [Printf "%s goroutine switched: %3d -> %-3d %s"
                          [VString (marker tr'); VInt (goroutineID tr);
                           VInt (GoroutineID env); VString (marker tr')]])
    ∧ tracked tr' (GoroutineID env) = Some goroutine
    ∧ (∀ id, id ≠ GoroutineID env → tracked tr' id = m !! id)
    ∧ settings tr' = settings tr.
Proof.
  intros Hm Hout Hlock Hother Hwidth. unfold setGoroutine.
  destruct (decide (GoroutineID env ≠ goroutineID tr)) as [_|?]; [|done].
  rewrite Hlock.
  assert (∃ mk, (if decide (Z.of_nat (String.length (marker tr))
                            ≠ SourceLength tr)
                 then m ← strings_Repeat env "-" (SourceLength tr);
                      mret (with_marker tr m)
                 else mret tr) = Ok (with_marker tr mk)
                ∧ Z.of_nat (String.length mk) = SourceLength tr)
    as (mk & -> & Hmk).
  { destruct (decide _) as [Hnew|Hkept].
    - rewrite strings_Repeat_Ok by (simpl String.length; lia).
      eexists. split; [reflexivity|]. rewrite length_repeat_dash. lia.
    - exists (marker tr). split; [by destruct tr|].
      destruct (decide (Z.of_nat (String.length (marker tr))
                        = SourceLength tr)) as [?|Hne]; [done|].
      exfalso. apply Hkept. exact Hne. }
  simpl. rewrite Hout. simpl. unfold setGoroutine_lookup. simpl.
  rewrite Hm. simpl.
  destruct (m !! GoroutineID env) as [goroutine|] eqn:Hlookup.
  - eexists _, _. split_and!; try reflexivity; try done.
    + unfold tracked. simpl. rewrite Hm. exact Hlookup.
    + intros id _. unfold tracked. simpl. by rewrite Hm.
  - eexists _, _. split_and!; try reflexivity; try done.
    + unfold tracked. simpl. apply lookup_insert_eq.
    + intros id Hid. unfold tracked. simpl. by rewrite lookup_insert_ne.
Qed.

Lemma setGoroutine_switch_witness :
  let tr := Demo.after_three_calls in
  let env := Demo.env 7 103 Demo.in_main in
  ∃ m calls goroutine tr',
    goroutines tr = Some m ∧ Out tr = Some calls
    ∧ (0 ≤ SourceLength tr ≤ maxAlloc env)%Z
    ∧ setGoroutine tr env = Ok (true, true, Some goroutine, tr')
    ∧ goroutine = default {| ID := GoroutineID env; Frames := [];
                             TopMessage := ""; History := [] |}
                    (m !! GoroutineID env)
    ∧ goroutineID tr' = GoroutineID env
    ∧ Z.of_nat (String.length (marker tr')) = SourceLength tr
    ∧ Out tr'
      = Some (calls ++ [Printf "%s goroutine switched: %3d -> %-3d %s"
                          [VString (marker tr'); VInt (goroutineID tr);
                           VInt (GoroutineID env); VString (marker tr')]])
    ∧ tracked tr' (GoroutineID env) = Some goroutine
    ∧ (∀ id, id ≠ GoroutineID env → tracked tr' id = m !! id)
    ∧ settings tr' = settings tr.
Proof.
  intros tr env.
  let m := eval vm_compute in (goroutines tr) in
  let calls := eval vm_compute in (Out tr) in
  lazymatch constr:((m, calls)) with
  | (Some ?m, Some ?calls) =>
      assert (goroutines tr = Some m) as Hm by (vm_compute; reflexivity);
      assert (Out tr = Some calls) as Hout by (vm_compute; reflexivity);
      exists m, calls
  end.
  assert (LockGoroutine tr = false) as Hlock by (vm_compute; reflexivity).
  assert (GoroutineID env ≠ goroutineID tr) as Hother
    by (vm_compute; discriminate).
  assert (0 ≤ SourceLength tr ≤ maxAlloc env)%Z as Hwidth
    by (vm_compute; split; discriminate).
  destruct (setGoroutine_switch tr env _ _ Hm Hout Hlock Hother Hwidth)
    as (goroutine & tr' & Hrun).
  exists goroutine, tr'.
  split_and!; [exact Hm | exact Hout | apply Hwidth | apply Hwidth
               | apply Hrun ..].
Defined.

(** ** Printing, line by line *)

Lemma callouts_S tr markFrom count :
  callouts tr markFrom (S count)
  = (if decide (Z.of_nat count < markFrom)%Z then calloutNew tr
     else calloutPrevious tr) :: callouts tr markFrom count.
Proof.
  unfold callouts. rewrite seq_S, reverse_app. reflexivity.
Qed.

Lemma length_callouts tr markFrom count :
  length (callouts tr markFrom count) = count.
Proof.
  unfold callouts. by rewrite length_fmap, length_reverse, length_seq.
Qed.

(** Below [markFrom] every frame is new. *)
Lemma callouts_all_new tr markFrom count :
  (Z.of_nat count ≤ markFrom)%Z →
  callouts tr markFrom count = replicate count (calloutNew tr).
Proof.
  induction count as [|count IH]; intros Hle; [reflexivity|].
  rewrite callouts_S, IH by lia.
  destruct (decide _) as [_|?]; [reflexivity | lia].
Qed.

(** The frames from [markFrom] on are known, the ones below are new. *)
Lemma callouts_split tr (new count : nat) :
  new ≤ count →
  callouts tr (Z.of_nat new) count
  = replicate (count - new) (calloutPrevious tr)
    ++ replicate new (calloutNew tr).
Proof.
  induction count as [|count IH]; intros Hle.
  - by replace new with 0 by lia.
  - destruct (decide (new = S count)) as [->|Hless].
    + rewrite callouts_all_new by lia.
      by replace (S count - S count) with 0 by lia.
    + rewrite callouts_S, IH by lia.
      destruct (decide _) as [?|_]; [lia|].
      by replace (S count - new) with (S (count - new)) by lia.
Qed.

Section Coverage.
Context `{Library}.

Lemma printFrame_line tr goroutine idx markFrom calls :
  (0 ≤ idx < Z.of_nat (length (Frames goroutine)))%Z →
  frames_present (Frames goroutine) →
  Out tr = Some calls →
  ∃ line,
    printFrame tr goroutine idx markFrom
    = Ok (with_Out
            (with_indents tr
               (indentation_loop (indents tr)
                  (Z.of_nat (length (Frames goroutine)) - idx - 1)))
            (Some (calls ++
               [Printf line
                  [VRune (if decide (idx < markFrom)%Z then calloutNew tr
                          else calloutPrevious tr)]])),
          with_History goroutine
            (History goroutine
               ++ [fmt_Sprintf line [VRune (calloutPrevious tr)]])).
Proof.
  intros Hidx Hpresent Hout. unfold printFrame, index_Z.
  destruct (decide (idx < 0)%Z) as [?|_]; [lia|].
  destruct (index_lt (Frames goroutine) (Z.to_nat idx))
    as (fr & -> & Hfr); [lia|].
  destruct (Forall_lookup_1 _ _ _ _ Hpresent Hfr) as [frame ->]. simpl.
  destruct (indentation_Ok tr
              (Z.of_nat (length (Frames goroutine)) - idx - 1)) as [s ->];
    [lia|].
  simpl. rewrite Hout. simpl. eexists. reflexivity.
Qed.

(** The printing loop from [idx] down to 0, with the callout of every line
    and what becomes of the cache of indentations. *)
Lemma printLoop_lines markFrom :
  ∀ n tr goroutine idx calls,
    n = Z.to_nat (idx + 1) →
    (idx < Z.of_nat (length (Frames goroutine)))%Z →
    frames_present (Frames goroutine) →
    Out tr = Some calls →
    ∃ cache (lines : list string),
      printLoop tr goroutine idx markFrom
      = Ok (with_Out (with_indents tr cache)
              (Some (calls
                     ++ zip_with (λ line callout, Printf line [VRune callout])
                          lines (callouts tr markFrom n))),
            with_History goroutine
              (History goroutine
                 ++ ((λ line, fmt_Sprintf line [VRune (calloutPrevious tr)])
                       <$> lines)))
      ∧ length lines = n
      ∧ (indents_cached (indents tr) → indents_cached cache).
Proof.
  intros n. induction n as [|n IH]; intros tr goroutine idx calls Hn Hidx
    Hpresent Hout; rewrite printLoop_step;
    destruct (decide _) as [Hle|Hgt]; try lia.
  - exists (indents tr), []. simpl. rewrite !app_nil_r.
    split_and!; [|reflexivity|done].
    destruct tr, goroutine. simpl in *. rewrite Hout. reflexivity.
  - destruct (printFrame_line tr goroutine idx markFrom calls)
      as (line & ->); [lia | exact Hpresent | exact Hout |].
    assert (n = Z.to_nat (idx - 1 + 1)) as Hn' by lia.
    assert (idx - 1 < Z.of_nat (length (Frames goroutine)))%Z as Hidx'
      by lia.
    match goal with
    | |- context [printLoop ?tr' ?goroutine' (idx - 1)%Z markFrom] =>
        destruct (IH tr' goroutine' (idx - 1)%Z _ Hn' Hidx' Hpresent eq_refl)
          as (cache & lines & -> & Hlen & Hcache)
    end.
    exists cache, (line :: lines). split_and!.
    + rewrite callouts_S. replace (Z.of_nat n) with idx by lia.
      simpl. rewrite <- !app_assoc. reflexivity.
    + simpl. lia.
    + intros Hcached. apply Hcache. simpl.
      by apply (indentation_loop_post _ _ _ eq_refl).
Qed.

(** [printFrameIndicesLowerThan] with its limits resolved: a negative [idx]
    stands for all frames, a negative [markFrom] marks all frames as new. *)
Lemma printFrameIndicesLowerThan_lines tr goroutine idx markFrom calls :
  (idx ≤ Z.of_nat (length (Frames goroutine)))%Z →
  frames_present (Frames goroutine) →
  Out tr = Some calls →
  let numFrames := length (Frames goroutine) in
  let count := if decide (idx < 0)%Z then numFrames else Z.to_nat idx in
  let markFrom' :=
    if decide (markFrom < 0)%Z then Z.of_nat numFrames else markFrom in
  ∃ cache (lines : list string),
    printFrameIndicesLowerThan tr goroutine idx markFrom
    = Ok (with_Out (with_indents tr cache)
            (Some (calls
                   ++ zip_with (λ line callout, Printf line [VRune callout])
                        lines (callouts tr markFrom' count))),
          with_History goroutine
            (History goroutine
               ++ ((λ line, fmt_Sprintf line [VRune (calloutPrevious tr)])
                     <$> lines)))
    ∧ length lines = count
    ∧ (indents_cached (indents tr) → indents_cached cache).
Proof.
  intros Hidx Hpresent Hout numFrames count markFrom'.
  unfold printFrameIndicesLowerThan. fold numFrames. fold markFrom'.
  set (idx' := ((if decide (idx < 0)%Z then Z.of_nat numFrames else idx)
                - 1)%Z).
  assert (idx' < Z.of_nat numFrames)%Z as Hidx'
    by (unfold idx'; destruct (decide (idx < 0)%Z); lia).
  assert (count = Z.to_nat (idx' + 1)) as Hcount
    by (unfold count, idx'; destruct (decide (idx < 0)%Z); lia).
  destruct (printLoop_lines markFrom' _ tr goroutine idx' calls Hcount
              Hidx' Hpresent Hout) as (cache & lines & Hrun & Hlen & Hcache).
  exists cache, lines. split_and!; [exact Hrun | exact Hlen | exact Hcache].
Qed.

(** X9. [printFrameIndicesLowerThan], on a goroutine whose frames are
    present and a tracer with a logger, prints the frames of index below
    [idx], all frames when [idx] is negative, from the outermost to the
    innermost: the logger receives one line for each, marked as new when
    the index of the frame is below [markFrom] (always, when [markFrom] is
    negative) and as known otherwise, and the history receives the same
    lines, all marked as known.  The frames, the identity and the message of
    the goroutine are not changed. *)
Theorem printFrameIndicesLowerThan_prints
    tr goroutine idx markFrom calls :
  (idx ≤ Z.of_nat (length (Frames goroutine)))%Z →
  frames_present (Frames goroutine) →
  Out tr = Some calls →
  let numFrames := length (Frames goroutine) in
  let count := if decide (idx < 0)%Z then numFrames else Z.to_nat idx in
  let markFrom' :=
    if decide (markFrom < 0)%Z then Z.of_nat numFrames else markFrom in
  ∃ tr' goroutine' (lines : list string),
    printFrameIndicesLowerThan tr goroutine idx markFrom
    = Ok (tr', goroutine')
    ∧ length lines = count
    ∧ Out tr'
      = Some (calls
              ++ zip_with (λ line callout, Printf line [VRune callout])
                   lines (callouts tr markFrom' count))
    ∧ (∀ j line, lines !! j = Some line →
         ∃ callout,
           callouts tr markFrom' count !! j = Some callout
           ∧ callout = if decide (Z.of_nat (count - 1 - j) < markFrom')%Z
                       then calloutNew tr else calloutPrevious tr)
    ∧ History goroutine'
      = History goroutine
        ++ ((λ line, fmt_Sprintf line [VRune (calloutPrevious tr)])
              <$> lines)
    ∧ Frames goroutine' = Frames goroutine
    ∧ ID goroutine' = ID goroutine
    ∧ TopMessage goroutine' = TopMessage goroutine
    ∧ goroutines tr' = goroutines tr
    ∧ goroutineID tr' = goroutineID tr
    ∧ settings tr' = settings tr.
Proof.
  intros Hidx Hpresent Hout numFrames count markFrom'.
  destruct (printFrameIndicesLowerThan_lines tr goroutine idx markFrom calls
              Hidx Hpresent Hout) as (cache & lines & Hrun & Hlen & _).
  fold numFrames count markFrom' in Hrun, Hlen.
  eexists _, _, lines.
  split_and!; [exact Hrun | exact Hlen | reflexivity | | reflexivity ..].
  intros j line Hj. pose proof (lookup_lt_Some _ _ _ Hj) as Hlt.
  eexists. split; [|reflexivity].
  unfold callouts. rewrite list_lookup_fmap.
  rewrite reverse_lookup by (rewrite length_seq; lia).
  rewrite length_seq, lookup_seq_lt by lia. simpl.
  replace (count - S j) with (count - 1 - j) by lia. reflexivity.
Qed.
End Coverage.

(** ** A call of Trace, line by line *)

Section Calls.
Context `{Library}.

(** The effect of a call past the guards and the resolution, as
    [Trace_runs] has it, with the callout of every line and the cache of
    indentations. *)
Lemma Trace_effect tr tr1 tr2 changed goroutine skip args env :
  proceed (Some tr) = (true, Some tr1) →
  setGoroutine tr1 env = Ok (true, changed, Some goroutine, tr2) →
  frames_present (Frames goroutine) →
  (8 * Capacity tr ≤ maxAlloc env)%Z →
  ∃ clock captured storedIdx newIdx calls m cache (lines : list string),
    ClockFn tr2 = Some clock
    ∧ getFrameInfos env (int (skip + 1)) (Capacity tr2) (clock env)
      = Ok captured
    ∧ captured ≠ []
    ∧ frames_present captured
    ∧ findLastCommonFrameIndex (Frames goroutine) captured
      = Ok (storedIdx, newIdx)
    ∧ storedIdx ≤ length (Frames goroutine)
    ∧ newIdx ≤ length captured
    ∧ storedIdx + length captured = newIdx + length (Frames goroutine)
    ∧ Forall2 same_location (drop storedIdx (Frames goroutine))
        (drop newIdx captured)
    ∧ Out tr2 = Some calls
    ∧ goroutines tr2 = Some m
    ∧ goroutineID tr2 = GoroutineID env
    ∧ Trace (Some tr) skip args env
      = Ok (Some
          (with_goroutines
             (with_Out (with_indents tr2 cache)
                (Some (calls
                   ++ ((λ line, Println [VString line])
                         <$> (if changed
                                 && OnGoroutineSwitchPrintStackHistory tr2
                              then History goroutine else []))
                   ++ zip_with (λ line callout, Printf line [VRune callout])
                        lines
                        (callouts tr2 (Z.of_nat newIdx) (length lines)))))
             (Some (<[GoroutineID env :=
                      {| ID := ID goroutine;
                         Frames := take newIdx captured
                                   ++ drop storedIdx (Frames goroutine);
                         TopMessage := messageFrom args;
                         History :=
                           History goroutine
                           ++ ((λ line, fmt_Sprintf line
                                          [VRune (calloutPrevious tr2)])
                                 <$> lines) |}]> m))))
    ∧ length lines
      = (if changed && negb (OnGoroutineSwitchPrintStackHistory tr2)
            && OnGoroutineSwitchPrintCurrentStack tr2
         then length captured else newIdx)
    ∧ (indents_cached (indents tr2) → indents_cached cache).
Proof.
  intros Hproceed Hset Hpresent Hfits.
  destruct (proceed_true _ _ Hproceed)
    as (previous & new & clock & calls0 & Htr1 & Hout0 & Hcap & _).
  destruct (setGoroutine_post _ _ _ _ _ Hset)
    as (mk & out & m & m2 & Hm & Htr2 & Hg & _ & Hchanged).
  assert (∃ calls, out = Some calls) as [calls ->].
  { destruct Hchanged as [(_ & _ & ->)|(_ & _ & _ & calls & _ & ->)];
      [|eauto]. subst tr1. simpl. eauto. }
  assert (ClockFn tr2 = Some clock) as Hclock by (subst; reflexivity).
  assert (Capacity tr2 = Capacity tr) as Hcap2 by (subst; reflexivity).
  destruct (getFrameInfos_post env (int (skip + 1)) (Capacity tr2)
              (clock env)) as (captured & Hcaptured & Hne & Hfrom);
    [lia | lia |].
  pose proof (from_present _ _ Hfrom) as Hcapt.
  destruct (findLastCommonFrameIndex_post (Frames goroutine) captured
              Hpresent Hcapt (or_intror Hne))
    as (storedIdx & newIdx & Hdiff & Hstored & Hnew & Halign & Hsame & _).
  set (frames := take newIdx captured ++ drop storedIdx (Frames goroutine)).
  assert (frames_present frames) as Hframes.
  { unfold frames, frames_present. apply Forall_app. split.
    - apply Forall_take. exact Hcapt.
    - apply Forall_drop. exact Hpresent. }
  set (printFrom :=
         if changed && negb (OnGoroutineSwitchPrintStackHistory tr2)
            && OnGoroutineSwitchPrintCurrentStack tr2
         then (-1)%Z else Z.of_nat newIdx).
  set (history := if changed && OnGoroutineSwitchPrintStackHistory tr2
                  then History goroutine else []).
  set (goroutine1 :=
         with_Frames (with_TopMessage goroutine (messageFrom args)) frames).
  assert (length frames = length captured) as Hlen.
  { unfold frames. rewrite length_app, length_take, length_drop. lia. }
  assert (printFrom ≤ Z.of_nat (length (Frames goroutine1)))%Z as Hfrom'.
  { unfold printFrom, goroutine1. simpl.
    destruct (_ && _ && _); lia. }
  destruct (printFrameIndicesLowerThan_lines
              (with_Out tr2
                 (Some (calls ++ ((λ line, Println [VString line])
                                    <$> history))))
              goroutine1 printFrom (Z.of_nat newIdx) _ Hfrom' Hframes
              eq_refl)
    as (cache & lines & Hprint & Hlines & Hcache).
  destruct (decide (Z.of_nat newIdx < 0)%Z) as [?|_]; [lia|].
  rewrite <- Hlines in Hprint.
  exists clock, captured, storedIdx, newIdx, calls, m2, cache, lines.
  split_and!; try done; try (subst tr2; reflexivity).
  - unfold Trace. rewrite Hproceed. simpl. rewrite Hset. simpl.
    rewrite Hclock. simpl. rewrite Hcaptured. simpl. rewrite Hdiff. simpl.
    unfold slice_to, slice_from.
    destruct (decide (newIdx ≤ length captured)) as [_|?]; [|lia].
    destruct (decide (storedIdx ≤ length (Frames goroutine))) as [_|?];
      [|lia].
    simpl. fold frames. fold goroutine1.
    assert ((if changed
             then if OnGoroutineSwitchPrintStackHistory tr2
                  then tr ← printHistory tr2 goroutine1;
                       Ok (tr, Z.of_nat newIdx)
                  else if OnGoroutineSwitchPrintCurrentStack tr2
                       then Ok (tr2, (-1)%Z)
                       else Ok (tr2, Z.of_nat newIdx)
             else Ok (tr2, Z.of_nat newIdx))
            = Ok (with_Out tr2
                    (Some (calls ++ ((λ line, Println [VString line])
                                       <$> history))),
                  printFrom)) as ->.
    { unfold printFrom, history, printHistory.
      assert (Out tr2 = Some calls) as Hout2 by (subst tr2; reflexivity).
      assert (with_Out tr2 (Some (calls ++ [])) = tr2) as Hsame'.
      { rewrite app_nil_r. apply with_Out_same. exact Hout2. }
      destruct changed, (OnGoroutineSwitchPrintStackHistory tr2),
        (OnGoroutineSwitchPrintCurrentStack tr2); simpl;
        rewrite ?Hsame'; try reflexivity;
        rewrite Hout2, printHistory_loop_post; reflexivity. }
    simpl. rewrite Hprint. simpl. subst tr2. simpl.
    rewrite <- !app_assoc. reflexivity.
  - rewrite Hlines. unfold printFrom, goroutine1. simpl.
    destruct (_ && _ && _); simpl; [exact Hlen|].
    destruct (decide _) as [?|_]; lia.
Qed.

(** ** The guards, exactly *)

Lemma proceed_exact tr tr1 :
  proceed (Some tr) = (true, Some tr1) →
  tr1 = with_ClockFn
          (if goroutines tr is None
           then with_callouts (with_goroutines tr (Some ∅))
                  rune_space rune_plus
           else tr)
          (Some (default time_Now (ClockFn tr))).
Proof.
  unfold proceed. destruct (_ || _); [discriminate|]. intros [= <-].
  destruct tr as [on out cap sl lock omit [clock|] cur hist [m|] id ind mk
                  prev new]; reflexivity.
Qed.

Lemma proceed_active tr calls :
  On tr = true → Out tr = Some calls → (0 < Capacity tr)%Z →
  ∃ tr1, proceed (Some tr) = (true, Some tr1).
Proof.
  intros HOn HOut HCap. unfold proceed. rewrite HOn, HOut. simpl.
  rewrite bool_decide_eq_false_2 by lia. eauto.
Qed.

Lemma proceed_inactive tr :
  On tr = false ∨ Out tr = None ∨ (Capacity tr ≤ 0)%Z →
  proceed (Some tr) = (false, Some tr).
Proof.
  intros Hoff. unfold proceed.
  destruct (On tr); simpl; [|reflexivity].
  destruct (Out tr); simpl; [|reflexivity].
  destruct Hoff as [?|[?|Hcap]]; [discriminate | discriminate |].
  by rewrite bool_decide_eq_true_2.
Qed.

(** Once the map and the clock are there, the guards change nothing. *)
Lemma proceed_again tr calls m clock :
  On tr = true → Out tr = Some calls → (0 < Capacity tr)%Z →
  goroutines tr = Some m → ClockFn tr = Some clock →
  proceed (Some tr) = (true, Some tr).
Proof.
  intros HOn HOut HCap Hm Hclock. unfold proceed. rewrite HOn, HOut. simpl.
  rewrite bool_decide_eq_false_2 by lia. rewrite Hm, Hclock. reflexivity.
Qed.

Lemma tracked_proceed tr tr1 id :
  proceed (Some tr) = (true, Some tr1) → tracked tr1 id = tracked tr id.
Proof.
  intros Hproceed. rewrite (proceed_exact _ _ Hproceed). unfold tracked.
  destruct (goroutines tr) as [m|] eqn:Hm; simpl; [by rewrite Hm|].
  apply lookup_empty.
Qed.

(** X10. The guards of [Trace] let a tracer pass exactly when it is on, has a
    logger and a positive capacity.  A tracer they stop is left as it is.
    One they let pass gets an empty map of goroutines when it had none, and
    only then its callouts are set to a space and a plus sign; it gets the
    clock of the system when it had none, a clock that was set is kept; no
    other field changes, and the guards leave the resulting tracer as it is
    when they run again. *)
Theorem proceed_initialises_once (tr : Tracer) :
  let active :=
    On tr = true ∧ is_Some (Out tr) ∧ (0 < Capacity tr)%Z in
  (active ∨ proceed (Some tr) = (false, Some tr))
  ∧ (active →
     ∃ tr1, proceed (Some tr) = (true, Some tr1)
       ∧ proceed (Some tr1) = (true, Some tr1)
       ∧ goroutines tr1 = Some (default ∅ (goroutines tr))
       ∧ ClockFn tr1 = Some (default time_Now (ClockFn tr))
       ∧ (calloutPrevious tr1, calloutNew tr1)
         = (if goroutines tr is None then (rune_space, rune_plus)
            else (calloutPrevious tr, calloutNew tr))
       ∧ Out tr1 = Out tr ∧ settings tr1 = settings tr
       ∧ goroutineID tr1 = goroutineID tr ∧ indents tr1 = indents tr
       ∧ marker tr1 = marker tr)
  ∧ proceed None = (false, None).
Proof.
  intros active. split_and!; [| |reflexivity].
  - destruct (On tr) eqn:HOn;
      [|right; apply proceed_inactive; by left].
    destruct (Out tr) as [calls|] eqn:HOut;
      [|right; apply proceed_inactive; right; by left].
    destruct (decide (0 < Capacity tr)%Z) as [Hcap|Hcap].
    + left. unfold active. split_and!; eauto.
    + right. apply proceed_inactive. right. right. lia.
  - intros (HOn & [calls HOut] & Hcap).
    destruct (proceed_active tr calls HOn HOut Hcap) as [tr1 Hproceed].
    pose proof (proceed_exact _ _ Hproceed) as Htr1.
    exists tr1. split; [exact Hproceed|].
    assert (goroutines tr1 = Some (default ∅ (goroutines tr))) as Hm
      by (subst tr1; by destruct (goroutines tr) eqn:Hm; simpl; rewrite ?Hm).
    assert (ClockFn tr1 = Some (default time_Now (ClockFn tr))) as Hclock
      by (subst tr1; reflexivity).
    assert (On tr1 = true ∧ Out tr1 = Some calls
            ∧ Capacity tr1 = Capacity tr) as (HOn1 & HOut1 & Hcap1).
    { subst tr1. destruct (goroutines tr); simpl; by rewrite HOn, HOut. }
    split_and!; [|exact Hm | exact Hclock | ..];
      try (subst tr1; destruct (goroutines tr); reflexivity).
    eapply proceed_again; [exact HOn1 | exact HOut1 | lia | exact Hm
                           | exact Hclock].
Qed.

Lemma proceed_initialises_once_witness :
  let tr := Demo.start in
  ∃ tr1, proceed (Some tr) = (true, Some tr1)
    ∧ proceed (Some tr1) = (true, Some tr1)
    ∧ goroutines tr1 = Some ∅
    ∧ (calloutPrevious tr1, calloutNew tr1) = (rune_space, rune_plus).
Proof.
  intros tr.
  destruct (proceed_initialises_once tr) as (_ & Hactive & _).
  destruct Hactive as (tr1 & Hfirst & Hagain & Hm & _ & Hcallouts & _).
  - split_and!; [reflexivity | by eexists | reflexivity].
  - exists tr1. split_and!; [exact Hfirst | exact Hagain | exact Hm
                             | exact Hcallouts].
Defined.

(** ** The resolution of the goroutine, seen from the tracer of the call *)

Lemma resolution tr tr1 tr2 changed goroutine env :
  proceed (Some tr) = (true, Some tr1) →
  setGoroutine tr1 env = Ok (true, changed, Some goroutine, tr2) →
  ∃ m, goroutines tr2 = Some m
    ∧ m !! GoroutineID env = Some goroutine
    ∧ (∀ id, id ≠ GoroutineID env → m !! id = tracked tr id)
    ∧ (tracked tr (GoroutineID env) = Some goroutine
       ∨ tracked tr (GoroutineID env) = None
         ∧ goroutine = {| ID := GoroutineID env; Frames := [];
                          TopMessage := ""; History := [] |})
    ∧ settings tr2 = settings tr
    ∧ goroutineID tr2 = GoroutineID env
    ∧ ClockFn tr2 = Some (default time_Now (ClockFn tr))
    ∧ indents tr2 = indents tr
    ∧ calloutNew tr2 = calloutNew tr1
    ∧ calloutPrevious tr2 = calloutPrevious tr1.
Proof.
  intros Hproceed Hset.
  pose proof (λ id, tracked_proceed tr tr1 id Hproceed) as Htracked.
  pose proof (proceed_exact _ _ Hproceed) as Htr1.
  destruct (setGoroutine_post _ _ _ _ _ Hset)
    as (mk & out & m & m2 & Hm & -> & Hg & Hcases & _).
  assert (∀ id, m !! id = tracked tr id) as Hm'.
  { intros id. rewrite <- Htracked. unfold tracked. by rewrite Hm. }
  exists m2. split_and!; [reflexivity | exact Hg | | | | reflexivity | |
                          | reflexivity | reflexivity].
  - intros id Hid. destruct Hcases as [[_ ->]|(_ & -> & _)]; [apply Hm'|].
    rewrite lookup_insert_ne by done. apply Hm'.
  - destruct Hcases as [[Hfound _]|(Hnone & _ & ->)].
    + left. by rewrite <- Hm'.
    + right. by rewrite <- Hm'.
  - subst tr1. by destruct (goroutines tr).
  - subst tr1. reflexivity.
  - subst tr1. by destruct (goroutines tr).
Qed.

(** The three ways a call of [Trace] returns: stopped by the guards,
    refused by the resolution of the goroutine, or run to its end. *)
Lemma Trace_outcome tr skip args env tr' :
  Trace (Some tr) skip args env = Ok tr' →
  (proceed (Some tr) = (false, Some tr) ∧ tr' = Some tr)
  ∨ (∃ tr1, proceed (Some tr) = (true, Some tr1)
       ∧ LockGoroutine tr1 = true ∧ GoroutineID env ≠ goroutineID tr1
       ∧ tr' = Some tr1)
  ∨ (∃ tr1 tr2 changed goroutine,
       proceed (Some tr) = (true, Some tr1)
       ∧ setGoroutine tr1 env = Ok (true, changed, Some goroutine, tr2)).
Proof.
  intros Hrun. destruct (proceed_cases tr) as [[tr1 Hproceed]|Hproceed].
  - right. unfold Trace in Hrun. rewrite Hproceed in Hrun. simpl in Hrun.
    apply bind_Ok in Hrun
      as ([[[proceeds changed] goroutine] tr2] & Hset & Hrun).
    destruct (setGoroutine_cases _ _ _ _ _ _ Hset)
      as [(-> & -> & -> & Hlock & Hne)|(-> & [g ->])].
    + left. simpl in Hrun. injection Hrun as <-. exists tr1. done.
    + right. exists tr1, tr2, changed, g. done.
  - left. unfold Trace in Hrun. rewrite Hproceed in Hrun. simpl in Hrun.
    injection Hrun as <-. done.
Qed.

(** X11. A tracer that is off, has no logger or has a capacity that is not
    positive is returned by [Trace] exactly as it was: nothing is captured,
    stored or sent to the logger, whatever the caller and the arguments. *)
Theorem Trace_inactive tr skip args env :
  On tr = false ∨ Out tr = None ∨ (Capacity tr ≤ 0)%Z →
  Trace (Some tr) skip args env = Ok (Some tr).
Proof.
  intros Hoff. unfold Trace. by rewrite (proceed_inactive tr Hoff).
Qed.

(** X12. The functions of the package on [Global]: after [On(false)] a call
    of [Trace] returns and leaves [Global] as it is, and [On] with the
    former value then restores [Global] as it was before [On(false)].  On a
    nil [Global], [On] panics and [Trace] returns. *)
Theorem On_false_silences_Trace (Global : Tracer) args env :
  (∃ off, trace.On (Some Global) false = Ok (Some off)
     ∧ trace.Trace (Some off) args env = Ok (Some off)
     ∧ trace.On (Some off) (On Global) = Ok (Some Global))
  ∧ trace.Trace None args env = Ok None
  ∧ ∀ on, ∃ why, trace.On None on = Panic why.
Proof.
  split_and!.
  - exists (with_On Global false). split_and!; [reflexivity | |].
    + unfold trace.Trace, Trace.
      rewrite (proceed_inactive (with_On Global false)) by (by left).
      reflexivity.
    + unfold trace.On. simpl. by destruct Global.
  - reflexivity.
  - intros on. unfold trace.On. simpl. eauto.
Qed.

(** X13. Whenever [Trace] returns, every state that the tracer holds is
    under the identity the state carries, provided that was so before the
    call. *)
Theorem Trace_keeps_ids_consistent tr skip args env tr' :
  ids_consistent tr →
  Trace (Some tr) skip args env = Ok (Some tr') →
  ids_consistent tr'.
Proof.
  intros Hids Hrun.
  destruct (Trace_outcome _ _ _ _ _ Hrun)
    as [[_ [= <-]]|[(tr1 & Hproceed & _ & _ & [= <-])
                   |(tr1 & tr2 & changed & goroutine & Hproceed & Hset)]].
  - exact Hids.
  - intros id g. rewrite (tracked_proceed _ _ _ Hproceed). apply Hids.
  - destruct (Trace_inv _ _ _ _ _ _ _ _ _ Hproceed Hset Hrun)
      as (cache & out & frames & extra & [= ->]).
    destruct (resolution _ _ _ _ _ _ Hproceed Hset)
      as (m & Hm & Hg & Hother & Hcases & _).
    intros id g. unfold tracked. simpl. rewrite Hm. simpl.
    destruct (decide (id = GoroutineID env)) as [->|Hid].
    + rewrite lookup_insert_eq. intros [= <-]. simpl.
      destruct Hcases as [Hfound|[_ ->]]; [|reflexivity].
      exact (Hids _ _ Hfound).
    + rewrite lookup_insert_ne by done. rewrite Hother by done.
      apply Hids.
Qed.

(** X14. Whenever [Trace] returns, the settings of the tracer and the states
    of all goroutines other than the caller are as they were, and a clock
    that was set is kept. *)
Theorem Trace_leaves_the_rest tr skip args env tr' :
  Trace (Some tr) skip args env = Ok (Some tr') →
  settings tr' = settings tr
  ∧ (∀ id, id ≠ GoroutineID env → tracked tr' id = tracked tr id)
  ∧ (∀ clock, ClockFn tr = Some clock → ClockFn tr' = Some clock).
Proof.
  intros Hrun.
  destruct (Trace_outcome _ _ _ _ _ Hrun)
    as [[_ [= <-]]|[(tr1 & Hproceed & _ & _ & [= ->])
                   |(tr1 & tr2 & changed & goroutine & Hproceed & Hset)]].
  - done.
  - pose proof (proceed_exact _ _ Hproceed) as Htr1. split_and!.
    + subst tr1. by destruct (goroutines tr).
    + intros id _. apply (tracked_proceed _ _ _ Hproceed).
    + intros clock Hclock. subst tr1. simpl. by rewrite Hclock.
  - destruct (Trace_inv _ _ _ _ _ _ _ _ _ Hproceed Hset Hrun)
      as (cache & out & frames & extra & [= ->]).
    destruct (resolution _ _ _ _ _ _ Hproceed Hset)
      as (m & Hm & Hg & Hother & _ & Hsettings & _ & Hclock2 & _).
    split_and!.
    + exact Hsettings.
    + intros id Hid. unfold tracked. simpl. rewrite Hm. simpl.
      rewrite lookup_insert_ne by done. by apply Hother.
    + intros clock Hclock. simpl. rewrite Hclock2, Hclock. reflexivity.
Qed.

(** ** What a call prints *)

Lemma resolution_same tr tr1 tr2 goroutine env :
  proceed (Some tr) = (true, Some tr1) →
  setGoroutine tr1 env = Ok (true, false, Some goroutine, tr2) →
  Out tr2 = Out tr ∧ GoroutineID env = goroutineID tr.
Proof.
  intros Hproceed Hset. pose proof (proceed_exact _ _ Hproceed) as Htr1.
  destruct (setGoroutine_post _ _ _ _ _ Hset)
    as (mk & out & m & m2 & _ & -> & _ & _
        & [(_ & Hid & ->)|([=] & _)]).
  rewrite Hid. subst tr1. split; by destruct (goroutines tr).
Qed.

Lemma zip_with_callouts_new tr (lines : list string) markFrom :
  (Z.of_nat (length lines) ≤ markFrom)%Z →
  zip_with (λ line callout, Printf line [VRune callout]) lines
    (callouts tr markFrom (length lines))
  = (λ line, Printf line [VRune (calloutNew tr)]) <$> lines.
Proof.
  intros Hle. rewrite callouts_all_new by exact Hle.
  by rewrite zip_with_replicate_r.
Qed.

(** X15. On a call from the goroutine that was traced last, for which the
    runtime makes the slices of [Capacity] words that the capture asks for,
    the logger receives no marker and no history: it receives one line for each newly
    discovered frame (the frames of index below [newIdx]), marked as new,
    and these lines, marked as known, are appended to the history of the
    goroutine. *)
Theorem Trace_same_goroutine_prints_new_frames
    tr tr1 tr2 goroutine skip args env :
  proceed (Some tr) = (true, Some tr1) →
  setGoroutine tr1 env = Ok (true, false, Some goroutine, tr2) →
  frames_present (Frames goroutine) →
  (8 * Capacity tr ≤ maxAlloc env)%Z →
  ∃ clock captured storedIdx newIdx calls tr' goroutine'
    (lines : list string),
    ClockFn tr2 = Some clock
    ∧ getFrameInfos env (int (skip + 1)) (Capacity tr2) (clock env)
      = Ok captured
    ∧ findLastCommonFrameIndex (Frames goroutine) captured
      = Ok (storedIdx, newIdx)
    ∧ Out tr = Some calls
    ∧ Trace (Some tr) skip args env = Ok (Some tr')
    ∧ length lines = newIdx
    ∧ Out tr'
      = Some (calls
              ++ ((λ line, Printf line [VRune (calloutNew tr')]) <$> lines))
    ∧ tracked tr' (GoroutineID env) = Some goroutine'
    ∧ History goroutine'
      = History goroutine
        ++ ((λ line, fmt_Sprintf line [VRune (calloutPrevious tr')])
              <$> lines).
Proof.
  intros Hproceed Hset Hpresent Hfits.
  destruct (Trace_effect _ _ _ _ _ skip args _ Hproceed Hset Hpresent
              Hfits)
    as (clock & captured & storedIdx & newIdx & calls & m & cache & lines
        & Hclock & Hcaptured & _ & _ & Hdiff & _ & _ & _ & _ & Hout2 & _ & _
        & Hrun & Hlines & _).
  cbn [andb] in Hrun, Hlines. rewrite fmap_nil, app_nil_l in Hrun.
  rewrite zip_with_callouts_new in Hrun by lia.
  destruct (resolution_same _ _ _ _ _ Hproceed Hset) as [Hout _].
  eexists clock, captured, storedIdx, newIdx, calls, _, _, lines.
  split_and!; [exact Hclock | exact Hcaptured | exact Hdiff
               | by rewrite <- Hout | exact Hrun | exact Hlines
               | reflexivity
               | unfold tracked; simpl; apply lookup_insert_eq
               | reflexivity].
Qed.

(** X16. The first call from a goroutine the tracer does not track yet,
    when the runtime makes the slices of [Capacity] words that the capture
    asks for: after the marker of the switch, if any, the logger receives one line
    for every captured frame, marked as new, whatever the tracer is set to
    print on a switch; the state stored for the goroutine carries its
    identity, the captured frames, the message of the call and these lines,
    marked as known, as its history. *)
Theorem Trace_first_call_of_goroutine
    tr tr1 tr2 changed goroutine skip args env :
  proceed (Some tr) = (true, Some tr1) →
  setGoroutine tr1 env = Ok (true, changed, Some goroutine, tr2) →
  tracked tr (GoroutineID env) = None →
  (8 * Capacity tr ≤ maxAlloc env)%Z →
  ∃ clock captured calls tr' (lines : list string),
    ClockFn tr2 = Some clock
    ∧ getFrameInfos env (int (skip + 1)) (Capacity tr2) (clock env)
      = Ok captured
    ∧ Out tr2 = Some calls
    ∧ Trace (Some tr) skip args env = Ok (Some tr')
    ∧ length lines = length captured
    ∧ 1 ≤ length lines
    ∧ Out tr'
      = Some (calls
              ++ ((λ line, Printf line [VRune (calloutNew tr')]) <$> lines))
    ∧ tracked tr' (GoroutineID env)
      = Some {| ID := GoroutineID env; Frames := captured;
                TopMessage := messageFrom args;
                History :=
                  (λ line, fmt_Sprintf line [VRune (calloutPrevious tr')])
                    <$> lines |}.
Proof.
  intros Hproceed Hset Hnone Hfits.
  destruct (resolution _ _ _ _ _ _ Hproceed Hset)
    as (_ & _ & _ & _ & [Hfound|[_ ->]] & _); [congruence|].
  assert (frames_present
            (Frames {| ID := GoroutineID env; Frames := [];
                       TopMessage := ""; History := [] |})) as Hpresent
    by constructor.
  destruct (Trace_effect _ _ _ _ _ skip args _ Hproceed Hset Hpresent
              Hfits)
    as (clock & captured & storedIdx & newIdx & calls & m & cache & lines
        & Hclock & Hcaptured & Hne & _ & _ & Hstored & _ & Halign & _
        & Hout2 & _ & _ & Hrun & Hlines & _).
  simpl in Hstored, Halign.
  assert (storedIdx = 0) as -> by lia.
  assert (newIdx = length captured) as -> by lia.
  assert (length lines = length captured) as Hlen
    by (destruct (_ && _ && _); exact Hlines).
  assert (1 ≤ length captured) as Hpos
    by (destruct captured; simpl; [done|lia]).
  cbn [History Frames ID] in Hrun.
  assert ((if changed && OnGoroutineSwitchPrintStackHistory tr2
           then @nil string else []) = []) as Hnil
    by (destruct (changed && OnGoroutineSwitchPrintStackHistory tr2);
        reflexivity).
  rewrite Hnil in Hrun.
  rewrite fmap_nil, app_nil_l, take_ge, drop_0, app_nil_r, app_nil_l in Hrun
    by lia.
  rewrite zip_with_callouts_new in Hrun by lia.
  eexists clock, captured, calls, _, lines.
  split_and!; [exact Hclock | exact Hcaptured | exact Hout2 | exact Hrun
               | exact Hlen | lia | reflexivity |].
  unfold tracked. simpl. apply lookup_insert_eq.
Qed.

(** X17. On a call on which the goroutine changed, with
    [OnGoroutineSwitchPrintStackHistory] unset and
    [OnGoroutineSwitchPrintCurrentStack] set, and for which the runtime
    makes the slices of [Capacity] words that the capture asks for, the
    logger receives, after
    the marker of the switch, one line for every frame of the current
    stack, from the outermost to the innermost: the frames known before are
    marked as known, the newly discovered ones (of index below [newIdx]) as
    new.  All these lines, marked as known, are appended to the history of
    the goroutine, the lines of the frames known before included. *)
Theorem Trace_switch_prints_current_stack
    tr tr1 tr2 goroutine skip args env :
  proceed (Some tr) = (true, Some tr1) →
  setGoroutine tr1 env = Ok (true, true, Some goroutine, tr2) →
  OnGoroutineSwitchPrintStackHistory tr = false →
  OnGoroutineSwitchPrintCurrentStack tr = true →
  frames_present (Frames goroutine) →
  (8 * Capacity tr ≤ maxAlloc env)%Z →
  ∃ clock captured storedIdx newIdx calls tr' goroutine'
    (lines : list string),
    ClockFn tr2 = Some clock
    ∧ getFrameInfos env (int (skip + 1)) (Capacity tr2) (clock env)
      = Ok captured
    ∧ findLastCommonFrameIndex (Frames goroutine) captured
      = Ok (storedIdx, newIdx)
    ∧ newIdx ≤ length captured
    ∧ Out tr2 = Some calls
    ∧ Trace (Some tr) skip args env = Ok (Some tr')
    ∧ length lines = length captured
    ∧ Out tr'
      = Some (calls
              ++ zip_with (λ line callout, Printf line [VRune callout])
                   lines
                   (replicate (length captured - newIdx)
                      (calloutPrevious tr')
                    ++ replicate newIdx (calloutNew tr')))
    ∧ tracked tr' (GoroutineID env) = Some goroutine'
    ∧ History goroutine'
      = History goroutine
        ++ ((λ line, fmt_Sprintf line [VRune (calloutPrevious tr')])
              <$> lines).
Proof.
  intros Hproceed Hset Hhistory Hcurrent Hpresent Hfits.
  destruct (resolution _ _ _ _ _ _ Hproceed Hset)
    as (_ & _ & _ & _ & _ & Hsettings & _).
  injection Hsettings as _ _ _ _ _ Hcurrent2 Hhistory2.
  rewrite Hcurrent in Hcurrent2. rewrite Hhistory in Hhistory2.
  destruct (Trace_effect _ _ _ _ _ skip args _ Hproceed Hset Hpresent
              Hfits)
    as (clock & captured & storedIdx & newIdx & calls & m & cache & lines
        & Hclock & Hcaptured & _ & _ & Hdiff & _ & Hnew & _ & _ & Hout2 & _
        & _ & Hrun & Hlines & _).
  rewrite Hhistory2 in Hrun. rewrite Hcurrent2, Hhistory2 in Hlines.
  cbn [andb negb] in Hrun, Hlines. rewrite fmap_nil, app_nil_l in Hrun.
  rewrite Hlines, callouts_split in Hrun by exact Hnew.
  eexists clock, captured, storedIdx, newIdx, calls, _, _, lines.
  split_and!; [exact Hclock | exact Hcaptured | exact Hdiff | exact Hnew
               | exact Hout2 | exact Hrun | exact Hlines | reflexivity
               | unfold tracked; simpl; apply lookup_insert_eq
               | reflexivity].
Qed.

Lemma setGoroutine_negative_width tr env :
  LockGoroutine tr = false → GoroutineID env ≠ goroutineID tr →
  (SourceLength tr < 0)%Z →
  setGoroutine tr env = Panic "strings: negative Repeat count".
Proof.
  intros Hlock Hne Hwidth. unfold setGoroutine.
  destruct (decide _) as [_|?]; [|done]. rewrite Hlock.
  destruct (decide _) as [_|?]; [|lia].
  unfold strings_Repeat. destruct (decide _) as [_|?]; [|lia].
  reflexivity.
Qed.

(** X18. With a negative [SourceLength], a call of [Trace] on an active
    tracer from a goroutine other than the one traced last panics, unless
    [LockGoroutine] refuses the call: the marker of the switch is made by
    [strings.Repeat] with [SourceLength] as its count. *)
Theorem Trace_negative_width_panics tr calls skip args env :
  On tr = true → Out tr = Some calls → (0 < Capacity tr)%Z →
  LockGoroutine tr = false →
  GoroutineID env ≠ goroutineID tr →
  (SourceLength tr < 0)%Z →
  Trace (Some tr) skip args env = Panic "strings: negative Repeat count".
Proof.
  intros HOn HOut Hcap Hlock Hne Hwidth.
  destruct (proceed_active tr calls HOn HOut Hcap) as [tr1 Hproceed].
  pose proof (proceed_exact _ _ Hproceed) as Htr1.
  unfold Trace. rewrite Hproceed. simpl.
  rewrite (setGoroutine_negative_width tr1 env); [reflexivity | | |];
    subst tr1; by destruct (goroutines tr).
Qed.

(** X19. Whenever [Trace] returns from a tracer whose stored frames are
    present, the cache of indentations holds two spaces per level at every
    level it covers, provided it did before the call. *)
Theorem Trace_keeps_indents_cached tr skip args env tr' :
  stored_frames_present tr →
  indents_cached (indents tr) →
  Trace (Some tr) skip args env = Ok (Some tr') →
  indents_cached (indents tr').
Proof.
  intros Hstored Hcached Hrun.
  destruct (Trace_outcome _ _ _ _ _ Hrun)
    as [[_ [= <-]]|[(tr1 & Hproceed & _ & _ & [= ->])
                   |(tr1 & tr2 & changed & goroutine & Hproceed & Hset)]].
  - exact Hcached.
  - rewrite (proceed_exact _ _ Hproceed). by destruct (goroutines tr).
  - pose proof (resolved_frames_present _ _ _ _ _ _ Hstored Hproceed Hset)
      as Hpresent.
    destruct (resolution _ _ _ _ _ _ Hproceed Hset)
      as (_ & _ & _ & _ & _ & _ & _ & _ & Hindents & _).
    pose proof (Trace_fits _ _ _ _ _ _ _ _ _ Hproceed Hset Hrun) as Hfits.
    destruct (Trace_effect _ _ _ _ _ skip args _ Hproceed Hset Hpresent
                Hfits)
      as (clock & captured & storedIdx & newIdx & calls & m & cache & lines
          & _ & _ & _ & _ & _ & _ & _ & _ & _ & _ & _ & _ & Hrun' & _
          & Hcache).
    rewrite Hrun' in Hrun. injection Hrun as <-. simpl.
    apply Hcache. by rewrite Hindents.
Qed.

(** ** Two calls in a row *)

Lemma same_location_trans (a b c : ptr FrameInfo) :
  same_location a b → same_location b c → same_location a c.
Proof.
  unfold same_location, FrameInfo_Same.
  destruct a as [a|], b as [b|], c as [c|]; simpl; try discriminate.
  intros [= Hab] [= Hbc]. apply bool_decide_eq_true_1 in Hab, Hbc.
  f_equal. apply bool_decide_eq_true_2. congruence.
Qed.

(** Two stacks at the same locations throughout differ, for [Trace], in
    their innermost frame only. *)
Lemma findLastCommonFrameIndex_same (older newer : list (ptr FrameInfo)) :
  1 ≤ length older →
  Forall2 same_location older newer →
  findLastCommonFrameIndex older newer = Ok (1, 1).
Proof.
  intros Hpos Hall. pose proof (Forall2_length _ _ _ Hall) as Hlen.
  unfold findLastCommonFrameIndex.
  destruct (decide (length newer < length older)) as [?|_]; [lia|].
  replace (length newer - length older) with 0 by lia.
  destruct (decide _) as [_|Hnz]; [|exfalso; apply Hnz; split; lia].
  simpl. rewrite scanLoop_step. destruct (decide _) as [Hlt|_]; [|reflexivity].
  destruct (matchingLoop_same older newer 1 1 _ 0 eq_refl) as [last ->];
    [|reflexivity].
  simpl. destruct Hall as [|a b older newer _ Hall]; [constructor|].
  simpl. rewrite !drop_0. exact Hall.
Qed.

(** The same walk of the runtime, captured at two times, gives stacks at
    the same locations. *)
Lemma getFrameInfos_same_walk env env' skip capacity now now'
    captured captured' :
  runtime_Callers env' = runtime_Callers env →
  getFrameInfos env skip capacity now = Ok captured →
  getFrameInfos env' skip capacity now' = Ok captured' →
  Forall2 same_location captured captured'.
Proof.
  unfold getFrameInfos, runtimeFrames. intros Hwalk Hfirst Hsecond.
  apply bind_Ok in Hfirst as (frames & Hframes & Hfirst).
  apply bind_Ok in Hframes as (? & _ & [= <-]).
  apply bind_Ok in Hfirst as (? & _ & [= <-]).
  apply bind_Ok in Hsecond as (frames' & Hframes' & Hsecond).
  apply bind_Ok in Hframes' as (? & _ & [= <-]).
  apply bind_Ok in Hsecond as (? & _ & [= <-]).
  rewrite Hwalk, !getFrameInfos_loop_frames. simpl.
  apply Forall2_fmap, Forall_Forall2_diag, Forall_forall.
  intros frame _. unfold same_location, FrameInfo_Same, from. simpl.
  f_equal. by apply bool_decide_eq_true_2.
Qed.

Lemma setGoroutine_same tr env m goroutine :
  GoroutineID env = goroutineID tr →
  goroutines tr = Some m →
  m !! GoroutineID env = Some goroutine →
  setGoroutine tr env = Ok (true, false, Some goroutine, tr).
Proof.
  intros Hid Hm Hg. unfold setGoroutine.
  destruct (decide _) as [?|_]; [done|].
  unfold setGoroutine_lookup. simpl. rewrite Hm. simpl. rewrite Hg.
  rewrite Hid. by destruct tr.
Qed.

(** X20. When a call of [Trace] runs past the guards and the resolution
    and the next call comes from the same goroutine with the same stack,
    whatever its arguments and the time, and the runtime makes for both
    calls the slices of [Capacity] words that the capture asks for, then
    both calls return and the second call sends exactly one line to the logger,
    marked as new: the line of the innermost frame.  The stored stack keeps
    its length, all its frames but the innermost are the stored frames
    themselves, and the line, marked as known, is appended to the
    history. *)
Theorem Trace_again_from_same_stack
    tr tr1 tr2 changed goroutine skip args args' env env' :
  proceed (Some tr) = (true, Some tr1) →
  setGoroutine tr1 env = Ok (true, changed, Some goroutine, tr2) →
  frames_present (Frames goroutine) →
  GoroutineID env' = GoroutineID env →
  runtime_Callers env' = runtime_Callers env →
  (8 * Capacity tr ≤ maxAlloc env)%Z →
  (8 * Capacity tr ≤ maxAlloc env')%Z →
  ∃ tr' tr'' calls goroutine' goroutine'' line,
    Trace (Some tr) skip args env = Ok (Some tr')
    ∧ Out tr' = Some calls
    ∧ tracked tr' (GoroutineID env) = Some goroutine'
    ∧ Trace (Some tr') skip args' env' = Ok (Some tr'')
    ∧ Out tr'' = Some (calls ++ [Printf line [VRune (calloutNew tr'')]])
    ∧ tracked tr'' (GoroutineID env) = Some goroutine''
    ∧ length (Frames goroutine'') = length (Frames goroutine')
    ∧ drop 1 (Frames goroutine'') = drop 1 (Frames goroutine')
    ∧ TopMessage goroutine'' = messageFrom args'
    ∧ History goroutine''
      = History goroutine'
        ++ [fmt_Sprintf line [VRune (calloutPrevious tr'')]].
Proof.
  intros Hproceed Hset Hpresent Hid Hwalk Hfits Hfits'.
  destruct (proceed_true _ _ Hproceed)
    as (_ & _ & _ & calls0 & _ & _ & Hcap & HOn).
  destruct (resolution _ _ _ _ _ _ Hproceed Hset)
    as (_ & _ & _ & _ & _ & Hsettings & _).
  injection Hsettings as HOn2 Hcap2 _ _ _ _ _.
  destruct (Trace_effect _ _ _ _ _ skip args _ Hproceed Hset Hpresent
              Hfits)
    as (clock & captured & storedIdx & newIdx & calls & m & cache & lines
        & Hclock & Hcaptured & Hne & Hcapt & Hdiff & Hstored & Hnew & Halign
        & Hsame & Hout2 & Hm2 & Hid2 & Hrun & Hlines & _).
  set (goroutine' :=
         {| ID := ID goroutine;
            Frames := take newIdx captured
                      ++ drop storedIdx (Frames goroutine);
            TopMessage := messageFrom args;
            History :=
              History goroutine
              ++ ((λ line, fmt_Sprintf line [VRune (calloutPrevious tr2)])
                    <$> lines) |}) in *.
  match type of Hrun with
  | _ = Ok (Some ?t) => set (tr' := t) in *
  end.
  assert (On tr' = true) as HOn' by (unfold tr'; simpl; congruence).
  assert (Capacity tr' = Capacity tr2) as Hcap' by reflexivity.
  assert (ClockFn tr' = Some clock) as Hclock' by exact Hclock.
  assert (goroutineID tr' = GoroutineID env) as Hid' by exact Hid2.
  assert (goroutines tr'
          = Some (<[GoroutineID env := goroutine']> m)) as Hm' by reflexivity.
  assert (calloutNew tr' = calloutNew tr2) as Hcallout by reflexivity.
  assert (calloutPrevious tr' = calloutPrevious tr2) as Hknown
    by reflexivity.
  assert (∃ calls', Out tr' = Some calls') as [calls' Hout'] by (by eexists).
  assert (tracked tr' (GoroutineID env) = Some goroutine') as Htracked'
    by (unfold tracked; rewrite Hm'; simpl; apply lookup_insert_eq).
  assert (Forall2 same_location (Frames goroutine') captured) as Hshape.
  { assert (Forall2 same_location (Frames goroutine')
              (take newIdx captured ++ drop newIdx captured)) as Hboth.
    { apply Forall2_app; [|exact Hsame].
      apply same_location_diag, Forall_take. exact Hcapt. }
    by rewrite take_drop in Hboth. }
  assert (frames_present (Frames goroutine')) as Hpresent'.
  { apply Forall_app. split; [by apply Forall_take | by apply Forall_drop]. }
  clearbody tr' goroutine'.
  assert (proceed (Some tr') = (true, Some tr')) as Hproceed'.
  { eapply proceed_again; [exact HOn' | exact Hout' | lia | exact Hm'
                           | exact Hclock']. }
  assert (setGoroutine tr' env' = Ok (true, false, Some goroutine', tr'))
    as Hset'.
  { eapply setGoroutine_same; [congruence | exact Hm' |].
    rewrite Hid. apply lookup_insert_eq. }
  destruct (Trace_effect _ _ _ _ _ skip args' _ Hproceed' Hset' Hpresent'
              ltac:(rewrite Hcap', Hcap2; exact Hfits'))
    as (clock' & captured' & storedIdx' & newIdx' & calls'' & m' & cache'
        & lines' & Hclock'' & Hcaptured' & _ & _ & Hdiff' & _ & _ & _ & _
        & Hout'' & _ & _ & Hrun' & Hlines' & _).
  rewrite Hout' in Hout''. injection Hout'' as <-.
  rewrite Hcap' in Hcaptured'.
  pose proof (getFrameInfos_same_walk _ _ _ _ _ _ _ _ Hwalk Hcaptured
                Hcaptured') as Hsame'.
  assert (Forall2 same_location (Frames goroutine') captured') as Hshape'.
  { eapply Forall2_trans; [|exact Hshape | exact Hsame'].
    apply same_location_trans. }
  assert (1 ≤ length (Frames goroutine')) as Hpos.
  { rewrite (Forall2_length _ _ _ Hshape).
    destruct captured; simpl; [done|lia]. }
  rewrite (findLastCommonFrameIndex_same _ _ Hpos Hshape') in Hdiff'.
  injection Hdiff' as <- <-.
  cbn [andb] in Hrun', Hlines'. rewrite fmap_nil, app_nil_l in Hrun'.
  rewrite zip_with_callouts_new in Hrun' by lia.
  destruct lines' as [|line [|? ?]]; try discriminate Hlines'.
  rewrite Hid in Hrun'.
  eexists tr', _, calls', goroutine', _, line.
  split_and!; [exact Hrun | exact Hout' | exact Htracked' | exact Hrun'
               | simpl; by rewrite Hcallout
               | unfold tracked; simpl; apply lookup_insert_eq
               | | | reflexivity | simpl; by rewrite Hknown].
  - simpl. rewrite length_app, length_take, length_drop.
    pose proof (Forall2_length _ _ _ Hshape'). lia.
  - simpl. rewrite drop_app_length'; [reflexivity|].
    rewrite length_take. pose proof (Forall2_length _ _ _ Hshape'). lia.
Qed.
End Calls.

(** ** Concrete calls for the further properties *)

(** The tracer [tr] evaluated: its logger, its map and the outcome of a
    call of [Trace] are put in the context under the given names. *)
Ltac evaluate_call tr skip args env Hrun :=
  let outcome := eval vm_compute in (Trace (Some tr) skip args env) in
  lazymatch outcome with
  | Ok (Some ?tr') =>
      assert (Trace (Some tr) skip args env = Ok (Some tr')) as Hrun
        by (vm_compute; reflexivity)
  end.

Lemma printFrameIndicesLowerThan_prints_witness :
  let tr := Demo.after_three_calls in
  ∃ goroutine calls,
    tracked tr 1 = Some goroutine
    ∧ Out tr = Some calls
    ∧ frames_present (Frames goroutine)
    ∧ ∃ tr' goroutine' (lines : list string),
        printFrameIndicesLowerThan tr goroutine (-1) 1
        = Ok (tr', goroutine')
        ∧ length lines = 2
        ∧ Out tr'
          = Some (calls
                  ++ zip_with (λ line callout, Printf line [VRune callout])
                       lines [calloutPrevious tr; calloutNew tr])
        ∧ History goroutine'
          = History goroutine
            ++ ((λ line, fmt_Sprintf line [VRune (calloutPrevious tr)])
                  <$> lines)
        ∧ Frames goroutine' = Frames goroutine.
Proof.
  intros tr.
  let found := eval vm_compute in (tracked tr 1, Out tr) in
  lazymatch found with
  | (Some ?goroutine, Some ?calls) =>
      assert (tracked tr 1 = Some goroutine) as Htracked
        by (vm_compute; reflexivity);
      assert (Out tr = Some calls) as Hout by (vm_compute; reflexivity);
      assert (frames_present (Frames goroutine)) as Hpresent
        by (unfold frames_present; simpl; repeat constructor; eauto);
      assert (-1 ≤ Z.of_nat (length (Frames goroutine)))%Z as Hidx
        by (simpl; lia);
      exists goroutine, calls;
      destruct (printFrameIndicesLowerThan_prints tr goroutine (-1) 1 calls
                  Hidx Hpresent Hout)
        as (tr' & goroutine' & lines & Hrun & Hlen & Hout' & _ & Hhistory
            & Hframes & _)
  end.
  split_and!; [exact Htracked | exact Hout | exact Hpresent |].
  exists tr', goroutine', lines.
  split_and!; [exact Hrun | exact Hlen | exact Hout' | exact Hhistory
               | exact Hframes].
Defined.

Lemma Trace_inactive_witness :
  let env := Demo.env 1 100 Demo.in_main in
  On Global = false
  ∧ Trace (Some Global) 0 [VString "Start"] env = Ok (Some Global).
Proof.
  intros env. split; [reflexivity|].
  apply (Trace_inactive Global 0 [VString "Start"] env). left. reflexivity.
Defined.

Lemma Demo_after_three_calls_ids : ids_consistent Demo.after_three_calls.
Proof.
  intros id goroutine. unfold tracked.
  let m := eval vm_compute in (goroutines Demo.after_three_calls) in
  lazymatch m with
  | Some ?m =>
      assert (goroutines Demo.after_three_calls = Some m) as ->
        by (vm_compute; reflexivity);
      assert (map_Forall (λ id goroutine, ID goroutine = id) m) as Hall
        by (apply (bool_decide_unpack _); vm_compute; exact I)
  end.
  apply Hall.
Qed.

Lemma Trace_keeps_ids_consistent_witness :
  let tr := Demo.after_three_calls in
  let env := Demo.env 7 103 Demo.in_a in
  ∃ tr', ids_consistent tr
    ∧ Trace (Some tr) 0 [VInt 4; VInt 5] env = Ok (Some tr')
    ∧ ids_consistent tr'.
Proof.
  intros tr env. evaluate_call tr 0%Z [VInt 4; VInt 5] env Hrun.
  eexists. split_and!; [exact Demo_after_three_calls_ids | exact Hrun |].
  exact (Trace_keeps_ids_consistent tr 0 [VInt 4; VInt 5] env _
           Demo_after_three_calls_ids Hrun).
Defined.

Lemma Trace_leaves_the_rest_witness :
  let tr := Demo.after_three_calls in
  let env := Demo.env 1 103 Demo.in_a in
  ∃ tr', Trace (Some tr) 0 [VInt 4; VInt 5] env = Ok (Some tr')
    ∧ settings tr' = settings tr
    ∧ (∀ id, id ≠ GoroutineID env → tracked tr' id = tracked tr id)
    ∧ (∀ clock, ClockFn tr = Some clock → ClockFn tr' = Some clock).
Proof.
  intros tr env. evaluate_call tr 0%Z [VInt 4; VInt 5] env Hrun.
  eexists. split; [exact Hrun|].
  exact (Trace_leaves_the_rest tr 0 [VInt 4; VInt 5] env _ Hrun).
Defined.

Lemma Trace_same_goroutine_prints_new_frames_witness :
  let tr := Demo.after_three_calls in
  let env := Demo.env 2 103 Demo.in_c in
  ∃ tr1 tr2 changed goroutine,
    proceed (Some tr) = (true, Some tr1)
    ∧ setGoroutine tr1 env = Ok (true, changed, Some goroutine, tr2)
    ∧ changed = false
    ∧ frames_present (Frames goroutine)
    ∧ (8 * Capacity tr ≤ maxAlloc env)%Z
    ∧ ∃ clock captured storedIdx newIdx calls tr' goroutine'
        (lines : list string),
        ClockFn tr2 = Some clock
        ∧ getFrameInfos env (int (0 + 1)) (Capacity tr2) (clock env)
          = Ok captured
        ∧ findLastCommonFrameIndex (Frames goroutine) captured
          = Ok (storedIdx, newIdx)
        ∧ Out tr = Some calls
        ∧ Trace (Some tr) 0 [VInt 4; VInt 5] env = Ok (Some tr')
        ∧ length lines = newIdx
        ∧ Out tr'
          = Some (calls
                  ++ ((λ line, Printf line [VRune (calloutNew tr')])
                        <$> lines))
        ∧ tracked tr' (GoroutineID env) = Some goroutine'
        ∧ History goroutine'
          = History goroutine
            ++ ((λ line, fmt_Sprintf line [VRune (calloutPrevious tr')])
                  <$> lines).
Proof.
  intros tr env. resolve_call tr env.
  split_and!; [exact Hproceed | exact Hset | reflexivity | exact Hpresent | exact Hfits |].
  exact (Trace_same_goroutine_prints_new_frames _ _ _ _ 0 [VInt 4; VInt 5]
           _ Hproceed Hset Hpresent Hfits).
Defined.

Lemma Trace_first_call_of_goroutine_witness :
  let tr := Demo.after_three_calls in
  let env := Demo.env 7 103 Demo.in_a in
  ∃ tr1 tr2 changed goroutine,
    proceed (Some tr) = (true, Some tr1)
    ∧ setGoroutine tr1 env = Ok (true, changed, Some goroutine, tr2)
    ∧ tracked tr (GoroutineID env) = None
    ∧ (8 * Capacity tr ≤ maxAlloc env)%Z
    ∧ ∃ clock captured calls tr' (lines : list string),
        ClockFn tr2 = Some clock
        ∧ getFrameInfos env (int (0 + 1)) (Capacity tr2) (clock env)
          = Ok captured
        ∧ Out tr2 = Some calls
        ∧ Trace (Some tr) 0 [VInt 4; VInt 5] env = Ok (Some tr')
        ∧ length lines = length captured
        ∧ 1 ≤ length lines
        ∧ Out tr'
          = Some (calls
                  ++ ((λ line, Printf line [VRune (calloutNew tr')])
                        <$> lines))
        ∧ tracked tr' (GoroutineID env)
          = Some {| ID := GoroutineID env; Frames := captured;
                    TopMessage := messageFrom [VInt 4; VInt 5];
                    History :=
                      (λ line, fmt_Sprintf line
                                 [VRune (calloutPrevious tr')])
                        <$> lines |}.
Proof.
  intros tr env. resolve_call tr env.
  assert (tracked tr (GoroutineID env) = None) as Hnone
    by (vm_compute; reflexivity).
  split_and!; [exact Hproceed | exact Hset | exact Hnone | exact Hfits |].
  exact (Trace_first_call_of_goroutine _ _ _ _ _ 0 [VInt 4; VInt 5] _
           Hproceed Hset Hnone Hfits).
Defined.

Lemma Trace_switch_prints_current_stack_witness :
  let tr := Demo.configured Demo.after_three_calls 16 true false in
  let env := Demo.env 1 103 Demo.in_a in
  ∃ tr1 tr2 changed goroutine,
    proceed (Some tr) = (true, Some tr1)
    ∧ setGoroutine tr1 env = Ok (true, changed, Some goroutine, tr2)
    ∧ changed = true
    ∧ OnGoroutineSwitchPrintStackHistory tr = false
    ∧ OnGoroutineSwitchPrintCurrentStack tr = true
    ∧ frames_present (Frames goroutine)
    ∧ (8 * Capacity tr ≤ maxAlloc env)%Z
    ∧ ∃ clock captured storedIdx newIdx calls tr' goroutine'
        (lines : list string),
        ClockFn tr2 = Some clock
        ∧ getFrameInfos env (int (0 + 1)) (Capacity tr2) (clock env)
          = Ok captured
        ∧ findLastCommonFrameIndex (Frames goroutine) captured
          = Ok (storedIdx, newIdx)
        ∧ newIdx ≤ length captured
        ∧ Out tr2 = Some calls
        ∧ Trace (Some tr) 0 [VInt 4; VInt 5] env = Ok (Some tr')
        ∧ length lines = length captured
        ∧ Out tr'
          = Some (calls
                  ++ zip_with (λ line callout, Printf line [VRune callout])
                       lines
                       (replicate (length captured - newIdx)
                          (calloutPrevious tr')
                        ++ replicate newIdx (calloutNew tr')))
        ∧ tracked tr' (GoroutineID env) = Some goroutine'
        ∧ History goroutine'
          = History goroutine
            ++ ((λ line, fmt_Sprintf line [VRune (calloutPrevious tr')])
                  <$> lines).
Proof.
  intros tr env. resolve_call tr env.
  assert (OnGoroutineSwitchPrintStackHistory tr = false) as Hhistory
    by (vm_compute; reflexivity).
  assert (OnGoroutineSwitchPrintCurrentStack tr = true) as Hcurrent
    by (vm_compute; reflexivity).
  split_and!; [exact Hproceed | exact Hset | reflexivity | exact Hhistory
               | exact Hcurrent | exact Hpresent | exact Hfits |].
  exact (Trace_switch_prints_current_stack _ _ _ _ 0 [VInt 4; VInt 5] _
           Hproceed Hset Hhistory Hcurrent Hpresent Hfits).
Defined.

Lemma Trace_negative_width_panics_witness :
  let tr := Demo.configured Demo.after_three_calls (-1) false true in
  let env := Demo.env 1 103 Demo.in_a in
  (SourceLength tr < 0)%Z
  ∧ GoroutineID env ≠ goroutineID tr
  ∧ Trace (Some tr) 0 [VInt 4; VInt 5] env
    = Panic "strings: negative Repeat count".
Proof.
  intros tr env.
  assert (SourceLength tr < 0)%Z as Hwidth by (vm_compute; reflexivity).
  assert (GoroutineID env ≠ goroutineID tr) as Hother
    by (vm_compute; discriminate).
  split_and!; [exact Hwidth | exact Hother |].
  let calls := eval vm_compute in (Out tr) in
  lazymatch calls with
  | Some ?calls =>
      apply (Trace_negative_width_panics tr calls 0 [VInt 4; VInt 5] env);
        [vm_compute; reflexivity | vm_compute; reflexivity
         | vm_compute; reflexivity | vm_compute; reflexivity
         | exact Hother | exact Hwidth]
  end.
Defined.

Lemma Demo_after_three_calls_cached :
  indents_cached (indents Demo.after_three_calls).
Proof.
  let cache := eval vm_compute in (indents Demo.after_three_calls) in
  assert (indents Demo.after_three_calls = cache) as ->
    by (vm_compute; reflexivity).
  intros level s Hs.
  repeat (destruct level as [|level];
          [simpl in Hs; injection Hs as <-; reflexivity|]).
  discriminate Hs.
Qed.

Lemma Trace_keeps_indents_cached_witness :
  let tr := Demo.after_three_calls in
  let env := Demo.env 1 103 Demo.in_a in
  ∃ tr', stored_frames_present tr
    ∧ indents_cached (indents tr)
    ∧ Trace (Some tr) 0 [VInt 4; VInt 5] env = Ok (Some tr')
    ∧ indents_cached (indents tr')
    ∧ length (indents tr) < length (indents tr').
Proof.
  intros tr env. evaluate_call tr 0%Z [VInt 4; VInt 5] env Hrun.
  eexists.
  split_and!; [exact Demo_after_three_calls_present
               | exact Demo_after_three_calls_cached | exact Hrun | |].
  - exact (Trace_keeps_indents_cached tr 0 [VInt 4; VInt 5] env _
             Demo_after_three_calls_present Demo_after_three_calls_cached
             Hrun).
  - vm_compute. lia.
Defined.

Lemma Trace_again_from_same_stack_witness :
  let tr := Demo.after_three_calls in
  let env := Demo.env 1 103 Demo.in_a in
  let env' := Demo.env 1 104 Demo.in_a in
  ∃ tr1 tr2 changed goroutine,
    proceed (Some tr) = (true, Some tr1)
    ∧ setGoroutine tr1 env = Ok (true, changed, Some goroutine, tr2)
    ∧ frames_present (Frames goroutine)
    ∧ GoroutineID env' = GoroutineID env
    ∧ runtime_Callers env' = runtime_Callers env
    ∧ (8 * Capacity tr ≤ maxAlloc env)%Z
    ∧ (8 * Capacity tr ≤ maxAlloc env')%Z
    ∧ ∃ tr' tr'' calls goroutine' goroutine'' line,
        Trace (Some tr) 0 [VInt 4; VInt 5] env = Ok (Some tr')
        ∧ Out tr' = Some calls
        ∧ tracked tr' (GoroutineID env) = Some goroutine'
        ∧ Trace (Some tr') 0 [VString "again"] env' = Ok (Some tr'')
        ∧ Out tr'' = Some (calls ++ [Printf line [VRune (calloutNew tr'')]])
        ∧ tracked tr'' (GoroutineID env) = Some goroutine''
        ∧ length (Frames goroutine'') = length (Frames goroutine')
        ∧ drop 1 (Frames goroutine'') = drop 1 (Frames goroutine')
        ∧ TopMessage goroutine'' = messageFrom [VString "again"]
        ∧ History goroutine''
          = History goroutine'
            ++ [fmt_Sprintf line [VRune (calloutPrevious tr'')]].
Proof.
  intros tr env env'. resolve_call tr env.
  split_and!; [exact Hproceed | exact Hset | exact Hpresent | reflexivity
               | reflexivity | exact Hfits | exact Hfits |].
  exact (Trace_again_from_same_stack _ _ _ _ _ 0 [VInt 4; VInt 5]
           [VString "again"] env env' Hproceed Hset Hpresent eq_refl
           eq_refl Hfits Hfits).
Defined.
